(** * epub.js position indices: Locations and PageList

    A shallow embedding of the two position indices of the reader,
    [Locations] (locations.js) and [PageList] (src/pagelist.js), and of the
    parts of the platform they rest on.

    Conventions of the embedding.
    - JavaScript integers are [Z]; fractional numbers (percentages) are exact
      rationals [Q], so [Math.round] and [Math.ceil] are the exact functions.
      A numeric result that is [NaN] or an infinity is [None].
    - JavaScript strings are [string] (code units below 256).
    - An array is a [list]; [array[i]] is [JS.index], with [None] for
      [undefined].
    - The CFI engine (epubcfi.js) is not among the sources of the two
      indices; it enters as the interface [CfiEngine].

    Around the two indices the development covers the word index of
    locations.js, the reading of the page list, the spine (src/spine.js),
    [located] of rendition.js, which reports positions from the two
    indices, and the table of contents (src/navigation.js). *)

From Stdlib Require Import ZArith QArith Qround Lqa List String Ascii Bool Lia.
From Stdlib Require Import DecimalString.
Import ListNotations.
Local Open Scope Z_scope.

(* ================================================================== *)
(** * Part I: definitions *)
(* ================================================================== *)

(** ** JavaScript primitives *)

Module JS.

(** [array.length] *)
Definition length {A : Type} (array : list A) : Z :=
  Z.of_nat (List.length array).

(** [array[i]]; [None] is [undefined]. *)
Definition index {A : Type} (array : list A) (i : Z) : option A :=
  if i <? 0 then None else nth_error array (Z.to_nat i).

(** [Math.round]: nearest integer, halves towards plus infinity. *)
Definition Math_round (x : Q) : Z := Qfloor (x + (1 # 2)).


(** Truthiness of a number and of a string. *)
Definition truthy (n : Z) : bool := negb (n =? 0).

Definition truthy_string (s : string) : bool :=
  match s with EmptyString => false | String _ _ => true end.

(** [x || d] on numbers; an omitted argument is [None]. *)
Definition or_default (x : option Z) (d : Z) : Z :=
  match x with
  | Some n => if truthy n then n else d
  | None => d
  end.

(** White space as [String.prototype.trim] sees it, below code unit 256:
    TAB, LF, VT, FF, CR, SPACE and NBSP. *)
Definition is_space (c : ascii) : bool :=
  let n := nat_of_ascii c in
  ((9 <=? n) && (n <=? 13) || (n =? 32) || (n =? 160))%nat.

Fixpoint all_space (s : string) : bool :=
  match s with
  | EmptyString => true
  | String c rest => is_space c && all_space rest
  end.

(** [s.trim().length === 0] *)
Definition trim_is_empty (s : string) : bool := all_space s.

End JS.

(** ** Outcomes of code that may throw or loop *)

Inductive outcome (A : Type) : Type :=
| Ok (a : A)
| TypeError          (* a property of [undefined] was written *)
| Diverges.          (* the loop did not finish within its fuel *)
Arguments Ok {A} a.
Arguments TypeError {A}.
Arguments Diverges {A}.

Definition bind {A B : Type} (m : outcome A) (k : A -> outcome B) : outcome B :=
  match m with
  | Ok a => k a
  | TypeError => TypeError
  | Diverges => Diverges
  end.

Notation "x <- m ;; k" := (bind m (fun x => k))
  (at level 61, m at next level, right associativity).
Notation "' p <- m ;; k" := (bind m (fun x => match x with p => k end))
  (at level 61, p pattern, m at next level, right associativity).

(** ** Documents *)

(** A text node: an identity and its character data.  [node.length] and
    [node.textContent] are both read off [textContent]. *)
Record TextNode : Type := {
  node_id : nat;
  textContent : string
}.

Definition node_length (n : TextNode) : Z :=
  Z.of_nat (String.length (textContent n)).

#[warnings="-register-all"]
Inductive Node : Type :=
| Text (t : TextNode)
| Element (children : list Node).

(** The object returned by [createRange]: four fields, all [undefined]. *)
Record Range : Type := {
  startContainer : option TextNode;
  startOffset : option Z;
  endContainer : option TextNode;
  endOffset : option Z
}.

(** A spine item as the index generator sees it: its [linear] flag, its
    [cfiBase], and the body of the document that [section.load] yields. *)
Record Section : Type := {
  linear : bool;
  cfiBase : string;
  body : Node
}.

(** ** The CFI engine, as an interface *)

Class CfiEngine : Type := {
  (** what a caller hands over as a CFI: a string or an [EpubCFI] object *)
  Cfi : Type;
  (** a string held in an index, seen as such a value *)
  cfiString : string -> Cfi;
  (** [EpubCFI.prototype.isCfiString] *)
  isCfiString : Cfi -> bool;
  (** [new EpubCFI(cfi)] *)
  newEpubCFI : Cfi -> Cfi;
  (** [epubcfi.compare] *)
  compare : Cfi -> Cfi -> Z;
  (** [new EpubCFI(range, cfiBase).toString()] *)
  cfiFromRange : Range -> string -> string;
  (** [c = new EpubCFI(x); c.collapse(); c.toString()], [x] possibly
      [undefined] *)
  collapsedString : option string -> string
}.

(** ** utils/core.js *)

Module Core.

(** Modelled from the spec: [sprint] of utils/core.js is not among the
    sources.  The spec has the generator "walk its text nodes in document
    order": the callback is applied to every text node under the root,
    in document order. *)
Fixpoint sprint (root : Node) : list TextNode :=
  match root with
  | Text t => [t]
  | Element children =>
      (fix walk (l : list Node) : list TextNode :=
         match l with
         | [] => []
         | c :: rest => sprint c ++ walk rest
         end) children
  end.

(** Modelled from the spec: [indexOfSorted] of utils/core.js is not among
    the sources.  The spec describes it as "a linear search
    ([indexOfSorted]: exact match returning -1 if absent)" that tolerates
    duplicate keys "by returning any matching index". *)
Fixpoint indexOfSorted_from {A : Type} (item : A) (array : list A)
    (compareFunction : A -> A -> Z) (i : Z) : Z :=
  match array with
  | [] => -1
  | a :: rest =>
      if compareFunction a item =? 0 then i
      else indexOfSorted_from item rest compareFunction (i + 1)
  end.

Definition indexOfSorted {A : Type} (item : A) (array : list A)
    (compareFunction : A -> A -> Z) : Z :=
  indexOfSorted_from item array compareFunction 0.

(** Modelled from the spec: [locationOf] of utils/core.js is not among
    the sources.  The spec describes it as "an insertion-point search
    ([locationOf]: returns insertion index assuming sorted ascending
    order, using binary search, O(log n))", with "a stable insertion
    point" on duplicate keys: a binary search for the first position whose
    entry does not sort before the item. *)
Fixpoint locationOf_between {A : Type} (fuel : nat) (item : A)
    (array : list A) (compareFunction : A -> A -> Z)
    (start end_ : Z) : Z :=
  if end_ - start <=? 0 then start
  else
    match fuel with
    | O => start
    | S fuel' =>
        let pivot := start + (end_ - start) / 2 in
        match JS.index array pivot with
        | None => start
        | Some a =>
            if compareFunction a item <? 0
            then locationOf_between fuel' item array compareFunction
                   (pivot + 1) end_
            else locationOf_between fuel' item array compareFunction
                   start pivot
        end
    end.

Definition locationOf {A : Type} (item : A) (array : list A)
    (compareFunction : A -> A -> Z) : Z :=
  locationOf_between (List.length array) item array compareFunction
    0 (JS.length array).

End Core.

(** ** JSON text of an array of strings *)

Module JSON.

Definition dquote : ascii := ascii_of_nat 34.
Definition backslash : ascii := ascii_of_nat 92.

Definition hex_digits : list ascii :=
  ["0"; "1"; "2"; "3"; "4"; "5"; "6"; "7";
   "8"; "9"; "a"; "b"; "c"; "d"; "e"; "f"]%char.

Definition hex_digit (n : nat) : ascii := nth n hex_digits "0"%char.

(** [JSON.stringify] of one code unit inside a string literal: the quote
    and the backslash are escaped, the control characters take their short
    escape or [\u00xx], everything else is copied. *)
Definition quote_char (c : ascii) : string :=
  let n := nat_of_ascii c in
  let esc (x : ascii) := String backslash (String x EmptyString) in
  if (n =? 34)%nat then esc dquote
  else if (n =? 92)%nat then esc backslash
  else if (n =? 8)%nat then esc "b"%char
  else if (n =? 9)%nat then esc "t"%char
  else if (n =? 10)%nat then esc "n"%char
  else if (n =? 12)%nat then esc "f"%char
  else if (n =? 13)%nat then esc "r"%char
  else if (n <? 32)%nat then
    String backslash (String "u" (String "0" (String "0"
      (String (hex_digit (n / 16)) (String (hex_digit (n mod 16))
         EmptyString)))))
  else String c EmptyString.

Fixpoint quote_body (s : string) : string :=
  match s with
  | EmptyString => EmptyString
  | String c rest => quote_char c ++ quote_body rest
  end.

Definition quote (s : string) : string :=
  String dquote (quote_body s ++ String dquote EmptyString).

Fixpoint elements (l : list string) : string :=
  match l with
  | [] => EmptyString
  | [s] => quote s
  | s :: rest => quote s ++ String "," (elements rest)
  end.

(** [JSON.stringify(array)] for an array of strings. *)
Definition stringify (l : list string) : string :=
  String "[" (elements l ++ String "]" EmptyString).

(** [JSON.parse], restricted to the texts that denote an array of
    strings; any other text (a syntax error, or a value that is not an
    array of strings) is [None].  The reader is a state machine over the
    code units of the text. *)
Inductive mode : Type :=
| Start                       (* before the opening bracket *)
| Open                        (* after the opening bracket *)
| Next                        (* after a comma *)
| InString (acc : string)
| Escape (acc : string)
| Unicode (acc : string) (digits : nat) (value : nat)
| AfterString                 (* after a closing quote *)
| Closed.                     (* after the closing bracket *)

Definition is_ws (c : ascii) : bool :=
  let n := nat_of_ascii c in
  ((n =? 32) || (n =? 9) || (n =? 10) || (n =? 13))%nat.

Definition hex_value (c : ascii) : option nat :=
  let n := nat_of_ascii c in
  if ((48 <=? n) && (n <=? 57))%nat then Some (n - 48)%nat
  else if ((97 <=? n) && (n <=? 102))%nat then Some (n - 87)%nat
  else if ((65 <=? n) && (n <=? 70))%nat then Some (n - 55)%nat
  else None.

Definition snoc (acc : string) (c : ascii) : string :=
  acc ++ String c EmptyString.

Definition unescape (c : ascii) : option ascii :=
  let n := nat_of_ascii c in
  if (n =? 34)%nat then Some dquote
  else if (n =? 92)%nat then Some backslash
  else if (n =? 47)%nat then Some "/"%char
  else if (n =? 98)%nat then Some (ascii_of_nat 8)
  else if (n =? 116)%nat then Some (ascii_of_nat 9)
  else if (n =? 110)%nat then Some (ascii_of_nat 10)
  else if (n =? 102)%nat then Some (ascii_of_nat 12)
  else if (n =? 114)%nat then Some (ascii_of_nat 13)
  else None.

Fixpoint read (m : mode) (done : list string) (text : string)
    : option (list string) :=
  match text with
  | EmptyString =>
      match m with Closed => Some done | _ => None end
  | String c rest =>
      let n := nat_of_ascii c in
      match m with
      | Start =>
          if is_ws c then read Start done rest
          else if (n =? 91)%nat then read Open done rest
          else None
      | Open =>
          if is_ws c then read Open done rest
          else if (n =? 34)%nat then read (InString EmptyString) done rest
          else if (n =? 93)%nat then read Closed done rest
          else None
      | Next =>
          if is_ws c then read Next done rest
          else if (n =? 34)%nat then read (InString EmptyString) done rest
          else None
      | InString acc =>
          if (n =? 34)%nat then read AfterString (done ++ [acc]) rest
          else if (n =? 92)%nat then read (Escape acc) done rest
          else if (n <? 32)%nat then None
          else read (InString (snoc acc c)) done rest
      | Escape acc =>
          if (n =? 117)%nat then read (Unicode acc 0 0) done rest
          else
            match unescape c with
            | Some x => read (InString (snoc acc x)) done rest
            | None => None
            end
      | Unicode acc digits value =>
          match hex_value c with
          | None => None
          | Some d =>
              let value' := (16 * value + d)%nat in
              if (digits =? 3)%nat then
                if (value' <? 256)%nat
                then read (InString (snoc acc (ascii_of_nat value')))
                       done rest
                else None
              else read (Unicode acc (S digits) value') done rest
          end
      | AfterString =>
          if is_ws c then read AfterString done rest
          else if (n =? 44)%nat then read Next done rest
          else if (n =? 93)%nat then read Closed done rest
          else None
      | Closed =>
          if is_ws c then read Closed done rest else None
      end
  end.

Definition parse (text : string) : option (list string) :=
  read Start [] text.

End JSON.

(** ** locations.js *)

Module Locations.

(** The fields of a [Locations] object that the index uses.  [request],
    the queue and the word index play no part in what follows. *)
Record t : Type := {
  spine : list Section;
  pause : Z;
  _locations : list string;
  total : Z;
  break : Z;
  _current : Z;
  _currentCfi : string
}.

(** [constructor(spine, request, pause)] *)
Definition constructor (spine : list Section) (pause : option Z) : t :=
  {| spine := spine;
     pause := JS.or_default pause 100;
     _locations := [];
     total := 0;
     break := 150;
     _current := 0;
     _currentCfi := EmptyString |}.

Definition createRange : Range :=
  {| startContainer := None; startOffset := None;
     endContainer := None; endOffset := None |}.

(** The variables that the callback of [parse] closes over. *)
Record walk : Type := {
  locations : list string;
  range : option Range;
  counter : Z;
  prev : option TextNode
}.

Definition start_range (node : TextNode) (pos : Z) : Range :=
  {| startContainer := Some node; startOffset := Some pos;
     endContainer := None; endOffset := None |}.

Definition end_range (r : Range) (node : TextNode) (pos : Z) : Range :=
  {| startContainer := startContainer r; startOffset := startOffset r;
     endContainer := Some node; endOffset := Some pos |}.

Section Parse.
Context {E : CfiEngine}.

(** One turn of the [while (pos < len)] loop of the callback: the new
    [pos] and the updated variables. *)
Definition loop_body (_break : Z) (cfiBase : string) (node : TextNode)
    (len pos : Z) (w : walk) : outcome (Z * walk) :=
  let dist := _break - counter w in
  let '(pos, w) :=
    if counter w =? 0 then
      (pos + 1,
       {| locations := locations w;
          range := Some (start_range node (pos + 1));
          counter := counter w;
          prev := prev w |})
    else (pos, w) in
  if pos + dist >=? len then
    Ok (len,
        {| locations := locations w;
           range := range w;
           counter := counter w + (len - pos);
           prev := prev w |})
  else
    let pos := pos + dist in
    match range w with
    | None => TypeError
    | Some r =>
        let r := end_range r node pos in
        Ok (pos,
            {| locations := locations w ++ [cfiFromRange r cfiBase];
               range := Some r;
               counter := 0;
               prev := prev w |})
    end.

Fixpoint while_loop (fuel : nat) (_break : Z) (cfiBase : string)
    (node : TextNode) (len pos : Z) (w : walk) : outcome walk :=
  if pos <? len then
    match fuel with
    | O => Diverges
    | S fuel' =>
        ' (pos', w') <- loop_body _break cfiBase node len pos w ;;
        while_loop fuel' _break cfiBase node len pos' w'
    end
  else Ok w.

(** The callback [parser] that [parse] hands to [sprint].  The loop is
    given two turns per character of the node, and one more. *)
Definition parser (_break : Z) (cfiBase : string) (node : TextNode)
    (w : walk) : outcome walk :=
  let len := node_length node in
  if JS.trim_is_empty (textContent node) then Ok w
  else
    let w :=
      if counter w =? 0 then
        {| locations := locations w;
           range := Some (start_range node 0);
           counter := counter w;
           prev := prev w |}
      else w in
    let dist := _break - counter w in
    let '(pos, w) :=
      if dist >? len then
        (len,
         {| locations := locations w;
            range := range w;
            counter := counter w + len;
            prev := prev w |})
      else (0, w) in
    w <- while_loop (S (2 * String.length (textContent node)))
           _break cfiBase node len pos w ;;
    Ok {| locations := locations w;
          range := range w;
          counter := counter w;
          prev := Some node |}.

(** [sprint(body, parser)]: the callback runs on the text nodes in
    turn, on the same variables. *)
Fixpoint each_node (_break : Z) (cfiBase : string)
    (nodes : list TextNode) (w : walk) : outcome walk :=
  match nodes with
  | [] => Ok w
  | node :: rest =>
      w' <- parser _break cfiBase node w ;;
      each_node _break cfiBase rest w'
  end.

Definition initial : walk :=
  {| locations := []; range := None; counter := 0; prev := None |}.

(** The "close remaining" step at the end of [parse]. *)
Definition close_remaining (cfiBase : string) (w : walk) : list string :=
  match range w, prev w with
  | Some r, Some p =>
      match startContainer r with
      | Some _ =>
          locations w
            ++ [cfiFromRange (end_range r p (node_length p)) cfiBase]
      | None => locations w
      end
  | _, _ => locations w
  end.

(** [parse(contents, cfiBase, chars)]; [contents] is given by the body
    of its document. *)
Definition parse (self : t) (contents : Node) (cfiBase : string)
    (chars : option Z) : outcome (list string) :=
  let _break := JS.or_default chars (break self) in
  w <- each_node _break cfiBase (Core.sprint contents) initial ;;
  Ok (close_remaining cfiBase w).

(** [process(section)] *)
Definition process (self : t) (section : Section) : outcome t :=
  locations <- parse self (body section) (cfiBase section) None ;;
  Ok {| spine := spine self;
        pause := pause self;
        _locations := _locations self ++ locations;
        total := total self;
        break := break self;
        _current := _current self;
        _currentCfi := _currentCfi self |}.

(** [locationFromCfi(cfi)] *)
Definition locationFromCfi (self : t) (cfi : Cfi) : Z :=
  let cfi := if isCfiString cfi then newEpubCFI cfi else cfi in
  if JS.length (_locations self) =? 0 then -1
  else
    let loc :=
      Core.locationOf cfi (map cfiString (_locations self)) compare in
    if loc >? total self then total self else loc.

(** [percentageFromLocation(loc)] *)
Definition percentageFromLocation (self : t) (loc : Z) : Q :=
  if negb (JS.truthy loc) || negb (JS.truthy (total self)) then 0%Q
  else (inject_Z loc / inject_Z (total self))%Q.

(** [percentageFromCfi(cfi)]; [None] is [null]. *)
Definition percentageFromCfi (self : t) (cfi : Cfi) : option Q :=
  if JS.length (_locations self) =? 0 then None
  else Some (percentageFromLocation self (locationFromCfi self cfi)).

(** What [cfiFromLocation] and [cfiFromPercentage] return: a stored
    string, or a number. *)
Inductive cfi_or_number : Type :=
| CfiText (s : string)
| Number (n : Z).

(** [cfiFromLocation(loc)], [loc] a number. *)
Definition cfiFromLocation (self : t) (loc : Z) : cfi_or_number :=
  if (loc >=? 0) && (loc <? JS.length (_locations self)) then
    match JS.index (_locations self) loc with
    | Some s => CfiText s
    | None => Number (-1)
    end
  else Number (-1).


(** [setCurrent(curr)] with a string. *)
Definition setCurrent (self : t) (curr : string) : t :=
  let self' :=
    {| spine := spine self; pause := pause self;
       _locations := _locations self; total := total self;
       break := break self; _current := _current self;
       _currentCfi := curr |} in
  if JS.length (_locations self') =? 0 then self'
  else
    {| spine := spine self'; pause := pause self';
       _locations := _locations self'; total := total self';
       break := break self';
       _current := locationFromCfi self' (cfiString curr);
       _currentCfi := curr |}.

(** Modelled from the spec: the [Queue] of utils/queue.js is not among
    the sources.  The spec has it run the enqueued tasks "in spine
    order, one at a time": [run] applies [process] to the queued
    sections in the order they were enqueued. *)
Fixpoint run (queue : list Section) (self : t) : outcome t :=
  match queue with
  | [] => Ok self
  | section :: rest =>
      self' <- process self section ;;
      run rest self'
  end.

(** [spine.each] with the callback of [generate]: the linear sections
    are enqueued. *)
Definition enqueue_linear (sections : list Section) : list Section :=
  filter linear sections.

(** [generate(chars)]: the state once the returned promise has
    resolved; its value is [_locations] of that state. *)
Definition generate (self : t) (chars : option Z) : outcome t :=
  let self :=
    match chars with
    | Some c =>
        if JS.truthy c then
          {| spine := spine self; pause := pause self;
             _locations := _locations self; total := total self;
             break := c; _current := _current self;
             _currentCfi := _currentCfi self |}
        else self
    | None => self
    end in
  self <- run (enqueue_linear (spine self)) self ;;
  let self :=
    {| spine := spine self; pause := pause self;
       _locations := _locations self;
       total := JS.length (_locations self) - 1;
       break := break self; _current := _current self;
       _currentCfi := _currentCfi self |} in
  Ok (if JS.truthy_string (_currentCfi self)
      then setCurrent self (_currentCfi self)
      else self).

(** The argument of [load]: a JSON text or an array. *)
Inductive load_argument : Type :=
| JsonText (text : string)
| Array (array : list string).

(** [load(locations)]; [None] when [JSON.parse] does not yield an array
    of strings. *)
Definition load (self : t) (locations : load_argument) : option t :=
  let parsed :=
    match locations with
    | JsonText text => JSON.parse text
    | Array array => Some array
    end in
  match parsed with
  | None => None
  | Some array =>
      Some {| spine := spine self; pause := pause self;
              _locations := array;
              total := JS.length array - 1;
              break := break self; _current := _current self;
              _currentCfi := _currentCfi self |}
  end.

(** [save()] *)
Definition save (self : t) : string :=
  JSON.stringify (_locations self).

End Parse.

End Locations.

(** ** src/pagelist.js *)

Module PageList.

(** An entry of the parsed page list: [{cfi, href, page}]; [cfi] is
    absent on entries that carry only an [href]. *)
Record item : Type := {
  cfi : option string;
  href : string;
  page : Z
}.

Record t : Type := {
  pages : list Z;
  locations : list string;
  firstPage : option Z;
  lastPage : option Z;
  totalPages : option Z
}.

(** The fields as the constructor initialises them. *)
Definition empty : t :=
  {| pages := []; locations := [];
     firstPage := Some 0; lastPage := Some 0; totalPages := Some 0 |}.

(** [if (item.cfi)] *)
Definition has_cfi (i : item) : bool :=
  match cfi i with
  | Some s => JS.truthy_string s
  | None => false
  end.

(** The [forEach] of [process]: every page is pushed, a location only
    for an entry with a [cfi]. *)
Fixpoint push_all (pageList : list item) (pgs : list Z)
    (locs : list string) : list Z * list string :=
  match pageList with
  | [] => (pgs, locs)
  | i :: rest =>
      push_all rest (pgs ++ [page i])
        (match cfi i with
         | Some s => if JS.truthy_string s then locs ++ [s] else locs
         | None => locs
         end)
  end.

(** [a - b] on numbers that may be [NaN]. *)
Definition minus (a b : option Z) : option Z :=
  match a, b with
  | Some x, Some y => Some (x - y)
  | _, _ => None
  end.

(** [process(pageList)]; [parseInt] of a missing page is [NaN]. *)
Definition process (self : t) (pageList : list item) : t :=
  let '(pgs, locs) := push_all pageList (pages self) (locations self) in
  let first := JS.index pgs 0 in
  let last := JS.index pgs (JS.length pgs - 1) in
  {| pages := pgs; locations := locs;
     firstPage := first; lastPage := last;
     totalPages := minus last first |}.

(** [new PageList(xml)], from the list that [parse] reads off [xml]. *)
Definition constructor (pageList : list item) : t :=
  if negb (JS.length pageList =? 0) then process empty pageList
  else empty.

Section Queries.
Context {E : CfiEngine}.

(** [pageFromCfi(cfi)]; [None] is [undefined]. *)
Definition pageFromCfi (self : t) (cfi : Cfi) : option Z :=
  if JS.length (locations self) =? 0 then Some (-1)
  else
    let index :=
      Core.indexOfSorted cfi (map cfiString (locations self)) compare in
    if negb (index =? -1) then JS.index (pages self) index
    else
      let index :=
        Core.locationOf cfi (map cfiString (locations self)) compare in
      let pg :=
        if index - 1 >=? 0 then JS.index (pages self) (index - 1)
        else JS.index (pages self) 0 in
      match pg with
      | Some p => Some p
      | None => Some (-1)
      end.

End Queries.


(** [percentageFromPage(pg)]; a division by zero leaves no finite
    number. *)
Definition percentageFromPage (self : t) (pg : Z) : option Q :=
  match firstPage self, totalPages self with
  | Some f, Some n =>
      if n =? 0 then None
      else
        let percentage := (inject_Z (pg - f) / inject_Z n)%Q in
        Some (inject_Z (JS.Math_round (percentage * 1000)) / 1000)%Q
  | _, _ => None
  end.


End PageList.

(** An instance of the interface, on which the examples of Part II are run;
    it stands for no part of the sources and no general property rests on
    it.  A CFI is its string, an [EpubCFI] object is identified with the
    string it was built from, and strings are ordered code unit by code
    unit. *)
Definition cmp_string (a b : string) : Z :=
  match String.compare a b with
  | Lt => -1
  | Eq => 0
  | Gt => 1
  end.

Definition is_cfi_string (s : string) : bool :=
  String.prefix "epubcfi(" s.

Definition point_of (x : option string) : string :=
  match x with
  | Some s => s
  | None => "epubcfi(!)"
  end.

Definition show_number (n : option Z) : string :=
  match n with
  | Some z => NilZero.string_of_int (Z.to_int z)
  | None => "?"
  end.

Definition show_container (c : option TextNode) : string :=
  match c with
  | Some n => textContent n
  | None => "?"
  end.

(** A range written as [base!start:offset,end:offset], the containers by
    their text. *)
Definition range_text (r : Range) (base : string) : string :=
  (base ++ "!" ++ show_container (startContainer r) ++ ":"
        ++ show_number (startOffset r) ++ ","
        ++ show_container (endContainer r) ++ ":"
        ++ show_number (endOffset r))%string.

#[local] Instance StringEngine : CfiEngine := {
  Cfi := string;
  cfiString := fun s => s;
  isCfiString := is_cfi_string;
  newEpubCFI := fun s => s;
  compare := cmp_string;
  cfiFromRange := range_text;
  collapsedString := point_of
}.

(** ** Notions in the words of the specification *)

(** "The located-or-nearest-preceding boundary" of a CFI in an index: the
    last entry that the comparator does not place after the CFI; -1 when
    there is none. *)
Fixpoint last_not_after {E : CfiEngine} (item : Cfi) (entries : list string)
    (i found : Z) : Z :=
  match entries with
  | [] => found
  | s :: rest =>
      last_not_after item rest (i + 1)
        (if compare (cfiString s) item <=? 0 then i else found)
  end.

Definition nearest_preceding {E : CfiEngine} (self : Locations.t)
    (cfi : Cfi) : Z :=
  last_not_after (if isCfiString cfi then newEpubCFI cfi else cfi)
    (Locations._locations self) 0 (-1).





(** The two indices that the examples run on. *)
Definition cfi_A : string := "epubcfi(/6/2!/4/2)".
Definition cfi_B : string := "epubcfi(/6/2!/4/6)".
Definition cfi_between : string := "epubcfi(/6/2!/4/4)".

Definition two_locations : Locations.t :=
  {| Locations.spine := []; Locations.pause := 100;
     Locations._locations := [cfi_A; cfi_B];
     Locations.total := 1; Locations.break := 150;
     Locations._current := 0; Locations._currentCfi := EmptyString |}.

Definition two_pages : list PageList.item :=
  [ {| PageList.cfi := Some cfi_A; PageList.href := "a.xhtml";
       PageList.page := 1 |};
    {| PageList.cfi := Some cfi_B; PageList.href := "b.xhtml";
       PageList.page := 2 |} ].


(** The walk of [parse] over a document. *)

(** A text node that [parser] does not skip. *)
Definition nonblank (n : TextNode) : bool :=
  negb (JS.trim_is_empty (textContent n)).

(** The characters of the text nodes that are not skipped. *)
Fixpoint characters (nodes : list TextNode) : Z :=
  match nodes with
  | [] => 0
  | n :: rest =>
      (if nonblank n then node_length n else 0) + characters rest
  end.

(** A range is open: [range] is an object with a start container. *)
Definition ranged (w : Locations.walk) : Prop :=
  exists r n, Locations.range w = Some r /\ startContainer r = Some n.

(** Between two text nodes: the counter is within the chunk size, and a
    range is open whenever it is not 0. *)
Definition steady (b : Z) (w : Locations.walk) : Prop :=
  0 <= Locations.counter w <= b
  /\ (Locations.counter w <> 0 -> ranged w).

(** [self] after [this.break = b]. *)
Definition with_break (self : Locations.t) (b : Z) : Locations.t :=
  {| Locations.spine := Locations.spine self;
     Locations.pause := Locations.pause self;
     Locations._locations := Locations._locations self;
     Locations.total := Locations.total self;
     Locations.break := b;
     Locations._current := Locations._current self;
     Locations._currentCfi := Locations._currentCfi self |}.

(** A spine of two sections, the first one not linear. *)
Definition sample_body : Node :=
  Element
    [ Element [ Text {| node_id := 1; textContent := "abc" |} ];
      Text {| node_id := 2; textContent := "  " |};
      Element [ Text {| node_id := 3; textContent := "defgh" |} ] ].

Definition sample_spine : list Section :=
  [ {| linear := false; cfiBase := "/6/2"; body := sample_body |};
    {| linear := true; cfiBase := "/6/4"; body := sample_body |} ].

(** ** locations.js: the word index *)

(** [countWords], [parseWords], [processWords] and [generateFromWords].
    The word index is kept in two fields of its own, [_locationsWords] and
    [_wordCounter]; the assignment to [currentLocation] that ends
    [generateFromWords] writes neither of them and is not repeated here. *)
Module Words.

(** The first [replace] of [countWords]: the white space at the start and
    at the end of the text is taken away. *)
Fixpoint trim_start (s : string) : string :=
  match s with
  | EmptyString => EmptyString
  | String c rest => if JS.is_space c then trim_start rest else s
  end.

Fixpoint trim_end (s : string) : string :=
  match s with
  | EmptyString => EmptyString
  | String c rest =>
      match trim_end rest with
      | EmptyString => if JS.is_space c then EmptyString
                       else String c EmptyString
      | kept => String c kept
      end
  end.

Definition is_blank (c : ascii) : bool := (nat_of_ascii c =? 32)%nat.
Definition is_newline (c : ascii) : bool := (nat_of_ascii c =? 10)%nat.

(** The second [replace]: of a run of two or more blanks only the first
    one stays; [after_blank] tells that the code unit before was a blank. *)
Fixpoint squeeze (after_blank : bool) (s : string) : string :=
  match s with
  | EmptyString => EmptyString
  | String c rest =>
      if is_blank c then
        if after_blank then squeeze true rest
        else String c (squeeze true rest)
      else String c (squeeze false rest)
  end.

(** The third [replace], which is not global: the first blank that
    follows a newline goes. *)
Fixpoint drop_blank_after_newline (s : string) : string :=
  match s with
  | EmptyString => EmptyString
  | String a rest =>
      match rest with
      | String b rest' =>
          if is_newline a && is_blank b then String a rest'
          else String a (drop_blank_after_newline rest)
      | EmptyString => s
      end
  end.

(** [s.split(" ").length]: one more than the blanks of [s]. *)
Fixpoint blanks (s : string) : Z :=
  match s with
  | EmptyString => 0
  | String c rest => (if is_blank c then 1 else 0) + blanks rest
  end.

(** [countWords(s)] *)
Definition countWords (s : string) : Z :=
  let s := trim_end (trim_start s) in
  let s := squeeze false s in
  let s := drop_blank_after_newline s in
  blanks s + 1.


(** An entry of [_locationsWords]. *)
Record word_location : Type := {
  cfi : string;
  wordCount : Z
}.

(** The parsed start CFI as [generateFromWords] uses it: its [spinePos],
    and the node that [findNode] gives in a document ([None] when it gives
    none). *)
Record start_cfi : Type := {
  spinePos : Z;
  findNode : Node -> option TextNode
}.

(** A spine item with the [index] that [generateFromWords] reads. *)
Record section : Type := {
  index : Z;
  item : Section
}.

(** The fields of the [Locations] object that the word index writes. *)
Record t : Type := {
  _locationsWords : list word_location;
  _wordCounter : Z
}.

(** The variables of one [parseWords] call, with [_wordCounter]. *)
Record walk : Type := {
  locations : list word_location;
  counter : Z;
  foundStartNode : bool
}.

(** [node === startNode]: text nodes are told apart by their identity. *)
Definition same_node (node : TextNode) (startNode : option TextNode) : bool :=
  match startNode with
  | Some n => (node_id node =? node_id n)%nat
  | None => false
  end.

Section Parse.
(** [new EpubCFI(node, cfiBase).toString()] *)
Variable cfiFromNode : TextNode -> string -> string.

(** One turn of the [while (pos < len)] loop of the callback. *)
Definition loop_body (_break : Z) (cfiBase : string) (node : TextNode)
    (len pos : Z) (w : walk) : Z * walk :=
  let dist := _break - counter w in
  if pos + dist >=? len then
    (len,
     {| locations := locations w;
        counter := counter w + (len - pos);
        foundStartNode := foundStartNode w |})
  else
    (pos + dist,
     {| locations :=
          locations w
            ++ [{| cfi := cfiFromNode node cfiBase;
                   wordCount := counter w |}];
        counter := 0;
        foundStartNode := foundStartNode w |}).

Fixpoint while_loop (fuel : nat) (_break : Z) (cfiBase : string)
    (node : TextNode) (len pos : Z) (w : walk) : outcome walk :=
  if pos <? len then
    match fuel with
    | O => Diverges
    | S fuel' =>
        let '(pos', w') := loop_body _break cfiBase node len pos w in
        while_loop fuel' _break cfiBase node len pos' w'
    end
  else Ok w.

(** The callback of [parseWords].  The loop is given as many turns as the
    node has words, and the size of the counter and three more. *)
Definition parser (_break : Z) (cfiBase : string)
    (startNode : option TextNode) (node : TextNode) (w : walk)
    : outcome walk :=
  if negb (foundStartNode w) && negb (same_node node startNode) then Ok w
  else
    let w :=
      {| locations := locations w; counter := counter w;
         foundStartNode := true |} in
    if (node_length node <? 10)
       && JS.trim_is_empty (textContent node) then Ok w
    else
      let len := countWords (textContent node) in
      if len =? 0 then Ok w
      else
        let dist := _break - counter w in
        let '(pos, w) :=
          if dist >? len then
            (len,
             {| locations := locations w;
                counter := counter w + len;
                foundStartNode := foundStartNode w |})
          else (0, w) in
        while_loop (Z.to_nat (len + Z.abs (counter w) + 3))
          _break cfiBase node len pos w.

Fixpoint each_node (_break : Z) (cfiBase : string)
    (startNode : option TextNode) (nodes : list TextNode) (w : walk)
    : outcome walk :=
  match nodes with
  | [] => Ok w
  | node :: rest =>
      w' <- parser _break cfiBase startNode node w ;;
      each_node _break cfiBase startNode rest w'
  end.

(** [parseWords(contents, section, wordCount, startCfi)]: the locations of
    the document, and [_wordCounter] after it. *)
Definition parseWords (self : t) (s : section) (wordCount : Z)
    (startCfi : option start_cfi) : outcome (list word_location * t) :=
  let at_start :=
    match startCfi with
    | Some c => index s =? spinePos c
    | None => false
    end in
  let startNode :=
    match startCfi with
    | Some c => if at_start then findNode c (body (item s)) else None
    | None => None
    end in
  w <- each_node wordCount (cfiBase (item s)) startNode
         (Core.sprint (body (item s)))
         {| locations := []; counter := _wordCounter self;
            foundStartNode := negb at_start |} ;;
  Ok (locations w,
      {| _locationsWords := _locationsWords self;
         _wordCounter := counter w |}).

(** [array.slice(0, end)] *)
Definition slice_to {A : Type} (array : list A) (end_ : Z) : list A :=
  let m := JS.length array in
  let e := if end_ <? 0 then Z.max (m + end_) 0 else Z.min end_ m in
  firstn (Z.to_nat e) array.

(** [processWords(section, wordCount, startCfi, count)]; a [count] left
    out is [None]. *)
Definition processWords (self : t) (s : section) (wordCount : Z)
    (startCfi : option start_cfi) (count : option Z) : outcome t :=
  let full :=
    match count with
    | Some c => JS.truthy c && (JS.length (_locationsWords self) >=? c)
    | None => false
    end in
  if full then Ok self
  else
    ' (locations, self) <- parseWords self s wordCount startCfi ;;
    let kept :=
      match count with
      | Some c =>
          if JS.length locations >=? c
          then slice_to locations (c - JS.length (_locationsWords self))
          else locations
      | None => locations
      end in
    Ok {| _locationsWords := _locationsWords self ++ kept;
          _wordCounter := _wordCounter self |}.

(** The queue of [generateFromWords], run as in [Locations.run]. *)
Fixpoint run (queue : list section) (wordCount : Z)
    (startCfi : option start_cfi) (count : option Z) (self : t)
    : outcome t :=
  match queue with
  | [] => Ok self
  | s :: rest =>
      self' <- processWords self s wordCount startCfi count ;;
      run rest wordCount startCfi count self'
  end.

(** The sections that [generateFromWords] enqueues. *)
Definition enqueued (spine : list section) (startCfi : option start_cfi)
    : list section :=
  filter
    (fun s =>
       linear (item s)
       && match startCfi with
          | Some c => index s >=? spinePos c
          | None => true
          end)
    spine.

(** [generateFromWords(startCfi, wordCount, count)], with the start CFI
    parsed: the fields once the promise has resolved. *)
Definition generateFromWords (spine : list section)
    (startCfi : option start_cfi) (wordCount : Z) (count : option Z)
    : outcome t :=
  run (enqueued spine startCfi) wordCount startCfi count
    {| _locationsWords := []; _wordCounter := 0 |}.

End Parse.

End Words.

(** ** Notions for the word index *)

Fixpoint none_space (s : string) : bool :=
  match s with
  | EmptyString => true
  | String c rest => negb (JS.is_space c) && none_space rest
  end.

Fixpoint all_blank (s : string) : bool :=
  match s with
  | EmptyString => true
  | String c rest => Words.is_blank c && all_blank rest
  end.

Fixpoint none_blank (s : string) : bool :=
  match s with
  | EmptyString => true
  | String c rest => negb (Words.is_blank c) && none_blank rest
  end.

(** A word: not empty, and free of white space. *)
Definition word (w : string) : bool :=
  match w with
  | EmptyString => false
  | String _ _ => none_space w
  end.

(** A run of blanks: not empty, and blanks only. *)
Definition gap (g : string) : bool :=
  match g with
  | EmptyString => false
  | String _ _ => all_blank g
  end.

(** Words with a gap before each but the first. *)
Fixpoint sentence (w : string) (more : list (string * string)) : string :=
  match more with
  | [] => w
  | (g, w') :: rest => w ++ g ++ sentence w' rest
  end.

Fixpoint spaced (w : string) (more : list (string * string)) : string :=
  match more with
  | [] => w
  | (_, w') :: rest => w ++ String " " (spaced w' rest)
  end.

(** A node that [parseWords] passes over: short, and white space only. *)
Definition passed_over (n : TextNode) : bool :=
  (node_length n <? 10) && JS.trim_is_empty (textContent n).

Definition node_words (n : TextNode) : Z :=
  if passed_over n then 0 else Words.countWords (textContent n).

(** The words of the nodes from the start node on; [found] tells that the
    start node is behind. *)
Fixpoint words_from (found : bool) (startNode : option TextNode)
    (nodes : list TextNode) : Z :=
  match nodes with
  | [] => 0
  | n :: rest =>
      if negb found && negb (Words.same_node n startNode)
      then words_from false startNode rest
      else node_words n + words_from true startNode rest
  end.

(** The words that a section adds to the count. *)
Definition section_words (startCfi : option Words.start_cfi)
    (s : Words.section) : Z :=
  match startCfi with
  | Some c =>
      if Words.index s =? Words.spinePos c
      then words_from false (Words.findNode c (body (Words.item s)))
             (Core.sprint (body (Words.item s)))
      else words_from true None (Core.sprint (body (Words.item s)))
  | None => words_from true None (Core.sprint (body (Words.item s)))
  end.

Fixpoint sum (l : list Z) : Z :=
  match l with
  | [] => 0
  | x :: rest => x + sum rest
  end.

Definition within (b : Z) (e : Words.word_location) : Prop :=
  0 <= Words.wordCount e <= b.

Tactic Notation "word_fields" :=
  cbn [Words.counter Words.locations Words.foundStartNode
       Words._locationsWords Words._wordCounter].
Tactic Notation "word_fields" "in" hyp(H) :=
  cbn [Words.counter Words.locations Words.foundStartNode
       Words._locationsWords Words._wordCounter] in H.

(** A CFI engine for the examples, and a spine of two linear sections. *)
Definition show_node (n : TextNode) (base : string) : string :=
  (base ++ "!" ++ textContent n)%string.

Definition sample_word_spine : list Words.section :=
  [ {| Words.index := 0;
       Words.item :=
         {| linear := true; cfiBase := "/6/2"; body := sample_body |} |};
    {| Words.index := 1;
       Words.item :=
         {| linear := true; cfiBase := "/6/4";
            body :=
              Element
                [ Text {| node_id := 7;
                          textContent := "one two three  four five" |};
                  Text {| node_id := 8; textContent := "            " |} ]
         |} |} ].

(** Two linear sections of five and four words. *)
Definition two_chapters : list Words.section :=
  [ {| Words.index := 0;
       Words.item :=
         {| linear := true; cfiBase := "/6/2";
            body := Text {| node_id := 1; textContent := "a b c d e" |} |} |};
    {| Words.index := 1;
       Words.item :=
         {| linear := true; cfiBase := "/6/4";
            body := Text {| node_id := 2; textContent := "f g h i" |} |} |} ].

(** ** Notions for the queries of [Locations] *)

(** A stored string as [locationFromCfi] searches for it: a CFI string
    goes through [new EpubCFI]. *)
Definition as_item {E : CfiEngine} (s : string) : Cfi :=
  if isCfiString (cfiString s) then newEpubCFI (cfiString s)
  else cfiString s.

(** The entries of an index are in order for the comparator: an entry
    sorts before the ones after it, and not before itself or the ones
    before it. *)
Definition in_order {E : CfiEngine} (entries : list string) : Prop :=
  forall (before after : list string) (s : string),
    entries = before ++ s :: after ->
    (forall a, In a before -> compare (cfiString a) (as_item s) < 0)
    /\ (forall a, In a (s :: after) -> 0 <= compare (cfiString a) (as_item s)).

(** A section with a text node that [parse] does not skip. *)
Definition has_text (s : Section) : bool :=
  existsb nonblank (Core.sprint (body s)).

(** ** JavaScript text primitives of the page list *)

Module JSString.

(** [s.indexOf(needle)]: the first position at which [needle] starts, or
    -1. *)
Fixpoint indexOf_from (s needle : string) (i : Z) : Z :=
  if String.prefix needle s then i
  else
    match s with
    | EmptyString => -1
    | String _ rest => indexOf_from rest needle (i + 1)
    end.

Definition indexOf (s needle : string) : Z := indexOf_from s needle 0.

(** [s.split(sep)] for a separator of one code unit: the pieces between
    the separators, one piece more than there are separators. *)
Fixpoint split (s : string) (sep : ascii) : list string :=
  match s with
  | EmptyString => [EmptyString]
  | String c rest =>
      if Ascii.eqb c sep then EmptyString :: split rest sep
      else
        match split rest sep with
        | piece :: pieces => String c piece :: pieces
        | [] => [String c EmptyString]
        end
  end.

(** The value of a code unit as a digit: [0-9], then [a-z] or [A-Z] from
    10 on. *)
Definition digit_value (c : ascii) : option Z :=
  let n := nat_of_ascii c in
  if ((48 <=? n) && (n <=? 57))%nat then Some (Z.of_nat n - 48)
  else if ((97 <=? n) && (n <=? 122))%nat then Some (Z.of_nat n - 87)
  else if ((65 <=? n) && (n <=? 90))%nat then Some (Z.of_nat n - 55)
  else None.

(** The digits of radix [R] at the head of [s], read as a number; [None]
    when there is none. *)
Fixpoint digits (R : Z) (acc : option Z) (s : string) : option Z :=
  match s with
  | EmptyString => acc
  | String c rest =>
      match digit_value c with
      | Some d =>
          if d <? R then
            digits R
              (Some (R * match acc with Some a => a | None => 0 end + d))
              rest
          else acc
      | None => acc
      end
  end.

Fixpoint trim_start (s : string) : string :=
  match s with
  | EmptyString => EmptyString
  | String c rest => if JS.is_space c then trim_start rest else s
  end.

(** [parseInt(s, radix)]; [radix] is [None] when it is left out, and the
    result is [None] for [NaN].  Integers are exact. *)
Definition parseInt (s : string) (radix : option Z) : option Z :=
  let s := trim_start s in
  let '(negative, s) :=
    match s with
    | String "-" rest => (true, rest)
    | String "+" rest => (false, rest)
    | _ => (false, s)
    end in
  let R := match radix with Some r => r | None => 0 end in
  if negb (R =? 0) && ((R <? 2) || (R >? 36)) then None
  else
    let stripPrefix := (R =? 0) || (R =? 16) in
    let R := if R =? 0 then 10 else R in
    let '(R, s) :=
      match s with
      | String "0" (String x rest) =>
          if stripPrefix && (Ascii.eqb x "x" || Ascii.eqb x "X")
          then (16, rest) else (R, s)
      | _ => (R, s)
      end in
    match digits R None s with
    | Some n => Some (if negative then - n else n)
    | None => None
    end.

End JSString.

(** ** src/pagelist.js: reading the page list *)

Module PageListParse.

(** The [a] element of a [li] of the page list: its [href] attribute, if
    it has one, and its text. *)
Record anchor : Type := {
  href_attribute : option string;
  anchor_text : string
}.

(** A [li] element, by what [qs(item, "a")] finds in it. *)
Record li : Type := {
  a : option anchor
}.

(** A [pageTarget] element: the text of the [text] element of its
    [navLabel] and the [src] attribute of its [content] element; each is
    [None] when the element is missing, and [ncxItem] throws. *)
Record pageTarget : Type := {
  navLabel_text : option string;
  content_src : option (option string)
}.

(** What [item] and [ncxItem] return; a field that is left out, [false]
    or [null] is [None], a [page] that is [NaN] is [None]. *)
Record entry : Type := {
  cfi : option string;
  href : option string;
  packageUrl : option string;
  page : option Z
}.

(** [x || ""] *)
Definition or_empty (x : option string) : string :=
  match x with
  | Some s => s
  | None => EmptyString
  end.

(** [item(item)]; it throws on a [li] without an anchor. *)
Definition item (element : li) : outcome entry :=
  match a element with
  | None => TypeError
  | Some content =>
      let href := or_empty (href_attribute content) in
      let text := anchor_text content in
      let page := JSString.parseInt text None in
      let isCfi := JSString.indexOf href "epubcfi" in
      if negb (isCfi =? -1) then
        let split := JSString.split href "#" in
        Ok {| cfi := if JS.length split >? 1 then JS.index split 1
                     else None;
              href := Some href;
              packageUrl := JS.index split 0;
              page := page |}
      else
        Ok {| cfi := None; href := Some href; packageUrl := None;
              page := page |}
  end.

(** [ncxItem(item)]; what is thrown is rendered as [TypeError]. *)
Definition ncxItem (element : pageTarget) : outcome entry :=
  match navLabel_text element, content_src element with
  | Some pageText, Some src =>
      Ok {| cfi := None; href := src; packageUrl := None;
            page := JSString.parseInt pageText (Some 10) |}
  | _, _ => TypeError
  end.

(** The loops of [parseNav] and [parseNcx]. *)
Fixpoint each {A : Type} (f : A -> outcome entry) (elements : list A)
    : outcome (list entry) :=
  match elements with
  | [] => Ok []
  | element :: rest =>
      e <- f element ;;
      entries <- each f rest ;;
      Ok (e :: entries)
  end.

(** The document handed to the constructor, by what the selectors of
    [parse] find: an [html] document with the [li] elements of its
    page-list [nav] (none without such a [nav]), an [ncx] document with
    the [pageTarget] elements of its [pageList] (none without one), or
    another document. *)
Inductive document : Type :=
| Html (navItems : list li)
| Ncx (pageTargets : list pageTarget)
| Other.

(** [parse(xml)]; [None] is [undefined]. *)
Definition parse (xml : document) : outcome (option (list entry)) :=
  match xml with
  | Html navItems =>
      entries <- each item navItems ;; Ok (Some entries)
  | Ncx pageTargets =>
      entries <- each ncxItem pageTargets ;; Ok (Some entries)
  | Other => Ok None
  end.

(** An entry as [process] reads it; there is none for an entry whose page
    is [NaN]. *)
Definition as_item (e : entry) : option PageList.item :=
  match page e with
  | Some p =>
      Some {| PageList.cfi := cfi e;
              PageList.href := or_empty (href e);
              PageList.page := p |}
  | None => None
  end.

Fixpoint as_items (entries : list entry) : option (list PageList.item) :=
  match entries with
  | [] => Some []
  | e :: rest =>
      match as_item e, as_items rest with
      | Some i, Some items => Some (i :: items)
      | _, _ => None
      end
  end.

(** [new PageList(xml)]; the inner [None] stands for a page list with a
    page that is [NaN], which [PageList.t] does not hold. *)
Definition constructor (xml : option document) : outcome (option PageList.t) :=
  match xml with
  | None => Ok (Some PageList.empty)
  | Some xml =>
      pageList <- parse xml ;;
      match pageList with
      | None => Ok (Some PageList.empty)
      | Some entries =>
          match as_items entries with
          | Some items => Ok (Some (PageList.constructor items))
          | None => Ok None
          end
      end
  end.

End PageListParse.

(** ** src/pagelist.js: the other queries *)

Module PageListQueries.

(** [pages.indexOf(pg)] *)
Fixpoint indexOf_from (array : list Z) (x : Z) (i : Z) : Z :=
  match array with
  | [] => -1
  | y :: rest => if y =? x then i else indexOf_from rest x (i + 1)
  end.

Definition indexOf (array : list Z) (x : Z) : Z := indexOf_from array x 0.

(** The argument of [cfiFromPage]: a number, or a string. *)
Inductive page_argument : Type :=
| PageNumber (n : Z)
| PageText (s : string).

(** [cfiFromPage(pg)]; [None] is [undefined]. *)
Definition cfiFromPage (self : PageList.t) (pg : page_argument)
    : option Locations.cfi_or_number :=
  let pg :=
    match pg with
    | PageNumber n => Some n
    | PageText s => JSString.parseInt s None
    end in
  let index :=
    match pg with
    | Some n => indexOf (PageList.pages self) n
    | None => -1
    end in
  if negb (index =? -1) then
    match JS.index (PageList.locations self) index with
    | Some s => Some (Locations.CfiText s)
    | None => None
    end
  else Some (Locations.Number (-1)).

(** [percentageFromCfi(cfi)] *)
Definition percentageFromCfi {E : CfiEngine} (self : PageList.t)
    (cfi : Cfi) : option Q :=
  match PageList.pageFromCfi self cfi with
  | Some pg => PageList.percentageFromPage self pg
  | None => None
  end.

End PageListQueries.

(** ** Notions for the page list *)

Fixpoint no_hash (s : string) : bool :=
  match s with
  | EmptyString => true
  | String c rest => negb (Ascii.eqb c "#") && no_hash rest
  end.

(** A row of a page-list [nav]: a [li] whose anchor points at [url#frag]
    and is labelled [text]; [number] is the page that the label stands
    for. *)
Record nav_row : Type := {
  row_url : string;
  row_frag : string;
  row_text : string;
  row_number : Z
}.

Definition row_href (r : nav_row) : string :=
  (row_url r ++ String "#" (row_frag r))%string.

Definition row_li (r : nav_row) : PageListParse.li :=
  {| PageListParse.a :=
       Some {| PageListParse.href_attribute := Some (row_href r);
               PageListParse.anchor_text := row_text r |} |}.

(** The row links to a CFI: "epubcfi" occurs in its address, whose only
    "#" is the one before the fragment, the fragment is not empty, and
    the label reads as the number. *)
Definition cfi_row (r : nav_row) : Prop :=
  no_hash (row_url r) = true
  /\ no_hash (row_frag r) = true
  /\ row_frag r <> EmptyString
  /\ JSString.indexOf (row_href r) "epubcfi" <> -1
  /\ JSString.parseInt (row_text r) None = Some (row_number r).

(** A [pageTarget] of an NCX page list, with the page that its label
    stands for. *)
Record ncx_row : Type := {
  target_text : string;
  target_src : option string;
  target_number : Z
}.

Definition row_target (r : ncx_row) : PageListParse.pageTarget :=
  {| PageListParse.navLabel_text := Some (target_text r);
     PageListParse.content_src := Some (target_src r) |}.

Definition numbered (r : ncx_row) : Prop :=
  JSString.parseInt (target_text r) (Some 10) = Some (target_number r).

Definition sample_nav : list nav_row :=
  [ {| row_url := "package.opf"; row_frag := cfi_A;
       row_text := "1"; row_number := 1 |};
    {| row_url := "package.opf"; row_frag := cfi_B;
       row_text := " 2"; row_number := 2 |} ].

Definition sample_ncx : list ncx_row :=
  [ {| target_text := "1"; target_src := Some "a.xhtml#p1"%string;
       target_number := 1 |};
    {| target_text := "7"; target_src := Some "b.xhtml#p7"%string;
       target_number := 7 |} ].

(** ** src/spine.js *)

Module Spine.

(** A [Section] object as the spine handles it: its identity as an
    object, the fields [index], [href] and [idref], and what the index
    generators read, with [linear] among it. *)
Record section : Type := {
  section_id : nat;
  index : Z;
  href : string;
  idref : string;
  item : Section
}.

(** [section.index = index] *)
Definition with_index (s : section) (i : Z) : section :=
  {| section_id := section_id s; index := i; href := href s;
     idref := idref s; item := item s |}.

(** The objects [spineByHref] and [spineById]: string keys with the
    position they were last given.  An assignment to the key [__proto__]
    leaves no property behind, and the properties that every object
    inherits hold no number: both read as a missing key here, which
    [get] answers with [null] as it answers them. *)
Definition dict : Type := list (string * Z).

Fixpoint lookup (d : dict) (key : string) : option Z :=
  match d with
  | [] => None
  | (k, v) :: rest => if String.eqb k key then Some v else lookup rest key
  end.

Definition assign (d : dict) (key : string) (v : Z) : dict :=
  if String.eqb key "__proto__" then d else (key, v) :: d.

Definition delete (d : dict) (key : string) : dict :=
  filter (fun p => negb (String.eqb (fst p) key)) d.

Record t : Type := {
  spineItems : list section;
  spineByHref : dict;
  spineById : dict
}.

Definition constructor : t :=
  {| spineItems := []; spineByHref := []; spineById := [] |}.

(** What [get] is asked for: nothing, a number, or a string. *)
Inductive target : Type :=
| Undefined
| Number (n : Z)
| Text (s : string).

Section Methods.
Context {E : CfiEngine}.
(** [new EpubCFI(target).spinePos], [None] when it is no number *)
Variable spinePos : string -> option Z.
(** [isNaN] of a string *)
Variable isNaN : string -> bool.
(** [encodeURI], and [decodeURI], which throws on a malformed escape *)
Variable encodeURI : string -> string.
Variable decodeURI : string -> option string.

(** [append(section)]: the position given and the spine after it; [None]
    when [decodeURI] throws. *)
Definition append (self : t) (s : section) : option (Z * t) :=
  let index := JS.length (spineItems self) in
  let s := with_index s index in
  match decodeURI (href s) with
  | None => None
  | Some decoded =>
      let byHref := assign (spineByHref self) decoded index in
      let byHref := assign byHref (encodeURI (href s)) index in
      let byHref := assign byHref (href s) index in
      Some (index,
            {| spineItems := spineItems self ++ [s];
               spineByHref := byHref;
               spineById := assign (spineById self) (idref s) index |})
  end.

(** The appends of [unpack], one section after the other. *)
Fixpoint append_all (self : t) (sections : list section) : option t :=
  match sections with
  | [] => Some self
  | s :: rest =>
      match append self s with
      | Some (_, self') => append_all self' rest
      | None => None
      end
  end.

(** [prepend(section)]: the section is not put into [spineItems]. *)
Definition prepend (self : t) (s : section) : Z * t :=
  (0,
   {| spineItems :=
        (fix reindex (items : list section) (i : Z) : list section :=
           match items with
           | [] => []
           | x :: rest => with_index x i :: reindex rest (i + 1)
           end) (spineItems self) 0;
      spineByHref := assign (spineByHref self) (href s) 0;
      spineById := assign (spineById self) (idref s) 0 |}).

(** [spineItems.indexOf(section)]: sections are told apart as objects. *)
Fixpoint indexOf_from (items : list section) (s : section) (i : Z) : Z :=
  match items with
  | [] => -1
  | x :: rest =>
      if (section_id x =? section_id s)%nat then i
      else indexOf_from rest s (i + 1)
  end.

(** [spineItems.splice(index, 1)], for an index of the list: what is
    left. *)
Definition splice_one (items : list section) (i : Z) : list section :=
  firstn (Z.to_nat i) items ++ skipn (S (Z.to_nat i)) items.

(** [remove(section)]: the spine after it. *)
Definition remove (self : t) (s : section) : t :=
  let index := indexOf_from (spineItems self) s 0 in
  if index >? -1 then
    {| spineItems := splice_one (spineItems self) index;
       spineByHref := delete (spineByHref self) (href s);
       spineById := delete (spineById self) (idref s) |}
  else self.

(** The loop of [get] for a target that is left out: the first position
    with a linear section, or the length. *)
Fixpoint first_linear (fuel : nat) (items : list section) (i : Z) : Z :=
  if i <? JS.length items then
    match fuel with
    | O => i
    | S fuel' =>
        match JS.index items i with
        | Some next =>
            if linear (item next) then i
            else first_linear fuel' items (i + 1)
        | None => first_linear fuel' items (i + 1)
        end
    end
  else i.

(** The number that a string names as a key of an array: the string is
    the decimal numeral of the number. *)
Definition array_index (s : string) : option Z :=
  match NilZero.uint_of_string s with
  | Some u =>
      if String.eqb (NilZero.string_of_uint (Decimal.unorm u)) s
      then Some (Z.of_uint u) else None
  | None => None
  end.

(** [x || y] on positions that may be missing. *)
Definition or_else (x y : option Z) : option Z :=
  match x with
  | Some n => if JS.truthy n then x else y
  | None => y
  end.

(** [get(target)]; [None] is [null]. *)
Definition get (self : t) (tg : target) : option section :=
  let index : option Z :=
    match tg with
    | Undefined =>
        Some (first_linear (List.length (spineItems self))
                (spineItems self) 0)
    | Number n => Some n
    | Text s =>
        if isCfiString (cfiString s) then spinePos s
        else if negb (isNaN s) then array_index s
        else if JSString.indexOf s "#" =? 0 then
          lookup (spineById self)
            (String.substring 1 (String.length s - 1) s)
        else
          let s := match JSString.split s "#" with
                   | piece :: _ => piece
                   | [] => s
                   end in
          or_else (lookup (spineByHref self) s)
            (lookup (spineByHref self) (encodeURI s))
    end in
  match index with
  | Some i => JS.index (spineItems self) i
  | None => None
  end.

(** [first()]: the loop, from position [i] on; [None] is [undefined]. *)
Fixpoint first_from (fuel : nat) (self : t) (i : Z) : option section :=
  let continue :=
    if i + 1 <? JS.length (spineItems self) then
      match fuel with
      | O => None
      | S fuel' => first_from fuel' self (i + 1)
      end
    else None in
  match get self (Number i) with
  | Some next => if linear (item next) then Some next else continue
  | None => continue
  end.

Definition first (self : t) : option section :=
  first_from (List.length (spineItems self)) self 0.

(** [last()]: the loop, from position [i] down. *)
Fixpoint last_from (fuel : nat) (self : t) (i : Z) : option section :=
  let continue :=
    if i - 1 >=? 0 then
      match fuel with
      | O => None
      | S fuel' => last_from fuel' self (i - 1)
      end
    else None in
  match get self (Number i) with
  | Some prev => if linear (item prev) then Some prev else continue
  | None => continue
  end.

Definition last (self : t) : option section :=
  last_from (List.length (spineItems self)) self
    (JS.length (spineItems self) - 1).

(** [each(callback)] hands the sections to the callback in the order of
    [spineItems]: what [Locations.generate] goes through. *)
Definition each (self : t) : list Section :=
  map item (spineItems self).

End Methods.

End Spine.

(** ** Notions for the spine *)

(** The sections as [append] leaves them, each with its position as
    [index], from position [i] on. *)
Fixpoint reindexed (sections : list Spine.section) (i : Z)
    : list Spine.section :=
  match sections with
  | [] => []
  | s :: rest => Spine.with_index s i :: reindexed rest (i + 1)
  end.

Definition is_linear (s : Spine.section) : bool := linear (Spine.item s).

(** The keys under which [append] files the address of a section. *)
Definition href_keys (encodeURI : string -> string)
    (decodeURI : string -> option string) (s : Spine.section)
    : list string :=
  match decodeURI (Spine.href s) with
  | Some decoded => [decoded; encodeURI (Spine.href s); Spine.href s]
  | None => [encodeURI (Spine.href s); Spine.href s]
  end.

Definition sample_sections : list Spine.section :=
  [ {| Spine.section_id := 1; Spine.index := 0; Spine.href := "cover.xhtml";
       Spine.idref := "cover";
       Spine.item :=
         {| linear := false; cfiBase := "/6/2"; body := sample_body |} |};
    {| Spine.section_id := 2; Spine.index := 0; Spine.href := "one.xhtml";
       Spine.idref := "one";
       Spine.item :=
         {| linear := true; cfiBase := "/6/4"; body := sample_body |} |};
    {| Spine.section_id := 3; Spine.index := 0; Spine.href := "two.xhtml";
       Spine.idref := "two";
       Spine.item :=
         {| linear := true; cfiBase := "/6/6"; body := sample_body |} |} ].

(** The platform functions of the examples: no string is a number, and
    addresses need no escapes. *)
Definition never_a_number (s : string) : bool := true.
Definition no_position (s : string) : option Z := None.
Definition plain (s : string) : string := s.
Definition plain_decoded (s : string) : option string := Some s.

(** ** rendition.js: [located] *)

Module Rendition.

(** An entry of the list that the view manager reports: a displayed
    section with the CFIs of what is visible of it and its pages. *)
Record mapping : Type := {
  start : string;
  end_ : string
}.

Record position : Type := {
  index : Z;
  href : string;
  range : mapping;
  pages : list Z;
  totalPages : Z
}.

Record displayed : Type := {
  page : Z;
  total : Z
}.

(** One end of the result.  [locationFromCfi] always answers with a
    number, so [location] and [percentage] are always set; [book_page] is
    [None] when the field is left out or set to [undefined]. *)
Record edge : Type := {
  edge_index : Z;
  edge_href : string;
  cfi : string;
  edge_displayed : displayed;
  location : Z;
  percentage : Q;
  book_page : option Z
}.

(** The result; [atStart] and [atEnd] are [false] when they are left
    out. *)
Record t : Type := {
  located_start : edge;
  located_end : edge;
  atStart : bool;
  atEnd : bool
}.

Section Located.
Context {E : CfiEngine}.
Variable spinePos : string -> option Z.
Variable isNaN : string -> bool.
Variable encodeURI : string -> string.

(** [if (page != -1) located.x.page = page] *)
Definition known_page (pg : option Z) : option Z :=
  match pg with
  | Some p => if negb (p =? -1) then Some p else None
  | None => None
  end.

(** [located(location)] on a book with the given indices and spine; the
    page list of a book is [undefined] until its navigation is loaded.
    [Ok None] is the empty object. *)
Definition located (locations : Locations.t) (pageList : option PageList.t)
    (spine : Spine.t) (location : list position) : outcome (option t) :=
  match location with
  | [] => Ok None
  | first :: _ =>
      let last := List.last location first in
      let start_displayed :=
        {| page := JS.or_default (JS.index (pages first) 0) 1;
           total := totalPages first |} in
      let end_displayed :=
        {| page :=
             JS.or_default
               (JS.index (pages last) (JS.length (pages last) - 1)) 1;
           total := totalPages last |} in
      let locationStart :=
        Locations.locationFromCfi locations (cfiString (start (range first))) in
      let locationEnd :=
        Locations.locationFromCfi locations (cfiString (end_ (range last))) in
      match pageList with
      | None => TypeError
      | Some pageList =>
          let pageStart :=
            PageList.pageFromCfi pageList (cfiString (start (range first))) in
          let pageEnd :=
            PageList.pageFromCfi pageList (cfiString (end_ (range last))) in
          match Spine.last spinePos isNaN encodeURI spine with
          | None => TypeError
          | Some last_section =>
              match Spine.first spinePos isNaN encodeURI spine with
              | None => TypeError
              | Some first_section =>
                  Ok (Some
                    {| located_start :=
                         {| edge_index := index first;
                            edge_href := href first;
                            cfi := start (range first);
                            edge_displayed := start_displayed;
                            location := locationStart;
                            percentage :=
                              Locations.percentageFromLocation locations
                                locationStart;
                            book_page := known_page pageStart |};
                       located_end :=
                         {| edge_index := index last;
                            edge_href := href last;
                            cfi := end_ (range last);
                            edge_displayed := end_displayed;
                            location := locationEnd;
                            percentage :=
                              Locations.percentageFromLocation locations
                                locationEnd;
                            book_page := known_page pageEnd |};
                       atStart :=
                         (index first =? Spine.index first_section)
                         && (page start_displayed =? 1);
                       atEnd :=
                         (index last =? Spine.index last_section)
                         && (page end_displayed >=? total end_displayed) |})
              end
          end
      end
  end.

End Located.

End Rendition.

(** A displayed section for the examples. *)
Definition sample_position : Rendition.position :=
  {| Rendition.index := 1; Rendition.href := "one.xhtml";
     Rendition.range :=
       {| Rendition.start := cfi_A; Rendition.end_ := cfi_between |};
     Rendition.pages := [1; 2]; Rendition.totalPages := 2 |}.

(** ** src/navigation.js *)

Module Navigation.

(** An entry of the table of contents; an [id] or [href] that is left
    out, [false] or [null] is [None]. *)
#[warnings="-register-all"]
Inductive item : Type :=
| Item (id href : option string) (label : string) (subitems : list item)
       (parent : option string).

Definition id (it : item) : option string :=
  match it with Item i _ _ _ _ => i end.
Definition href (it : item) : option string :=
  match it with Item _ h _ _ _ => h end.
Definition subitems (it : item) : list item :=
  match it with Item _ _ _ s _ => s end.

Record t : Type := {
  toc : list item;
  tocByHref : Spine.dict;
  tocById : Spine.dict;
  length : Z
}.

(** [if (key) dict[key] = i] *)
Definition assign_if (d : Spine.dict) (key : option string) (i : Z)
    : Spine.dict :=
  match key with
  | Some k => if JS.truthy_string k then Spine.assign d k i else d
  | None => d
  end.

(** The [for] loop of [unpack] over a list, from position [i] on, with
    [turn] for one turn of it. *)
Definition each_from (turn : t -> Z -> item -> t)
    : t -> list item -> Z -> t :=
  fix loop (self : t) (items : list item) (i : Z) : t :=
    match items with
    | [] => self
    | it :: rest => loop (turn self i it) rest (i + 1)
    end.

(** One turn of the loop of [unpack], with the call for the subitems. *)
Fixpoint unpack_item (self : t) (i : Z) (it : item) {struct it} : t :=
  match it with
  | Item id href _ subitems _ =>
      let self :=
        {| toc := toc self;
           tocByHref := assign_if (tocByHref self) href i;
           tocById := assign_if (tocById self) id i;
           length := length self + 1 |} in
      each_from unpack_item self subitems 0
  end.

(** [unpack(toc)] *)
Definition unpack (self : t) (items : list item) : t :=
  each_from unpack_item self items 0.

(** The constructor and [parse], from the list that the parsers or [load]
    give. *)
Definition constructor (items : list item) : t :=
  unpack {| toc := items; tocByHref := []; tocById := []; length := 0 |}
    items.

(** [target === item.id || target === item.href] *)
Definition is_target (target : string) (it : item) : bool :=
  match id it with
  | Some i => String.eqb target i
  | None => false
  end
  || match href it with
     | Some h => String.eqb target h
     | None => false
     end.

(** The [for] loop of [getByIndex]: the first result that is an item. *)
Definition first_result (search : item -> option item)
    : list item -> option item :=
  fix loop (items : list item) : option item :=
    match items with
    | [] => None
    | it :: rest =>
        match search it with
        | Some result => Some result
        | None => loop rest
        end
    end.

(** The body of [getByIndex], with [search] for the call on the subitems
    of an item. *)
Definition getByIndex_body (search : item -> option item)
    (target : string) (index : option Z) (navItems : list item)
    : option item :=
  if JS.length navItems =? 0 then None
  else
    let item :=
      match index with
      | Some i => JS.index navItems i
      | None => None
      end in
    match item with
    | Some it =>
        if is_target target it then Some it
        else first_result search navItems
    | None => first_result search navItems
    end.

(** [getByIndex(target, index, item.subitems)] *)
Fixpoint in_subitems (target : string) (index : option Z) (it : item)
    {struct it} : option item :=
  match it with
  | Item _ _ _ subitems _ =>
      getByIndex_body (in_subitems target index) target index subitems
  end.

(** [getByIndex(target, index, navItems)]; [None] is [undefined], as
    [index] is when no position is known. *)
Definition getByIndex (target : string) (index : option Z)
    (navItems : list item) : option item :=
  getByIndex_body (in_subitems target index) target index navItems.

(** What [get] answers with: the whole table for an empty target, or
    what [getByIndex] finds. *)
Inductive answer : Type :=
| Toc (items : list item)
| Found (it : option item).

(** [get(target)] *)
Definition get (self : t) (target : string) : answer :=
  if negb (JS.truthy_string target) then Toc (toc self)
  else
    let index :=
      if JSString.indexOf target "#" =? 0 then
        Spine.lookup (tocById self)
          (String.substring 1 (String.length target - 1) target)
      else Spine.lookup (tocByHref self) target in
    Found (getByIndex target index (toc self)).

End Navigation.

(** ** Notions for the table of contents *)

(** The entries of a table and of the tables below it, in the order in
    which [unpack] meets them. *)
Fixpoint entries_of (it : Navigation.item) : list Navigation.item :=
  match it with
  | Navigation.Item _ _ _ subitems _ =>
      it :: (fix all (items : list Navigation.item) :=
               match items with
               | [] => []
               | x :: rest => entries_of x ++ all rest
               end) subitems
  end.

Fixpoint entries (items : list Navigation.item) : list Navigation.item :=
  match items with
  | [] => []
  | it :: rest => entries_of it ++ entries rest
  end.

Definition sample_toc : list Navigation.item :=
  [ Navigation.Item (Some "c1") (Some "one.xhtml") "One"
      [ Navigation.Item (Some "c1s1") (Some "one.xhtml#s1") "One, one" []
          (Some "c1");
        Navigation.Item (Some "c1s2") (Some "one.xhtml#s2") "One, two" []
          (Some "c1") ]
      None;
    Navigation.Item (Some "c2") (Some "two.xhtml") "Two" [] None ]%string.

(** [x] sits at position [i] of the list, or of a list below it. *)
Inductive placed (i : Z) (x : Navigation.item)
    : list Navigation.item -> Prop :=
| placed_here (items : list Navigation.item) :
    JS.index items i = Some x -> placed i x items
| placed_below (items : list Navigation.item) (above : Navigation.item) :
    In above items -> placed i x (Navigation.subitems above) ->
    placed i x items.

(** A key that [unpack] files: a string that is not empty, and not
    [__proto__]. *)
Definition filed (key : option string) (k : string) : Prop :=
  key = Some k /\ k <> EmptyString /\ k <> "__proto__"%string.

(** Three properties of one turn of [unpack] on an entry, for a key [k]
    of [tocByHref]: a key that is filed stays filed; the address of an
    entry at or below the entry is filed afterwards; and a position that
    is filed afterwards was filed before, or is the position of the entry
    or of an entry below it with that address. *)
Definition keeps (k : string) (it : Navigation.item) : Prop :=
  forall self i,
    Spine.lookup (Navigation.tocByHref self) k <> None ->
    Spine.lookup
      (Navigation.tocByHref (Navigation.unpack_item self i it)) k
    <> None.

Definition files (k : string) (it : Navigation.item) : Prop :=
  forall x,
    In x (entries_of it) -> filed (Navigation.href x) k ->
    forall self i,
      Spine.lookup
        (Navigation.tocByHref (Navigation.unpack_item self i it)) k
      <> None.

Definition origin (k : string) (it : Navigation.item) : Prop :=
  forall self i j,
    Spine.lookup
      (Navigation.tocByHref (Navigation.unpack_item self i it)) k
    = Some j ->
    Spine.lookup (Navigation.tocByHref self) k = Some j
    \/ (j = i /\ Navigation.href it = Some k)
    \/ exists x,
         placed j x (Navigation.subitems it)
         /\ Navigation.href x = Some k.

(* ================================================================== *)
(** * Part II: properties *)
(* ================================================================== *)

(** ** Arithmetic of [Math.round] and [Math.ceil] *)




(** ** Array access *)

Lemma index_in_range {A : Type} (l : list A) (i : Z) :
  0 <= i < JS.length l -> exists a, JS.index l i = Some a.
Proof.
  intros [H0 H1]. unfold JS.index, JS.length in *.
  destruct (i <? 0) eqn:Hneg; [apply Z.ltb_lt in Hneg; lia|].
  destruct (nth_error l (Z.to_nat i)) eqn:Hn; [eauto|].
  apply nth_error_None in Hn. lia.
Qed.

Lemma index_app_left {A : Type} (l1 l2 : list A) (i : Z) :
  0 <= i < JS.length l1 -> JS.index (l1 ++ l2) i = JS.index l1 i.
Proof.
  intros [H0 H1]. unfold JS.index, JS.length in *.
  destruct (i <? 0); [reflexivity|].
  apply nth_error_app1. lia.
Qed.

Lemma index_app_right {A : Type} (l1 l2 : list A) (i : Z) :
  JS.length l1 <= i ->
  JS.index (l1 ++ l2) i = JS.index l2 (i - JS.length l1).
Proof.
  intros H. unfold JS.index, JS.length in *.
  destruct (i <? 0) eqn:Hneg; [apply Z.ltb_lt in Hneg; lia|].
  destruct (i - Z.of_nat (List.length l1) <? 0) eqn:Hneg';
    [apply Z.ltb_lt in Hneg'; lia|].
  rewrite nth_error_app2 by lia. f_equal. lia.
Qed.

Lemma index_In {A : Type} (l : list A) (i : Z) (a : A) :
  JS.index l i = Some a -> In a l.
Proof.
  unfold JS.index. destruct (i <? 0); [discriminate|].
  apply nth_error_In.
Qed.

Lemma length_app {A : Type} (l1 l2 : list A) :
  JS.length (l1 ++ l2) = JS.length l1 + JS.length l2.
Proof. unfold JS.length. rewrite List.length_app. lia. Qed.

Lemma length_zero_nil {A : Type} (l : list A) :
  (JS.length l =? 0) = true <-> l = [].
Proof.
  unfold JS.length. rewrite Z.eqb_eq. destruct l; simpl; split;
    intros H; try reflexivity; try discriminate; lia.
Qed.

(** ** The insertion point of [locationOf] *)

(** On an array split into the entries that sort before the item and the
    entries that do not, the binary search returns the length of the first
    part. *)
Lemma locationOf_between_split {A : Type} (item : A) (cmp : A -> A -> Z)
    (before after : list A) :
  (forall a, In a before -> cmp a item < 0) ->
  (forall a, In a after -> 0 <= cmp a item) ->
  forall (fuel : nat) (start end_ : Z),
    0 <= start <= JS.length before ->
    JS.length before <= end_ <= JS.length (before ++ after) ->
    (Z.to_nat (end_ - start) <= fuel)%nat ->
    Core.locationOf_between fuel item (before ++ after) cmp start end_
    = JS.length before.
Proof.
  intros Hb Ha fuel.
  induction fuel as [|fuel IH]; intros start end_ Hs He Hf; simpl.
  - destruct (end_ - start <=? 0) eqn:Hd; [apply Z.leb_le in Hd; lia|].
    apply Z.leb_gt in Hd. lia.
  - destruct (end_ - start <=? 0) eqn:Hd; [apply Z.leb_le in Hd; lia|].
    apply Z.leb_gt in Hd.
    set (pivot := start + (end_ - start) / 2).
    assert (Hp : start <= pivot < end_).
    { unfold pivot. split.
      - pose proof (Z.div_pos (end_ - start) 2). lia.
      - pose proof (Z.div_lt_upper_bound (end_ - start) 2 (end_ - start)).
        lia. }
    destruct (Z_lt_le_dec pivot (JS.length before)) as [Hlt | Hge].
    + rewrite index_app_left by lia.
      destruct (index_in_range before pivot) as [a Hi]; [lia|].
      rewrite Hi. pose proof (Hb a (index_In _ _ _ Hi)) as Hc.
      apply Z.ltb_lt in Hc. rewrite Hc. apply IH; lia.
    + rewrite length_app in He. rewrite index_app_right by lia.
      destruct (index_in_range after (pivot - JS.length before)) as [a Hi];
        [lia|].
      rewrite Hi. pose proof (Ha a (index_In _ _ _ Hi)) as Hc.
      apply Z.ltb_ge in Hc. rewrite Hc. apply IH; try lia.
      rewrite length_app. lia.
Qed.

Lemma locationOf_split {A : Type} (item : A) (cmp : A -> A -> Z)
    (before after : list A) :
  (forall a, In a before -> cmp a item < 0) ->
  (forall a, In a after -> 0 <= cmp a item) ->
  Core.locationOf item (before ++ after) cmp = JS.length before.
Proof.
  intros Hb Ha. unfold Core.locationOf.
  apply locationOf_between_split; auto.
  - unfold JS.length. lia.
  - rewrite length_app. unfold JS.length. lia.
  - unfold JS.length. lia.
Qed.

(** ** The nearest preceding entry *)

Lemma last_not_after_later {E : CfiEngine} (item : Cfi)
    (after : list string) :
  (forall s, In s after -> 0 < compare (cfiString s) item) ->
  forall i found, last_not_after item after i found = found.
Proof.
  induction after as [|s rest IH]; intros Ha i found; [reflexivity|].
  cbn [last_not_after].
  assert (Hs : (compare (cfiString s) item <=? 0) = false).
  { apply Z.leb_gt. apply Ha. now left. }
  rewrite Hs. apply IH. intros s' Hin. apply Ha. now right.
Qed.

Lemma last_not_after_split {E : CfiEngine} (item : Cfi)
    (before after : list string) :
  (forall s, In s before -> compare (cfiString s) item < 0) ->
  (forall s, In s after -> 0 < compare (cfiString s) item) ->
  forall i found,
    last_not_after item (before ++ after) i found
    = match before with
      | [] => found
      | _ :: _ => i + JS.length before - 1
      end.
Proof.
  intros Hb Ha. induction before as [|s rest IH]; intros i found.
  - now apply last_not_after_later.
  - cbn [app last_not_after].
    assert (Hs : (compare (cfiString s) item <=? 0) = true).
    { apply Z.leb_le. pose proof (Hb s (or_introl eq_refl)). lia. }
    rewrite Hs, IH by (intros s' Hin; apply Hb; now right).
    destruct rest as [|s' rest']; unfold JS.length; cbn [List.length];
      lia.
Qed.

(** ** Queries of [Locations] *)

Lemma two_locations_loaded :
  Locations.load (Locations.constructor [] None)
    (Locations.Array [cfi_A; cfi_B]) = Some two_locations.
Proof. reflexivity. Qed.

Section LocationsQueries.
Context {E : CfiEngine}.

Lemma locationFromCfi_unfold (self : Locations.t) (cfi : Cfi) :
  Locations._locations self <> [] ->
  Locations.locationFromCfi self cfi =
    let loc :=
      Core.locationOf (if isCfiString cfi then newEpubCFI cfi else cfi)
        (map cfiString (Locations._locations self)) compare in
    if loc >? Locations.total self then Locations.total self else loc.
Proof.
  intros Hne. unfold Locations.locationFromCfi.
  destruct (JS.length (Locations._locations self) =? 0) eqn:Hlen;
    [apply length_zero_nil in Hlen; contradiction | reflexivity].
Qed.

(** C2, as amended.  [locationFromCfi] returns -1 on an empty index;
    otherwise it returns the insertion point that [locationOf] computes
    with the comparator, replaced by [total] when it is greater.  On an
    index whose entries split into those sorting before the CFI and those
    not, with [total] the entry count minus one, that is the number of
    entries sorting before the CFI (at most [total]): the index of the
    located entry, and for a CFI that lies strictly before some entry the
    index one past the nearest preceding one. *)
Theorem locationFromCfi_insertion_point (self : Locations.t) (cfi : Cfi) :
  let item := if isCfiString cfi then newEpubCFI cfi else cfi in
  (Locations._locations self = [] ->
   Locations.locationFromCfi self cfi = -1)
  /\ (Locations._locations self <> [] ->
      Locations.locationFromCfi self cfi =
        let loc :=
          Core.locationOf item
            (map cfiString (Locations._locations self)) compare in
        if loc >? Locations.total self then Locations.total self else loc)
  /\ (forall before after : list string,
        Locations._locations self = before ++ after ->
        Locations._locations self <> [] ->
        Locations.total self = JS.length (Locations._locations self) - 1 ->
        (forall s, In s before -> compare (cfiString s) item < 0) ->
        (forall s, In s after -> 0 <= compare (cfiString s) item) ->
        Locations.locationFromCfi self cfi =
          Z.min (JS.length before) (Locations.total self))
  /\ (forall before after : list string,
        Locations._locations self = before ++ after ->
        after <> [] ->
        Locations.total self = JS.length (Locations._locations self) - 1 ->
        (forall s, In s before -> compare (cfiString s) item < 0) ->
        (forall s, In s after -> 0 < compare (cfiString s) item) ->
        Locations.locationFromCfi self cfi = nearest_preceding self cfi + 1).
Proof.
  intros item.
  assert (Hsplit : forall before after : list string,
    Locations._locations self = before ++ after ->
    Locations._locations self <> [] ->
    Locations.total self = JS.length (Locations._locations self) - 1 ->
    (forall s, In s before -> compare (cfiString s) item < 0) ->
    (forall s, In s after -> 0 <= compare (cfiString s) item) ->
    Locations.locationFromCfi self cfi =
      Z.min (JS.length before) (Locations.total self)).
  2:{ split; [|split; [|split]].
      - intros Hnil. unfold Locations.locationFromCfi. now rewrite Hnil.
      - apply locationFromCfi_unfold.
      - exact Hsplit.
      - intros before after Hlocs Hafter Htotal Hb Ha.
        assert (Hne : Locations._locations self <> []).
        { rewrite Hlocs. destruct before; [exact Hafter | discriminate]. }
        rewrite (Hsplit before after Hlocs Hne Htotal Hb)
          by (intros s Hs; pose proof (Ha s Hs); lia).
        unfold nearest_preceding. fold item.
        rewrite Hlocs, (last_not_after_split item before after Hb Ha).
        rewrite Htotal, Hlocs, length_app.
        assert (0 < JS.length after)
          by (unfold JS.length; destruct after;
              [contradiction | simpl; lia]).
        destruct before; unfold JS.length in *; cbn [List.length] in *;
          lia. }
  - intros before after Hsplit Hne Htotal Hb Ha.
    rewrite locationFromCfi_unfold by assumption. cbv zeta.
    fold item. rewrite Hsplit, map_app.
    rewrite locationOf_split.
    + unfold JS.length. rewrite length_map. fold (JS.length before).
      destruct (JS.length before >? Locations.total self) eqn:Hgt.
      * apply Z.gtb_lt in Hgt. lia.
      * rewrite Z.gtb_ltb in Hgt. apply Z.ltb_ge in Hgt. lia.
    + intros a Hin. apply in_map_iff in Hin as (s & <- & Hs). auto.
    + intros a Hin. apply in_map_iff in Hin as (s & <- & Hs). auto.
Qed.


(** C9.  [load] of an array of [n] entries, and [generate] once it has
    resolved, leave [total] at the entry count minus one;
    [percentageFromLocation] divides by it, so that with two entries or
    more the last one is at percentage 1, and with a single entry, where
    [total] is 0, every location is at percentage 0. *)
Theorem total_is_count_minus_one (self : Locations.t) :
  (forall array : list string,
      exists self',
        Locations.load self (Locations.Array array) = Some self'
        /\ Locations._locations self' = array
        /\ Locations.total self' = JS.length array - 1)
  /\ (forall arg self',
        Locations.load self arg = Some self' ->
        Locations.total self'
        = JS.length (Locations._locations self') - 1)
  /\ (forall chars self',
        Locations.generate self chars = Ok self' ->
        Locations.total self'
        = JS.length (Locations._locations self') - 1)
  /\ (forall loc,
        loc <> 0 -> Locations.total self <> 0 ->
        Locations.percentageFromLocation self loc
        = (inject_Z loc / inject_Z (Locations.total self))%Q)
  /\ (Locations.total self = JS.length (Locations._locations self) - 1 ->
      2 <= JS.length (Locations._locations self) ->
      (Locations.percentageFromLocation self
         (JS.length (Locations._locations self) - 1) == 1)%Q)
  /\ (forall (s : string) self' loc,
        Locations.load self (Locations.Array [s]) = Some self' ->
        Locations.total self' = 0
        /\ Locations.percentageFromLocation self' loc = 0%Q).
Proof.
  split; [|split; [|split; [|split; [|split]]]].
  - intros array. eexists. split; [reflexivity|]. split; reflexivity.
  - intros arg self'. unfold Locations.load.
    destruct arg as [text | array].
    + destruct (JSON.parse text); [|discriminate].
      intros [= <-]. reflexivity.
    + intros [= <-]. reflexivity.
  - intros chars self'. unfold Locations.generate.
    destruct (Locations.run _ _) as [done | |]; simpl;
      try discriminate.
    intros [= <-].
    destruct (JS.truthy_string (Locations._currentCfi done));
      [|reflexivity].
    unfold Locations.setCurrent. simpl.
    destruct (JS.length (Locations._locations done) =? 0); reflexivity.
  - intros loc Hloc Htot. unfold Locations.percentageFromLocation, JS.truthy.
    apply Z.eqb_neq in Hloc, Htot. now rewrite Hloc, Htot.
  - intros Htot Hlen. unfold Locations.percentageFromLocation, JS.truthy.
    rewrite Htot.
    destruct (JS.length (Locations._locations self) - 1 =? 0) eqn:Hz;
      [apply Z.eqb_eq in Hz; lia|]. simpl.
    apply Z.eqb_neq in Hz. apply Qmult_inv_r.
    intros Heq. apply Hz.
    change 0%Q with (inject_Z 0) in Heq.
    now apply (proj1 (inject_Z_injective _ _)) in Heq.
  - intros s self' loc [= <-]. split; [reflexivity|].
    unfold Locations.percentageFromLocation. simpl.
    now rewrite orb_true_r.
Qed.

(** C6, as amended.  On an index without entries [locationFromCfi] and
    [pageFromCfi] return -1, and [percentageFromCfi] returns [null]. *)
Theorem empty_index_results (ls : Locations.t) (pl : PageList.t)
    (cfi : Cfi) :
  (Locations._locations ls = [] ->
   Locations.locationFromCfi ls cfi = -1
   /\ Locations.percentageFromCfi ls cfi = None)
  /\ (PageList.locations pl = [] ->
      PageList.pageFromCfi pl cfi = Some (-1)).
Proof.
  split.
  - intros Hnil.
    unfold Locations.percentageFromCfi, Locations.locationFromCfi.
    now rewrite Hnil.
  - intros Hnil. unfold PageList.pageFromCfi. now rewrite Hnil.
Qed.

End LocationsQueries.

(** ** [PageList] *)

Lemma push_all_pages (pageList : list PageList.item) :
  forall pgs locs,
    fst (PageList.push_all pageList pgs locs)
    = pgs ++ map PageList.page pageList.
Proof.
  induction pageList as [|i rest IH]; intros pgs locs; simpl.
  - now rewrite app_nil_r.
  - rewrite IH, <- app_assoc. reflexivity.
Qed.

Lemma push_all_locations (pageList : list PageList.item) :
  Forall (fun i => PageList.has_cfi i = true) pageList ->
  forall pgs locs,
    map Some (snd (PageList.push_all pageList pgs locs))
    = map Some locs ++ map PageList.cfi pageList.
Proof.
  induction 1 as [|i rest Hi _ IH]; intros pgs locs; simpl.
  - now rewrite app_nil_r.
  - rewrite IH. unfold PageList.has_cfi in Hi.
    destruct (PageList.cfi i) as [s|]; [|discriminate].
    rewrite Hi, map_app, <- app_assoc. reflexivity.
Qed.






Section PageQueries.
Context {E : CfiEngine}.


End PageQueries.

(** ** The walk of [parse] *)

(** Reduce the projections of the walk's variables, and nothing else. *)
Ltac fields :=
  cbn [Locations.counter Locations.locations Locations.prev Locations.range
       startContainer Locations.start_range Locations.end_range].
Tactic Notation "fields" "in" "*" :=
  cbn [Locations.counter Locations.locations Locations.prev Locations.range
       startContainer Locations.start_range Locations.end_range Z.eqb] in *.

Section Walk.
Context {E : CfiEngine}.
Variables (b : Z) (base : string) (node : TextNode) (len : Z).
Hypothesis Hb : 0 < b.

Lemma loop_body_emits (pos : Z) (w : Locations.walk) (r : Range) :
  Locations.range w = Some r ->
  let pos1 := if Locations.counter w =? 0 then pos + 1 else pos in
  let r1 := if Locations.counter w =? 0
            then Locations.start_range node (pos + 1) else r in
  (pos1 + (b - Locations.counter w) < len ->
   Locations.loop_body b base node len pos w
   = Ok (pos1 + (b - Locations.counter w),
         {| Locations.locations :=
              Locations.locations w
              ++ [cfiFromRange
                    (Locations.end_range r1 node
                       (pos1 + (b - Locations.counter w))) base];
            Locations.range :=
              Some (Locations.end_range r1 node
                      (pos1 + (b - Locations.counter w)));
            Locations.counter := 0;
            Locations.prev := Locations.prev w |}))
  /\ (len <= pos1 + (b - Locations.counter w) ->
      Locations.loop_body b base node len pos w
      = Ok (len,
            {| Locations.locations := Locations.locations w;
               Locations.range := Some r1;
               Locations.counter := Locations.counter w + (len - pos1);
               Locations.prev := Locations.prev w |})).
Proof.
  intros Hr pos1 r1. unfold Locations.loop_body.
  subst pos1 r1.
  destruct (Locations.counter w =? 0) eqn:Hc; simpl; split; intros H.
  - destruct (_ >=? len) eqn:Hge.
    { rewrite Z.geb_leb in Hge. apply Z.leb_le in Hge. lia. }
    reflexivity.
  - destruct (_ >=? len) eqn:Hge; [reflexivity|].
    rewrite Z.geb_leb in Hge. apply Z.leb_gt in Hge. lia.
  - destruct (_ >=? len) eqn:Hge.
    { rewrite Z.geb_leb in Hge. apply Z.leb_le in Hge. lia. }
    rewrite Hr. reflexivity.
  - destruct (_ >=? len) eqn:Hge.
    + rewrite Hr. reflexivity.
    + rewrite Z.geb_leb in Hge. apply Z.leb_gt in Hge. lia.
Qed.

Lemma while_loop_spec (fuel : nat) :
  forall (pos : Z) (w : Locations.walk),
    0 <= pos <= len ->
    0 <= Locations.counter w <= b ->
    ranged w ->
    2 * (len - pos) + (if Locations.counter w =? 0 then 0 else 1)
      <= Z.of_nat fuel ->
    exists w' new,
      Locations.while_loop fuel b base node len pos w = Ok w'
      /\ Locations.locations w' = Locations.locations w ++ new
      /\ Locations.prev w' = Locations.prev w
      /\ 0 <= Locations.counter w' <= b
      /\ ranged w'
      /\ b * JS.length new + Locations.counter w'
         <= Locations.counter w + (len - pos)
      /\ Locations.counter w + (len - pos)
         <= (b + 1) * JS.length new + Locations.counter w'
            + (if Locations.counter w =? 0 then 1 else 0).
Proof.
  assert (Hdone : forall fuel w,
    Locations.while_loop fuel b base node len len w = Ok w).
  { intros f w. destruct f; simpl; now rewrite Z.ltb_irrefl. }
  assert (Hnone : forall w : Locations.walk,
    0 <= Locations.counter w <= b -> ranged w ->
    exists w' new,
      Ok w = Ok w'
      /\ Locations.locations w' = Locations.locations w ++ new
      /\ Locations.prev w' = Locations.prev w
      /\ 0 <= Locations.counter w' <= b
      /\ ranged w'
      /\ b * JS.length new + Locations.counter w'
         <= Locations.counter w + (len - len)
      /\ Locations.counter w + (len - len)
         <= (b + 1) * JS.length new + Locations.counter w'
            + (if Locations.counter w =? 0 then 1 else 0)).
  { intros w Hc Hr. exists w, []. rewrite app_nil_r.
    unfold JS.length. simpl.
    repeat split; try lia; try assumption.
    destruct (Locations.counter w =? 0); lia. }
  induction fuel as [|fuel IH]; intros pos w Hpos Hc Hr Hfuel.
  - assert (pos = len) by (destruct (Locations.counter w =? 0); lia).
    subst pos. rewrite Hdone. now apply Hnone.
  - destruct (Z.eq_dec pos len) as [-> | Hne]; [rewrite Hdone; now apply Hnone|].
    cbn [Locations.while_loop]. destruct (pos <? len) eqn:Hlt; [|apply Z.ltb_ge in Hlt; lia].
    apply Z.ltb_lt in Hlt.
    destruct Hr as (r & n & Hr & Hn).
    pose proof (loop_body_emits pos w r Hr) as Hbody. cbv zeta in Hbody.
    rewrite Nat2Z.inj_succ in Hfuel.
    destruct (Locations.counter w =? 0) eqn:Hz;
      [apply Z.eqb_eq in Hz | apply Z.eqb_neq in Hz];
      destruct Hbody as [Hemit Hstay].
    + (* the counter is 0: a character is passed over, a range starts *)
      destruct (Z_lt_le_dec (pos + 1 + (b - Locations.counter w)) len)
        as [Hin | Hout].
      * rewrite (Hemit Hin). cbn [bind].
        match goal with
        | |- context [Locations.while_loop fuel b base node len ?p ?w1] =>
            destruct (IH p w1) as
              (w' & new & Hrun & Hlocs & Hprev & Hc' & Hr' & Hlow & Hhigh)
        end; [lia | cbn [Locations.counter]; lia | eexists _, _; simpl; split; reflexivity | cbn [Locations.counter Z.eqb]; lia |].
        rewrite Hrun. fields in *. eexists w', (_ :: new).
        rewrite Hlocs, <- app_assoc. cbn [app].
        unfold JS.length in *. simpl List.length.
        rewrite Nat2Z.inj_succ.
        repeat split; try assumption; try lia; try nia.
      * rewrite (Hstay Hout). cbn [bind]. rewrite Hdone.
        eexists _, []. rewrite app_nil_r. unfold JS.length.
        fields. cbn [List.length Z.of_nat].
        repeat split; fields; try lia.
        eexists _, _. fields. split; reflexivity.
    + destruct (Z_lt_le_dec (pos + (b - Locations.counter w)) len)
        as [Hin | Hout].
      * rewrite (Hemit Hin). cbn [bind].
        match goal with
        | |- context [Locations.while_loop fuel b base node len ?p ?w1] =>
            destruct (IH p w1) as
              (w' & new & Hrun & Hlocs & Hprev & Hc' & Hr' & Hlow & Hhigh)
        end; [lia | cbn [Locations.counter]; lia | eexists _, _; simpl; split; [reflexivity | exact Hn] | cbn [Locations.counter Z.eqb]; lia |].
        rewrite Hrun. fields in *. eexists w', (_ :: new).
        rewrite Hlocs, <- app_assoc. cbn [app].
        unfold JS.length in *. simpl List.length.
        rewrite Nat2Z.inj_succ.
        repeat split; try assumption; try lia; try nia.
      * rewrite (Hstay Hout). cbn [bind]. rewrite Hdone.
        eexists _, []. rewrite app_nil_r. unfold JS.length.
        fields. cbn [List.length Z.of_nat].
        repeat split; fields; try lia.
        eexists _, _. fields. split; [reflexivity | exact Hn].
Qed.
End Walk.

Section Documents.
Context {E : CfiEngine}.
Variables (b : Z) (base : string).
Hypothesis Hb : 0 < b.

Lemma parser_blank (node : TextNode) (w : Locations.walk) :
  nonblank node = false -> Locations.parser b base node w = Ok w.
Proof.
  unfold nonblank, Locations.parser. intros H.
  apply negb_false_iff in H. now rewrite H.
Qed.

Lemma parser_small (node : TextNode) (w : Locations.walk) :
  nonblank node = true ->
  node_length node < b - Locations.counter w ->
  Locations.parser b base node w
  = Ok {| Locations.locations := Locations.locations w;
          Locations.range :=
            if Locations.counter w =? 0
            then Some (Locations.start_range node 0)
            else Locations.range w;
          Locations.counter := Locations.counter w + node_length node;
          Locations.prev := Some node |}.
Proof.
  unfold nonblank, Locations.parser. intros H Hlen.
  apply negb_true_iff in H. rewrite H.
  destruct (Locations.counter w =? 0) eqn:Hz; fields.
  - destruct (_ >? node_length node) eqn:Hgt;
      [|rewrite Z.gtb_ltb in Hgt; apply Z.ltb_ge in Hgt; lia].
    cbn [Locations.while_loop]. rewrite Z.ltb_irrefl. reflexivity.
  - destruct (_ >? node_length node) eqn:Hgt;
      [|rewrite Z.gtb_ltb in Hgt; apply Z.ltb_ge in Hgt; lia].
    cbn [Locations.while_loop]. rewrite Z.ltb_irrefl. reflexivity.
Qed.

Lemma parser_spec (node : TextNode) (w : Locations.walk) :
  nonblank node = true ->
  steady b w ->
  exists w' new,
    Locations.parser b base node w = Ok w'
    /\ Locations.locations w' = Locations.locations w ++ new
    /\ Locations.prev w' = Some node
    /\ 0 <= Locations.counter w' <= b
    /\ ranged w'
    /\ b * JS.length new + Locations.counter w'
       <= Locations.counter w + node_length node
    /\ Locations.counter w + node_length node
       <= (b + 1) * JS.length new + Locations.counter w' + 1.
Proof.
  intros Hnb [Hc Hr].
  assert (Hlen : 0 <= node_length node) by (unfold node_length; lia).
  destruct (Z_lt_le_dec (node_length node) (b - Locations.counter w))
    as [Hsmall | Hbig].
  - rewrite parser_small by assumption.
    eexists _, []. rewrite app_nil_r. unfold JS.length.
    cbn [List.length Z.of_nat].
    repeat split; fields; try reflexivity; try lia.
    destruct (Locations.counter w =? 0) eqn:Hz.
    + eexists _, _. fields. split; reflexivity.
    + apply Z.eqb_neq in Hz. destruct (Hr Hz) as (r & n & H1 & H2).
      exists r, n. fields. now split.
  - unfold Locations.parser. unfold nonblank in Hnb.
    apply negb_true_iff in Hnb. rewrite Hnb.
    set (w1 := if Locations.counter w =? 0 then _ else w).
    assert (Hw1 : Locations.counter w1 = Locations.counter w
                  /\ Locations.locations w1 = Locations.locations w
                  /\ ranged w1).
    { unfold w1. destruct (Locations.counter w =? 0) eqn:Hz; fields.
      - repeat split. eexists _, _. fields. split; reflexivity.
      - apply Z.eqb_neq in Hz. auto. }
    destruct Hw1 as (Hc1 & Hl1 & Hr1). clearbody w1.
    rewrite Hc1.
    destruct (_ >? node_length node) eqn:Hgt;
      [apply Z.gtb_lt in Hgt; lia|].
    destruct (while_loop_spec b base node (node_length node) Hb
                (S (2 * String.length (textContent node))) 0 w1)
      as (w' & new & Hrun & Hlocs & Hprev & Hc' & Hr' & Hlow & Hhigh).
    { unfold node_length. lia. }
    { lia. }
    { exact Hr1. }
    { unfold node_length. destruct (_ =? 0); lia. }
    rewrite Hrun. cbn [bind].
    eexists _, new. split; [reflexivity|]. fields.
    rewrite Hlocs, Hl1.
    repeat split; try lia.
    + destruct Hr' as (r & n & H1 & H2). exists r, n. fields. now split.
    + rewrite Hc1 in Hhigh. destruct (Locations.counter w =? 0); lia.
Qed.

(** The walk over the text nodes of a document. *)
Lemma each_node_spec (nodes : list TextNode) :
  forall w : Locations.walk,
    steady b w ->
    exists w' new,
      Locations.each_node b base nodes w = Ok w'
      /\ Locations.locations w' = Locations.locations w ++ new
      /\ steady b w'
      /\ (filter nonblank nodes = [] -> w' = w)
      /\ (filter nonblank nodes <> [] ->
          ranged w' /\ exists p, Locations.prev w' = Some p)
      /\ b * JS.length new + Locations.counter w'
         <= Locations.counter w + characters nodes
      /\ Locations.counter w + characters nodes
         <= (b + 1) * JS.length new + Locations.counter w'
            + JS.length (filter nonblank nodes).
Proof.
  induction nodes as [|node rest IH]; intros w Hw.
  - exists w, []. rewrite app_nil_r. unfold JS.length. simpl.
    repeat split; try apply Hw; try lia; try congruence.
  - cbn [Locations.each_node characters filter].
    destruct (nonblank node) eqn:Hnb.
    + destruct (parser_spec node w Hnb Hw)
        as (w1 & new1 & Hrun1 & Hlocs1 & Hprev1 & Hc1 & Hr1 & Hlow1 & Hhigh1).
      rewrite Hrun1. cbn [bind].
      destruct (IH w1) as
        (w' & new & Hrun & Hlocs & Hst & Hnil & Hcons & Hlow & Hhigh).
      { split; [exact Hc1 | intros _; exact Hr1]. }
      rewrite Hrun. exists w', (new1 ++ new).
      rewrite Hlocs, Hlocs1, <- app_assoc.
      unfold JS.length in *. rewrite List.length_app.
      cbn [List.length]. rewrite Nat2Z.inj_add, Nat2Z.inj_succ.
      split; [reflexivity|]. split; [reflexivity|].
      split; [exact Hst|]. split; [discriminate|].
      split; [|split; [nia | nia]].
      intros _. destruct (filter nonblank rest) eqn:Hf.
      * rewrite (Hnil eq_refl). split; [exact Hr1 | eauto].
      * apply Hcons. discriminate.
    + rewrite parser_blank by assumption. cbn [bind].
      destruct (IH w Hw) as
        (w' & new & Hrun & Hlocs & Hst & Hnil & Hcons & Hlow & Hhigh).
      rewrite Hrun. exists w', new.
      split; [reflexivity|]. split; [exact Hlocs|].
      split; [exact Hst|]. split; [exact Hnil|].
      split; [exact Hcons|]. split; lia.
Qed.

Lemma each_node_nonblank (nodes : list TextNode) :
  forall w : Locations.walk,
    Locations.each_node b base nodes w
    = Locations.each_node b base (filter nonblank nodes) w.
Proof.
  induction nodes as [|node rest IH]; intros w; [reflexivity|].
  cbn [Locations.each_node filter].
  destruct (nonblank node) eqn:Hnb.
  - cbn [Locations.each_node].
    destruct (Locations.parser b base node w); cbn [bind]; auto.
  - rewrite parser_blank by assumption. cbn [bind]. apply IH.
Qed.

Lemma each_node_app (nodes1 nodes2 : list TextNode) :
  forall w : Locations.walk,
    Locations.each_node b base (nodes1 ++ nodes2) w
    = bind (Locations.each_node b base nodes1 w)
           (Locations.each_node b base nodes2).
Proof.
  induction nodes1 as [|node rest IH]; intros w; [reflexivity|].
  cbn [Locations.each_node app].
  destruct (Locations.parser b base node w); cbn [bind]; auto.
Qed.

End Documents.

Section Generation.
Context {E : CfiEngine}.

Lemma steady_initial (b : Z) : 0 < b -> steady b Locations.initial.
Proof.
  intros Hb. split; simpl; [lia | intros H; now contradiction H].
Qed.

Lemma parse_by_break (self self0 : Locations.t) (contents : Node)
    (base : string) (chars : option Z) :
  Locations.break self0 = Locations.break self ->
  Locations.parse self0 contents base chars
  = Locations.parse self contents base chars.
Proof. unfold Locations.parse. now intros ->. Qed.

Lemma parse_spec (self : Locations.t) (contents : Node) (base : string)
    (chars : option Z) :
  let b := JS.or_default chars (Locations.break self) in
  0 < b ->
  exists w,
    Locations.each_node b base (Core.sprint contents) Locations.initial
    = Ok w
    /\ Locations.parse self contents base chars
       = Ok (Locations.close_remaining base w)
    /\ 0 <= Locations.counter w <= b
    /\ b * JS.length (Locations.locations w) + Locations.counter w
       <= characters (Core.sprint contents)
    /\ characters (Core.sprint contents)
       <= (b + 1) * JS.length (Locations.locations w)
          + Locations.counter w
          + JS.length (filter nonblank (Core.sprint contents))
    /\ (filter nonblank (Core.sprint contents) = [] ->
        Locations.close_remaining base w = [])
    /\ (filter nonblank (Core.sprint contents) <> [] ->
        JS.length (Locations.close_remaining base w)
        = JS.length (Locations.locations w) + 1).
Proof.
  intros b Hb.
  destruct (each_node_spec b base Hb (Core.sprint contents)
              Locations.initial (steady_initial b Hb))
    as (w & new & Hrun & Hlocs & Hst & Hnil & Hcons & Hlow & Hhigh).
  exists w. unfold Locations.parse. fold b. rewrite Hrun. cbn [bind].
  simpl in Hlocs, Hlow, Hhigh. rewrite Hlocs.
  split; [reflexivity|]. split; [reflexivity|]. split; [apply Hst|].
  split; [lia|]. split; [lia|]. split.
  - intros Hn. rewrite (Hnil Hn). reflexivity.
  - intros Hn. destruct (Hcons Hn) as ((r & n & Hr & Hs) & p & Hp).
    unfold Locations.close_remaining. rewrite Hr, Hp, Hs, Hlocs.
    rewrite length_app. reflexivity.
Qed.

Lemma run_spec (queue : list Section) :
  forall self : Locations.t,
    0 < Locations.break self ->
    exists self' lists,
      Locations.run queue self = Ok self'
      /\ Forall2
           (fun section locations =>
              forall self0,
                Locations.break self0 = Locations.break self ->
                Locations.parse self0 (body section) (cfiBase section)
                  None = Ok locations)
           queue lists
      /\ Locations._locations self'
         = Locations._locations self ++ List.concat lists
      /\ Locations.break self' = Locations.break self
      /\ Locations.spine self' = Locations.spine self
      /\ Locations._currentCfi self' = Locations._currentCfi self.
Proof.
  induction queue as [|section rest IH]; intros self Hb.
  - exists self, []. simpl. rewrite app_nil_r. repeat split. constructor.
  - cbn [Locations.run]. unfold Locations.process.
    destruct (parse_spec self (body section) (cfiBase section) None Hb)
      as (w & _ & Hparse & _).
    rewrite Hparse. cbn [bind].
    match goal with
    | |- context [Locations.run rest ?s] =>
        destruct (IH s Hb) as
          (self' & lists & Hrun & Hall & Hlocs & Hbreak & Hspine & Hcur)
    end.
    rewrite Hrun.
    exists self', (Locations.close_remaining (cfiBase section) w :: lists).
    split; [reflexivity|]. split.
    + constructor; [|exact Hall].
      intros self0 H0. now rewrite (parse_by_break self self0).
    + simpl in *. rewrite Hlocs, <- app_assoc. auto.
Qed.

Lemma generate_break (self : Locations.t) (chars : option Z) :
  Locations.generate self chars
  = bind (Locations.run (Locations.enqueue_linear (Locations.spine self))
            (with_break self
               (JS.or_default chars (Locations.break self))))
      (fun self =>
         let self :=
           {| Locations.spine := Locations.spine self;
              Locations.pause := Locations.pause self;
              Locations._locations := Locations._locations self;
              Locations.total :=
                JS.length (Locations._locations self) - 1;
              Locations.break := Locations.break self;
              Locations._current := Locations._current self;
              Locations._currentCfi := Locations._currentCfi self |} in
         Ok (if JS.truthy_string (Locations._currentCfi self)
             then Locations.setCurrent self (Locations._currentCfi self)
             else self)).
Proof.
  unfold Locations.generate, JS.or_default, with_break.
  destruct chars as [c|]; [destruct (JS.truthy c)|];
    destruct self; reflexivity.
Qed.

End Generation.

(** ** [generate] *)

Lemma Forall2_with_left {A B : Type} (P : A -> Prop) (R : A -> B -> Prop)
    (l : list A) (l' : list B) :
  Forall P l -> Forall2 R l l' ->
  Forall2 (fun a b => P a /\ R a b) l l'.
Proof.
  intros HP HR. induction HR as [|a b l l' Hab _ IH]; constructor.
  - split; [now inversion HP | exact Hab].
  - apply IH. now inversion HP.
Qed.

Section Chunks.
Context {E : CfiEngine}.

(** C1.  With a positive chunk size [b] (the argument of [generate], or
    the stored [break], 150 on a new object): [generate] resolves, and
    the locations it records are those of the linear sections, in spine
    order, each section parsed on its own.  The parse of a document starts
    with the counter at 0, carries it from text node to text node, and
    ends with it within [0, b]; every boundary recorded during the walk
    stands for [b] counted characters, so that between [b] and [b + 1]
    characters per boundary have gone by, up to one per text node.  A text
    node whose trimmed content is empty leaves every variable as it was.
    A node shorter than what the counter lacks adds its length to the
    counter; in the loop a boundary is recorded exactly when the counter
    reaches [b] inside the node, and the counter restarts at 0. *)
Theorem generate_chunks (self : Locations.t) (chars : option Z) :
  let b := JS.or_default chars (Locations.break self) in
  0 < b ->
  (forall spine pause,
      JS.or_default None
        (Locations.break (Locations.constructor spine pause)) = 150)
  /\ (exists self' lists,
        Locations.generate self chars = Ok self'
        /\ Locations.break self' = b
        /\ Forall2
             (fun section locations =>
                linear section = true
                /\ Locations.parse self' (body section) (cfiBase section)
                     None = Ok locations)
             (filter linear (Locations.spine self)) lists
        /\ Locations._locations self'
           = Locations._locations self ++ List.concat lists)
  /\ (forall contents base,
        exists w,
          Locations.each_node b base (Core.sprint contents)
            Locations.initial = Ok w
          /\ Locations.counter Locations.initial = 0
          /\ Locations.parse (with_break self b) contents base None
             = Ok (Locations.close_remaining base w)
          /\ 0 <= Locations.counter w <= b
          /\ b * JS.length (Locations.locations w) + Locations.counter w
             <= characters (Core.sprint contents)
          /\ characters (Core.sprint contents)
             <= (b + 1) * JS.length (Locations.locations w)
                + Locations.counter w
                + JS.length (filter nonblank (Core.sprint contents))
          /\ (filter nonblank (Core.sprint contents) = [] ->
              Locations.close_remaining base w = [])
          /\ (filter nonblank (Core.sprint contents) <> [] ->
              JS.length (Locations.close_remaining base w)
              = JS.length (Locations.locations w) + 1))
  /\ (forall base node w,
        nonblank node = false ->
        Locations.parser b base node w = Ok w)
  /\ (forall base nodes w,
        Locations.each_node b base nodes w
        = Locations.each_node b base (filter nonblank nodes) w)
  /\ (forall base nodes1 nodes2 w,
        Locations.each_node b base (nodes1 ++ nodes2) w
        = bind (Locations.each_node b base nodes1 w)
            (Locations.each_node b base nodes2))
  /\ (forall base node w,
        nonblank node = true ->
        node_length node < b - Locations.counter w ->
        Locations.parser b base node w
        = Ok {| Locations.locations := Locations.locations w;
                Locations.range :=
                  if Locations.counter w =? 0
                  then Some (Locations.start_range node 0)
                  else Locations.range w;
                Locations.counter :=
                  Locations.counter w + node_length node;
                Locations.prev := Some node |})
  /\ (forall base node len pos w r,
        Locations.range w = Some r ->
        let pos1 := if Locations.counter w =? 0 then pos + 1 else pos in
        let r1 := if Locations.counter w =? 0
                  then Locations.start_range node (pos + 1) else r in
        (Locations.counter w + (len - pos1) > b ->
         exists w',
           Locations.loop_body b base node len pos w
           = Ok (pos1 + (b - Locations.counter w), w')
           /\ Locations.locations w'
              = Locations.locations w
                ++ [cfiFromRange
                      (Locations.end_range r1 node
                         (pos1 + (b - Locations.counter w))) base]
           /\ Locations.counter w' = 0)
        /\ (Locations.counter w + (len - pos1) <= b ->
            exists w',
              Locations.loop_body b base node len pos w = Ok (len, w')
              /\ Locations.locations w' = Locations.locations w
              /\ Locations.counter w'
                 = Locations.counter w + (len - pos1))).
Proof.
  intros b Hb.
  split; [reflexivity|]. split; [|split; [|split; [|split; [|split; [|split]]]]].
  - rewrite generate_break. fold b.
    destruct (run_spec (Locations.enqueue_linear (Locations.spine self))
                (with_break self b) Hb)
      as (done & lists & Hrun & Hall & Hlocs & Hbreak & Hspine & Hcur).
    rewrite Hrun. cbn [bind]. cbv zeta.
    assert (Hkeep : forall s : Locations.t,
      Locations.break
        (if JS.truthy_string (Locations._currentCfi s)
         then Locations.setCurrent s (Locations._currentCfi s) else s)
      = Locations.break s
      /\ Locations._locations
           (if JS.truthy_string (Locations._currentCfi s)
            then Locations.setCurrent s (Locations._currentCfi s) else s)
         = Locations._locations s).
    { intros s. destruct (JS.truthy_string _); [|now split].
      unfold Locations.setCurrent. cbn [Locations._locations].
      destruct (JS.length (Locations._locations s) =? 0); now split. }
    match goal with
    | |- context [if _ then Locations.setCurrent ?s _ else _] =>
        destruct (Hkeep s) as [Hk1 Hk2]
    end.
    eexists _, lists. split; [reflexivity|].
    split; [exact (eq_trans Hk1 Hbreak)|].
    split; [|exact (eq_trans Hk2 Hlocs)].
    apply Forall2_with_left.
    + apply Forall_forall. intros s Hs.
      now apply filter_In in Hs.
    + eapply Forall2_impl; [|exact Hall].
      intros section locations Hparse. cbn beta in Hparse.
      apply Hparse. exact (eq_trans Hk1 Hbreak).
  - intros contents base.
    destruct (parse_spec (with_break self b) contents base None Hb)
      as (w & H1 & H2 & H3 & H4 & H5 & H6 & H7).
    exists w. cbn in H1. repeat split; try assumption; try apply H3.
  - intros base node w. now apply parser_blank.
  - intros base nodes w. apply each_node_nonblank.
  - intros base nodes1 nodes2 w. apply each_node_app.
  - intros base node w. now apply parser_small.
  - intros base node len pos w r Hr pos1 r1.
    destruct (loop_body_emits b base node len pos w r Hr)
      as [Hemit Hstay].
    fold pos1 r1 in Hemit, Hstay. split; intros H.
    + rewrite Hemit by lia. eexists. split; [reflexivity|]. now split.
    + rewrite Hstay by lia. eexists. split; [reflexivity|]. now split.
Qed.

End Chunks.

(** ** [save] and [load] *)

Lemma append_assoc (a b c : string) :
  ((a ++ b) ++ c = a ++ (b ++ c))%string.
Proof. induction a as [|x a IH]; simpl; [reflexivity | now rewrite IH]. Qed.

Lemma append_empty (a : string) : (a ++ EmptyString = a)%string.
Proof. induction a as [|x a IH]; simpl; [reflexivity | now rewrite IH]. Qed.

(** The reader undoes the escape of one code unit. *)
Lemma read_quote_char (c : ascii) (acc : string) (done : list string)
    (rest : string) :
  JSON.read (JSON.InString acc) done (JSON.quote_char c ++ rest)
  = JSON.read (JSON.InString (JSON.snoc acc c)) done rest.
Proof.
  destruct c as [[] [] [] [] [] [] [] []]; reflexivity.
Qed.

Lemma read_quote_body (s : string) :
  forall (acc : string) (done : list string) (rest : string),
    JSON.read (JSON.InString acc) done (JSON.quote_body s ++ rest)
    = JSON.read (JSON.InString (acc ++ s)) done rest.
Proof.
  induction s as [|c s IH]; intros acc done rest; simpl.
  - now rewrite append_empty.
  - rewrite append_assoc, read_quote_char, IH.
    unfold JSON.snoc. rewrite append_assoc. reflexivity.
Qed.

Lemma read_quote (m : JSON.mode) (s : string) (done : list string)
    (rest : string) :
  m = JSON.Open \/ m = JSON.Next ->
  JSON.read m done (JSON.quote s ++ rest)
  = JSON.read JSON.AfterString (done ++ [s]) rest.
Proof.
  intros [-> | ->]; unfold JSON.quote; cbn;
    rewrite append_assoc, read_quote_body; reflexivity.
Qed.

Lemma elements_cons (s s' : string) (rest : list string) :
  JSON.elements (s :: s' :: rest)
  = (JSON.quote s ++ String "," (JSON.elements (s' :: rest)))%string.
Proof. reflexivity. Qed.

Lemma read_comma (done : list string) (rest : string) :
  JSON.read JSON.AfterString done (String "," rest)
  = JSON.read JSON.Next done rest.
Proof. reflexivity. Qed.

Lemma read_elements (l : list string) :
  forall (m : JSON.mode) (done : list string),
    m = JSON.Open \/ m = JSON.Next ->
    l <> [] ->
    JSON.read m done (JSON.elements l ++ String "]" EmptyString)
    = Some (done ++ l).
Proof.
  induction l as [|s rest IH]; intros m done Hm Hne; [contradiction|].
  destruct rest as [|s' rest'].
  - change (JSON.elements [s]) with (JSON.quote s).
    rewrite read_quote by assumption. reflexivity.
  - rewrite elements_cons, append_assoc, read_quote by assumption.
    change (String "," (JSON.elements (s' :: rest')) ++ "]")%string
      with (String "," (JSON.elements (s' :: rest') ++ "]"))%string.
    rewrite read_comma, IH; [|now right | discriminate].
    rewrite <- app_assoc. reflexivity.
Qed.

Lemma parse_stringify (l : list string) :
  JSON.parse (JSON.stringify l) = Some l.
Proof.
  unfold JSON.parse, JSON.stringify.
  destruct l as [|s rest]; [reflexivity|].
  change (JSON.read JSON.Start [] (String "[" ?x)) with (JSON.read JSON.Open [] x).
  rewrite read_elements; auto. discriminate.
Qed.

(** C4, as amended.  [save] emits the JSON array of the CFI strings;
    [load] takes that text or the array itself, and what it builds from
    [save()] has the locations of the original, in the same order, and
    [total] at the entry count minus one.  When the original has its
    [total] there too, as [generate] and [load] leave it, [locationFromCfi]
    and [percentageFromLocation] answer alike on both. *)
Theorem save_load_round_trip {E : CfiEngine} (self target : Locations.t) :
  Locations.save self = JSON.stringify (Locations._locations self)
  /\ exists loaded,
       Locations.load target (Locations.JsonText (Locations.save self))
       = Some loaded
       /\ Locations.load target (Locations.Array (Locations._locations self))
          = Some loaded
       /\ Locations._locations loaded = Locations._locations self
       /\ Locations.total loaded
          = JS.length (Locations._locations self) - 1
       /\ (Locations.total self
           = JS.length (Locations._locations self) - 1 ->
           forall cfi loc,
             Locations.locationFromCfi loaded cfi
             = Locations.locationFromCfi self cfi
             /\ Locations.percentageFromLocation loaded loc
                = Locations.percentageFromLocation self loc).
Proof.
  split; [reflexivity|].
  unfold Locations.load, Locations.save. rewrite parse_stringify.
  eexists. split; [reflexivity|]. split; [reflexivity|].
  split; [reflexivity|]. split; [reflexivity|].
  intros Htotal cfi loc.
  unfold Locations.locationFromCfi, Locations.percentageFromLocation.
  cbn [Locations._locations Locations.total]. rewrite Htotal.
  split; reflexivity.
Qed.

(** ** The properties on concrete indices *)

(** [generate(5)] on the sample spine: the section that is not linear adds
    nothing, the blank node is passed over, and the counter goes from
    ["abc"] into ["defgh"]. *)
Lemma generate_chunks_witness :
  (exists self' lists,
      Locations.generate (E := StringEngine)
        (Locations.constructor sample_spine None) (Some 5) = Ok self'
      /\ Locations.break self' = 5
      /\ Forall2
           (fun section locations =>
              linear section = true
              /\ Locations.parse self' (body section) (cfiBase section) None
                 = Ok locations)
           (filter linear sample_spine) lists
      /\ Locations._locations self' = [] ++ List.concat lists)
  /\ Locations.parser (E := StringEngine) 5 "/6/4"
       {| node_id := 2; textContent := "  " |} Locations.initial
     = Ok Locations.initial
  /\ Locations.parser (E := StringEngine) 5 "/6/4"
       {| node_id := 1; textContent := "abc" |} Locations.initial
     = Ok {| Locations.locations := [];
             Locations.range :=
               Some (Locations.start_range
                       {| node_id := 1; textContent := "abc" |} 0);
             Locations.counter := 3;
             Locations.prev := Some {| node_id := 1; textContent := "abc" |} |}.
Proof.
  assert (H : 0 < JS.or_default (Some 5)
                    (Locations.break (Locations.constructor sample_spine None)))
    by reflexivity.
  destruct (generate_chunks (E := StringEngine)
              (Locations.constructor sample_spine None) (Some 5) H)
    as (_ & Hgen & _ & Hblank & _ & _ & Hsmall & _).
  split; [exact Hgen|]. split.
  - apply (Hblank "/6/4"%string). reflexivity.
  - apply (Hsmall "/6/4"%string); reflexivity.
Defined.

Lemma sample_locations :
  exists self',
    Locations.generate (E := StringEngine)
      (Locations.constructor sample_spine None) (Some 5) = Ok self'
    /\ Locations._locations self'
       = ["/6/4!abc:0,defgh:2"; "/6/4!defgh:3,defgh:5"]%string
    /\ Locations.total self' = 1.
Proof. eexists. split; [reflexivity|]. split; reflexivity. Qed.

(** On [[A; B]] a CFI between the two is located at 1, the position of
    [B]; [B] itself and a CFI past it at 1 as well, [A] at 0. *)
Lemma locationFromCfi_insertion_point_witness :
  Locations.locationFromCfi (E := StringEngine)
    (Locations.constructor [] None) cfi_between = -1
  /\ Locations.locationFromCfi (E := StringEngine) two_locations cfi_between
     = 1
  /\ Locations.locationFromCfi (E := StringEngine) two_locations cfi_between
     = nearest_preceding (E := StringEngine) two_locations cfi_between + 1.
Proof.
  split; [|split].
  - apply (locationFromCfi_insertion_point (E := StringEngine)). reflexivity.
  - destruct (locationFromCfi_insertion_point (E := StringEngine)
                two_locations cfi_between) as (_ & _ & H & _).
    apply (H [cfi_A] [cfi_B]).
    + reflexivity.
    + discriminate.
    + reflexivity.
    + intros s [<- | []]. reflexivity.
    + intros s [<- | []]. discriminate.
  - destruct (locationFromCfi_insertion_point (E := StringEngine)
                two_locations cfi_between) as (_ & _ & _ & H).
    apply (H [cfi_A] [cfi_B]).
    + reflexivity.
    + discriminate.
    + reflexivity.
    + intros s [<- | []]. reflexivity.
    + intros s [<- | []]. reflexivity.
Defined.

(** C2 as stated fails between two entries: the index returned is that of
    the entry after the CFI, not of the nearest preceding one. *)
Lemma locationFromCfi_not_nearest_preceding :
  Locations._locations two_locations <> []
  /\ Locations.locationFromCfi (E := StringEngine) two_locations cfi_between
     = 1
  /\ nearest_preceding (E := StringEngine) two_locations cfi_between = 0
  /\ Locations.locationFromCfi (E := StringEngine) two_locations cfi_between
     <> nearest_preceding (E := StringEngine) two_locations cfi_between.
Proof.
  split; [discriminate|]. split; [reflexivity|]. split; [reflexivity|].
  discriminate.
Qed.



Lemma save_load_round_trip_witness :
  exists loaded,
    Locations.load (Locations.constructor [] None)
      (Locations.JsonText (Locations.save two_locations)) = Some loaded
    /\ Locations.locationFromCfi (E := StringEngine) loaded cfi_between
       = Locations.locationFromCfi (E := StringEngine) two_locations
           cfi_between
    /\ Locations.percentageFromLocation loaded 1
       = Locations.percentageFromLocation two_locations 1.
Proof.
  destruct (save_load_round_trip (E := StringEngine) two_locations
              (Locations.constructor [] None))
    as (_ & loaded & Hload & _ & _ & _ & Hsame).
  exists loaded. split; [exact Hload|].
  apply Hsame. reflexivity.
Defined.

(** C4 as stated fails on a new index: [total] is 0 before and -1 after,
    and [percentageFromLocation(3)] goes from 0 to -3. *)
Lemma reload_changes_percentage :
  exists loaded,
    Locations.load (Locations.constructor [] None)
      (Locations.JsonText (Locations.save (Locations.constructor [] None)))
    = Some loaded
    /\ Locations._locations loaded
       = Locations._locations (Locations.constructor [] None)
    /\ (Locations.percentageFromLocation (Locations.constructor [] None) 3
        == 0)%Q
    /\ (Locations.percentageFromLocation loaded 3 == -3)%Q
    /\ ~ (Locations.percentageFromLocation loaded 3
          == Locations.percentageFromLocation
               (Locations.constructor [] None) 3)%Q.
Proof.
  eexists. split; [reflexivity|]. split; [reflexivity|].
  split; [reflexivity|]. split; [reflexivity|].
  intros H. vm_compute in H. discriminate H.
Qed.


Lemma empty_index_results_witness :
  Locations.locationFromCfi (E := StringEngine)
    (Locations.constructor [] None) cfi_A = -1
  /\ Locations.percentageFromCfi (E := StringEngine)
       (Locations.constructor [] None) cfi_A = None
  /\ PageList.pageFromCfi (E := StringEngine) PageList.empty cfi_A
     = Some (-1).
Proof.
  destruct (empty_index_results (E := StringEngine)
              (Locations.constructor [] None) PageList.empty cfi_A)
    as [Hl Hp].
  destruct (Hl eq_refl) as [H1 H2].
  split; [exact H1|]. split; [exact H2 | exact (Hp eq_refl)].
Defined.

(** C6 as stated fails for [percentageFromCfi]: on an index without
    entries it returns [null], not -1. *)
Lemma percentageFromCfi_empty_is_null :
  Locations._locations (Locations.constructor [] None) = []
  /\ Locations.percentageFromCfi (E := StringEngine)
       (Locations.constructor [] None) cfi_A = None
  /\ Locations.percentageFromCfi (E := StringEngine)
       (Locations.constructor [] None) cfi_A <> Some (-1)%Q.
Proof.
  split; [reflexivity|]. split; [reflexivity | discriminate].
Qed.


Lemma total_is_count_minus_one_witness :
  (exists self',
      Locations.load (Locations.constructor [] None)
        (Locations.Array [cfi_A; cfi_B]) = Some self'
      /\ Locations.total self' = 1)
  /\ (Locations.percentageFromLocation two_locations 1 == 1)%Q
  /\ (forall self' loc,
        Locations.load (Locations.constructor [] None)
          (Locations.Array [cfi_A]) = Some self' ->
        Locations.total self' = 0
        /\ Locations.percentageFromLocation self' loc = 0%Q)
  /\ (forall self',
        Locations.generate (E := StringEngine)
          (Locations.constructor sample_spine None) (Some 5) = Ok self' ->
        Locations.total self' = JS.length (Locations._locations self') - 1).
Proof.
  destruct (total_is_count_minus_one (E := StringEngine)
              (Locations.constructor [] None))
    as (Hload & _ & _ & _ & _ & Hone).
  destruct (total_is_count_minus_one (E := StringEngine) two_locations)
    as (_ & _ & _ & _ & Hlast & _).
  destruct (total_is_count_minus_one (E := StringEngine)
              (Locations.constructor sample_spine None))
    as (_ & _ & Hgen & _).
  split; [|split; [|split]].
  - destruct (Hload [cfi_A; cfi_B]) as (self' & H1 & _ & H3).
    exists self'. split; [exact H1 | exact H3].
  - apply Hlast; [reflexivity | discriminate].
  - intros self' loc. apply Hone.
  - intros self'. apply Hgen.
Defined.



(** ** The word index *)

Lemma blank_is_space (c : ascii) : Words.is_blank c = true -> JS.is_space c = true.
Proof.
  unfold Words.is_blank, JS.is_space. intros H. rewrite H.
  now rewrite orb_true_r.
Qed.

Lemma newline_is_space (c : ascii) :
  Words.is_newline c = true -> JS.is_space c = true.
Proof.
  unfold Words.is_newline, JS.is_space. intros H.
  apply Nat.eqb_eq in H. rewrite H. reflexivity.
Qed.

Lemma trim_start_lead (lead rest : string) (c : ascii) :
  JS.all_space lead = true -> JS.is_space c = false ->
  Words.trim_start (lead ++ String c rest) = String c rest.
Proof.
  intros Hl Hc. induction lead as [|a lead IH]; simpl in *.
  - now rewrite Hc.
  - apply andb_true_iff in Hl as [Ha Hl]. rewrite Ha. auto.
Qed.

Lemma trim_end_spaces (t : string) :
  JS.all_space t = true -> Words.trim_end t = EmptyString.
Proof.
  induction t as [|a t IH]; simpl; [reflexivity|].
  intros H. apply andb_true_iff in H as [Ha Ht]. now rewrite IH, Ha.
Qed.

Lemma trim_end_trail (s t : string) :
  JS.all_space t = true -> Words.trim_end (s ++ t) = Words.trim_end s.
Proof.
  intros Ht. induction s as [|a s IH]; simpl.
  - now apply trim_end_spaces.
  - now rewrite IH.
Qed.

Lemma trim_end_kept (s : string) (c : ascii) :
  JS.is_space c = false ->
  Words.trim_end (s ++ String c EmptyString) = (s ++ String c EmptyString)%string.
Proof.
  intros Hc. induction s as [|a s IH]; simpl.
  - now rewrite Hc.
  - rewrite IH. destruct s; reflexivity.
Qed.

(** A sentence starts and ends with a code unit that is no white space. *)
Lemma word_ends (w : string) :
  word w = true ->
  (exists c r, w = String c r /\ JS.is_space c = false)
  /\ (exists r c, w = (r ++ String c EmptyString)%string /\ JS.is_space c = false).
Proof.
  destruct w as [|a w]; [discriminate|]. unfold word. intros H.
  split.
  - simpl in H. apply andb_true_iff in H as [Ha _].
    exists a, w. split; [reflexivity | now apply negb_true_iff].
  - revert a H. induction w as [|b w IH]; intros a H.
    + exists EmptyString, a. simpl in *. split; [reflexivity|].
      apply andb_true_iff in H as [Ha _]. now apply negb_true_iff.
    + simpl in H. apply andb_true_iff in H as [Ha H].
      destruct (IH b H) as (r & c & Hr & Hc).
      exists (String a r), c. simpl. now rewrite Hr.
Qed.

Lemma sentence_ends (more : list (string * string)) :
  forall w,
    word w = true ->
    Forall (fun p => word (snd p) = true) more ->
    (exists c r, sentence w more = String c r /\ JS.is_space c = false)
    /\ (exists r c, sentence w more = (r ++ String c EmptyString)%string
                    /\ JS.is_space c = false).
Proof.
  induction more as [|[g w'] rest IH]; intros w Hw Hall; simpl.
  - now apply word_ends.
  - inversion Hall as [|? ? Hw' Hrest]; subst. simpl in Hw'.
    destruct (IH w' Hw' Hrest) as [_ (r & c & Hr & Hc)].
    destruct (word_ends w Hw) as [(a & q & Ha & Hsa) _].
    split.
    + exists a, (q ++ g ++ sentence w' rest)%string. rewrite Ha. now split.
    + exists (w ++ g ++ r)%string, c. rewrite Hr.
      rewrite !append_assoc. now split.
Qed.

Lemma squeeze_none_blank (w : string) :
  none_blank w = true ->
  forall p rest,
    Words.squeeze p (w ++ rest)
    = (w ++ Words.squeeze
              (match w with EmptyString => p | String _ _ => false end)
              rest)%string.
Proof.
  induction w as [|a w IH]; intros H p rest; [reflexivity|].
  cbn [none_blank] in H. apply andb_true_iff in H as [Ha H].
  apply negb_true_iff in Ha.
  cbn [append Words.squeeze]. rewrite Ha, (IH H). now destruct w.
Qed.

Lemma squeeze_blanks (g : string) :
  all_blank g = true ->
  forall rest, Words.squeeze true (g ++ rest) = Words.squeeze true rest.
Proof.
  induction g as [|a g IH]; intros H rest; simpl in *; [reflexivity|].
  apply andb_true_iff in H as [Ha H]. rewrite Ha. auto.
Qed.

Lemma squeeze_gap (g : string) :
  gap g = true ->
  forall rest,
    Words.squeeze false (g ++ rest) = String " " (Words.squeeze true rest).
Proof.
  destruct g as [|a g]; [discriminate|]. unfold gap. simpl. intros H rest.
  apply andb_true_iff in H as [Ha H]. rewrite Ha.
  rewrite squeeze_blanks by assumption.
  unfold Words.is_blank in Ha. apply Nat.eqb_eq in Ha.
  f_equal. rewrite <- (ascii_nat_embedding a), Ha. reflexivity.
Qed.

Lemma none_space_none_blank (s : string) :
  none_space s = true -> none_blank s = true.
Proof.
  induction s as [|a s IH]; simpl; [reflexivity|]. intros H.
  apply andb_true_iff in H as [Ha H]. rewrite IH by assumption.
  destruct (Words.is_blank a) eqn:Hb; [|reflexivity].
  apply blank_is_space in Hb. now rewrite Hb in Ha.
Qed.

Lemma word_none_space (w : string) : word w = true -> none_space w = true.
Proof. destruct w; [discriminate | auto]. Qed.

Lemma squeeze_word (w : string) :
  word w = true ->
  forall p rest,
    Words.squeeze p (w ++ rest) = (w ++ Words.squeeze false rest)%string.
Proof.
  intros Hw p rest.
  rewrite squeeze_none_blank
    by (apply none_space_none_blank, word_none_space, Hw).
  now destruct w.
Qed.

Lemma squeeze_sentence (more : list (string * string)) :
  forall w p,
    word w = true ->
    Forall (fun q => gap (fst q) = true /\ word (snd q) = true) more ->
    Words.squeeze p (sentence w more) = spaced w more.
Proof.
  induction more as [|[g w'] rest IH]; intros w p Hw Hall; simpl.
  - rewrite <- (append_empty w) at 1. rewrite squeeze_word by assumption.
    simpl. apply append_empty.
  - inversion Hall as [|? ? [Hg Hw'] Hrest]; subst. simpl in Hg, Hw'.
    rewrite squeeze_word, squeeze_gap by assumption.
    now rewrite IH.
Qed.

Lemma drop_without_newline (s : string) :
  (forall c, In c (list_ascii_of_string s) -> Words.is_newline c = false) ->
  Words.drop_blank_after_newline s = s.
Proof.
  induction s as [|a s IH]; intros H; [reflexivity|].
  cbn [Words.drop_blank_after_newline]. destruct s as [|b s]; [reflexivity|].
  rewrite (H a) by (now left). simpl andb. cbv iota.
  f_equal. apply IH. intros c Hc. apply H. now right.
Qed.

Lemma none_space_In (s : string) (c : ascii) :
  none_space s = true -> In c (list_ascii_of_string s) ->
  JS.is_space c = false.
Proof.
  induction s as [|a s IH]; simpl; [contradiction|].
  intros H [<- | Hin]; apply andb_true_iff in H as [Ha H].
  - now apply negb_true_iff.
  - auto.
Qed.

Lemma list_ascii_app (a b : string) :
  list_ascii_of_string (a ++ b) = list_ascii_of_string a ++ list_ascii_of_string b.
Proof. induction a as [|x a IH]; simpl; [reflexivity | now rewrite IH]. Qed.

Lemma spaced_no_newline (more : list (string * string)) :
  forall w,
    word w = true ->
    Forall (fun q => word (snd q) = true) more ->
    forall c, In c (list_ascii_of_string (spaced w more)) ->
              Words.is_newline c = false.
Proof.
  induction more as [|[g w'] rest IH]; intros w Hw Hall c Hc; simpl in Hc.
  - destruct (Words.is_newline c) eqn:Hn; [|reflexivity].
    apply newline_is_space in Hn.
    rewrite (none_space_In w c (word_none_space w Hw) Hc) in Hn. discriminate.
  - inversion Hall as [|? ? Hw' Hrest]; subst. simpl in Hw'.
    rewrite list_ascii_app in Hc. apply in_app_iff in Hc as [Hc | Hc].
    + destruct (Words.is_newline c) eqn:Hn; [|reflexivity].
      apply newline_is_space in Hn.
      rewrite (none_space_In w c (word_none_space w Hw) Hc) in Hn.
      discriminate.
    + simpl in Hc. destruct Hc as [<- | Hc]; [reflexivity|].
      now apply (IH w').
Qed.

Lemma blanks_app (a b : string) :
  Words.blanks (a ++ b) = Words.blanks a + Words.blanks b.
Proof. induction a as [|x a IH]; simpl; [reflexivity | rewrite IH; lia]. Qed.

Lemma blanks_none (s : string) : none_blank s = true -> Words.blanks s = 0.
Proof.
  induction s as [|a s IH]; simpl; [reflexivity|]. intros H.
  apply andb_true_iff in H as [Ha H]. apply negb_true_iff in Ha.
  rewrite Ha, IH by assumption. reflexivity.
Qed.


Lemma blanks_spaced (more : list (string * string)) :
  forall w,
    word w = true ->
    Forall (fun q => word (snd q) = true) more ->
    Words.blanks (spaced w more) = JS.length more.
Proof.
  induction more as [|[g w'] rest IH]; intros w Hw Hall; simpl.
  - apply blanks_none, none_space_none_blank, word_none_space, Hw.
  - inversion Hall as [|? ? Hw' Hrest]; subst. simpl in Hw'.
    rewrite blanks_app, blanks_none
      by (apply none_space_none_blank, word_none_space, Hw).
    cbn [Words.blanks]. change (Words.is_blank " ") with true. cbv iota.
    rewrite (IH w') by assumption. unfold JS.length.
    cbn [List.length]. lia.
Qed.

(** X1.  [countWords] counts the words of a text whose words are kept apart
    by runs of blanks (U+0020): with any white space before the first word
    and after the last one, and one or more blanks in every gap, the
    result is the number of words. *)
Theorem countWords_sentence (lead trail w : string)
    (more : list (string * string)) :
  JS.all_space lead = true ->
  JS.all_space trail = true ->
  word w = true ->
  Forall (fun q => gap (fst q) = true /\ word (snd q) = true) more ->
  Words.countWords (lead ++ sentence w more ++ trail)
  = JS.length more + 1.
Proof.
  intros Hlead Htrail Hw Hall.
  assert (Hall' : Forall (fun q => word (snd q) = true) more).
  { eapply Forall_impl; [|exact Hall]. now intros q [_ H]. }
  destruct (sentence_ends more w Hw Hall')
    as [(c & r & Hs & Hc) (r' & c' & Hs' & Hc')].
  unfold Words.countWords.
  rewrite Hs. change (String c r ++ trail)%string with (String c (r ++ trail)).
  rewrite trim_start_lead by assumption.
  change (String c (r ++ trail)) with (String c r ++ trail)%string.
  rewrite <- Hs, trim_end_trail by assumption.
  rewrite Hs', trim_end_kept, <- Hs' by assumption.
  rewrite squeeze_sentence by assumption.
  rewrite drop_without_newline by (now apply spaced_no_newline).
  now rewrite blanks_spaced.
Qed.

Lemma countWords_sentence_witness :
  Words.countWords ("  " ++ sentence "Hello" [("   ", "World")%string] ++ " ")%string
  = 2.
Proof.
  apply (countWords_sentence "  " " " "Hello" [("   ", "World")%string]);
    try reflexivity.
  constructor; [split; reflexivity | constructor].
Defined.

Lemma trim_start_none_blank (s : string) :
  none_blank s = true -> none_blank (Words.trim_start s) = true.
Proof.
  induction s as [|a s IH]; simpl; [reflexivity|]. intros H.
  destruct (JS.is_space a); [|exact H].
  apply andb_true_iff in H as [_ H]. auto.
Qed.

Lemma trim_end_none_blank (s : string) :
  none_blank s = true -> none_blank (Words.trim_end s) = true.
Proof.
  induction s as [|a s IH]; simpl; [reflexivity|]. intros H.
  apply andb_true_iff in H as [Ha H]. specialize (IH H).
  destruct (Words.trim_end s).
  - destruct (JS.is_space a); simpl; [reflexivity | now rewrite Ha].
  - cbn [none_blank] in *. now rewrite Ha.
Qed.

Lemma drop_none_blank (s : string) :
  none_blank s = true -> Words.drop_blank_after_newline s = s.
Proof.
  induction s as [|a s IH]; intros H; [reflexivity|].
  cbn [Words.drop_blank_after_newline]. destruct s as [|b s]; [reflexivity|].
  cbn [none_blank] in H. apply andb_true_iff in H as [_ H].
  pose proof H as H'. cbn [none_blank] in H'.
  apply andb_true_iff in H' as [Hb _]. apply negb_true_iff in Hb.
  rewrite Hb, andb_false_r. f_equal. now apply IH.
Qed.

Lemma countWords_positive (s : string) : 1 <= Words.countWords s.
Proof.
  unfold Words.countWords.
  assert (H : forall t, 0 <= Words.blanks t).
  { induction t as [|a t IH]; simpl; [lia|].
    destruct (Words.is_blank a); lia. }
  specialize (H (Words.drop_blank_after_newline
                   (Words.squeeze false
                      (Words.trim_end (Words.trim_start s))))).
  lia.
Qed.

(** X2.  [countWords] never returns less than 1, and it splits at blanks
    (U+0020) only: a text without a blank, such as words kept apart by
    tabs or line breaks, counts as one word, and so does a text of white
    space only, the empty text among them. *)
Theorem countWords_one (s : string) :
  1 <= Words.countWords s
  /\ (none_blank s = true \/ JS.all_space s = true ->
      Words.countWords s = 1).
Proof.
  split; [apply countWords_positive|].
  unfold Words.countWords. intros [H | H].
  - assert (Ht : none_blank (Words.trim_end (Words.trim_start s)) = true)
      by (apply trim_end_none_blank, trim_start_none_blank, H).
    set (t := Words.trim_end (Words.trim_start s)) in *.
    rewrite <- (append_empty t) at 1.
    rewrite squeeze_none_blank by assumption. simpl Words.squeeze.
    rewrite append_empty, drop_none_blank, blanks_none by assumption.
    reflexivity.
  - assert (Hs : Words.trim_start s = EmptyString).
    { induction s as [|a s IH]; simpl in *; [reflexivity|].
      apply andb_true_iff in H as [Ha H]. rewrite Ha. auto. }
    rewrite Hs. reflexivity.
Qed.

Lemma countWords_one_witness :
  Words.countWords (String "a" (String (ascii_of_nat 9) "b")) = 1
  /\ Words.countWords "   " = 1.
Proof.
  split.
  - apply (countWords_one (String "a" (String (ascii_of_nat 9) "b"))).
    left. reflexivity.
  - apply (countWords_one "   "). right. reflexivity.
Defined.

Section WordWalk.
Variable cfiFromNode : TextNode -> string -> string.
Variable b : Z.
Hypothesis Hb : 0 < b.

Lemma word_loop_spec (base : string) (node : TextNode) (len : Z)
    (fuel : nat) :
  forall (pos : Z) (w : Words.walk),
    0 <= pos <= len ->
    0 <= Words.counter w <= b ->
    (len - pos) + (if Words.counter w =? b then 1 else 0) + 1
      <= Z.of_nat fuel ->
    exists w' new,
      Words.while_loop cfiFromNode fuel b base node len pos w = Ok w'
      /\ Words.locations w' = Words.locations w ++ new
      /\ Words.foundStartNode w' = Words.foundStartNode w
      /\ 0 <= Words.counter w' <= b
      /\ b * JS.length new + Words.counter w'
         = Words.counter w + (len - pos)
      /\ Forall (within b) new.
Proof.
  induction fuel as [|fuel IH]; intros pos w Hpos Hc Hfuel.
  - destruct (Words.counter w =? b); lia.
  - cbn [Words.while_loop]. destruct (pos <? len) eqn:Hlt.
    2:{ apply Z.ltb_ge in Hlt. exists w, []. rewrite app_nil_r.
        unfold JS.length. cbn [List.length Z.of_nat].
        repeat split; try lia. constructor. }
    apply Z.ltb_lt in Hlt. unfold Words.loop_body.
    destruct (pos + (b - Words.counter w) >=? len) eqn:Hge.
    + rewrite Z.geb_leb in Hge. apply Z.leb_le in Hge.
      destruct fuel; cbn [Words.while_loop]; rewrite Z.ltb_irrefl;
        (eexists _, []; rewrite app_nil_r; unfold JS.length;
         cbn [List.length Z.of_nat];
         repeat split; word_fields; try lia; constructor).
    + rewrite Z.geb_leb in Hge. apply Z.leb_gt in Hge.
      rewrite Nat2Z.inj_succ in Hfuel.
      match goal with
      | |- context [Words.while_loop _ fuel b base node len ?p ?w1] =>
          destruct (IH p w1) as (w' & new & Hrun & Hlocs & Hf & Hc' & Hsum & Hall)
      end.
      * lia.
      * word_fields. lia.
      * word_fields.
        destruct (0 =? b) eqn:H0; [apply Z.eqb_eq in H0; lia|].
        destruct (Words.counter w =? b) eqn:Hcb;
          [apply Z.eqb_eq in Hcb | apply Z.eqb_neq in Hcb]; lia.
      * rewrite Hrun. eexists w', (_ :: new).
        rewrite Hlocs. word_fields. rewrite <- app_assoc. cbn [app].
        split; [reflexivity|]. split; [reflexivity|].
        split; [exact Hf|]. split; [exact Hc'|]. split.
        -- unfold JS.length in *. cbn [List.length].
           rewrite Nat2Z.inj_succ. word_fields in Hsum. lia.
        -- constructor; [|exact Hall]. unfold within. cbn. lia.
Qed.

Lemma word_parser_spec (base : string) (startNode : option TextNode)
    (node : TextNode) (w : Words.walk) :
  0 <= Words.counter w <= b ->
  exists w' new,
    Words.parser cfiFromNode b base startNode node w = Ok w'
    /\ Words.locations w' = Words.locations w ++ new
    /\ Words.foundStartNode w'
       = Words.foundStartNode w || Words.same_node node startNode
    /\ 0 <= Words.counter w' <= b
    /\ b * JS.length new + Words.counter w'
       = Words.counter w
         + (if negb (Words.foundStartNode w)
               && negb (Words.same_node node startNode)
            then 0 else node_words node)
    /\ Forall (within b) new.
Proof.
  intros Hc. unfold Words.parser.
  destruct (negb (Words.foundStartNode w)
            && negb (Words.same_node node startNode)) eqn:Hskip.
  { exists w, []. rewrite app_nil_r. unfold JS.length.
    cbn [List.length Z.of_nat].
    apply andb_true_iff in Hskip as [H1 H2].
    apply negb_true_iff in H1, H2. rewrite H1, H2.
    repeat split; try lia. constructor. }
  assert (Hfound : Words.foundStartNode w || Words.same_node node startNode
                   = true).
  { destruct (Words.foundStartNode w), (Words.same_node node startNode);
      try reflexivity; discriminate. }
  rewrite Hfound. unfold node_words, passed_over.
  destruct ((node_length node <? 10)
            && JS.trim_is_empty (textContent node)) eqn:Hpass.
  { eexists _, []. rewrite app_nil_r. unfold JS.length.
    cbn [List.length Z.of_nat].
    repeat split; word_fields; try lia. constructor. }
  pose proof (countWords_positive (textContent node)) as Hlen.
  set (len := Words.countWords (textContent node)) in *.
  destruct (len =? 0) eqn:Hz; [apply Z.eqb_eq in Hz; lia|].
  word_fields.
  destruct (b - Words.counter w >? len) eqn:Hgt.
  - apply Z.gtb_lt in Hgt.
    destruct (Z.to_nat _); cbn [Words.while_loop]; rewrite Z.ltb_irrefl;
      (eexists _, []; rewrite app_nil_r; unfold JS.length;
       cbn [List.length Z.of_nat];
       repeat split; word_fields; try lia; constructor).
  - rewrite Z.gtb_ltb in Hgt. apply Z.ltb_ge in Hgt.
    match goal with
    | |- context [Words.while_loop _ ?f b base node len 0 ?w1] =>
        destruct (word_loop_spec base node len f 0 w1)
          as (w' & new & Hrun & Hlocs & Hf & Hc' & Hsum & Hall)
    end.
    + lia.
    + word_fields. lia.
    + word_fields. destruct (Words.counter w =? b); lia.
    + rewrite Hrun. exists w', new. word_fields in Hlocs.
      word_fields in Hf. word_fields in Hsum.
      repeat split; try assumption; try lia.
Qed.

Lemma word_each_node_spec (base : string) (startNode : option TextNode)
    (nodes : list TextNode) :
  forall w : Words.walk,
    0 <= Words.counter w <= b ->
    exists w' new,
      Words.each_node cfiFromNode b base startNode nodes w = Ok w'
      /\ Words.locations w' = Words.locations w ++ new
      /\ 0 <= Words.counter w' <= b
      /\ b * JS.length new + Words.counter w'
         = Words.counter w
           + words_from (Words.foundStartNode w) startNode nodes
      /\ Forall (within b) new.
Proof.
  induction nodes as [|node rest IH]; intros w Hc.
  - exists w, []. rewrite app_nil_r. unfold JS.length. simpl.
    repeat split; try lia. constructor.
  - cbn [Words.each_node words_from].
    destruct (word_parser_spec base startNode node w Hc)
      as (w1 & new1 & Hrun1 & Hlocs1 & Hf1 & Hc1 & Hsum1 & Hall1).
    rewrite Hrun1. cbn [bind].
    destruct (IH w1 Hc1) as (w' & new & Hrun & Hlocs & Hc' & Hsum & Hall).
    rewrite Hrun. exists w', (new1 ++ new).
    rewrite Hlocs, Hlocs1, <- app_assoc, length_app.
    split; [reflexivity|]. split; [reflexivity|]. split; [exact Hc'|].
    split; [|now apply Forall_app].
    rewrite Hf1 in Hsum.
    destruct (negb (Words.foundStartNode w)
              && negb (Words.same_node node startNode)) eqn:Hskip.
    + apply andb_true_iff in Hskip as [H1 H2].
      apply negb_true_iff in H1, H2. rewrite H1, H2 in Hsum.
      simpl in Hsum. lia.
    + assert (Hfound : Words.foundStartNode w
                       || Words.same_node node startNode = true).
      { destruct (Words.foundStartNode w),
          (Words.same_node node startNode); try reflexivity; discriminate. }
      rewrite Hfound in Hsum. lia.
Qed.

Lemma parseWords_spec (startCfi : option Words.start_cfi)
    (self : Words.t) (s : Words.section) :
  0 <= Words._wordCounter self <= b ->
  exists new self',
    Words.parseWords cfiFromNode self s b startCfi = Ok (new, self')
    /\ Words._locationsWords self' = Words._locationsWords self
    /\ 0 <= Words._wordCounter self' <= b
    /\ b * JS.length new + Words._wordCounter self'
       = Words._wordCounter self + section_words startCfi s
    /\ Forall (within b) new.
Proof.
  intros Hc. unfold Words.parseWords.
  match goal with
  | |- context [Words.each_node _ b ?base ?sn ?nodes ?w0] =>
      destruct (word_each_node_spec base sn nodes w0 Hc)
        as (w' & new & Hrun & Hlocs & Hc' & Hsum & Hall)
  end.
  rewrite Hrun. cbn [bind]. exists new. eexists.
  word_fields in Hlocs. cbn [app] in Hlocs. rewrite Hlocs.
  split; [reflexivity|]. word_fields.
  split; [reflexivity|]. split; [exact Hc'|]. split; [|exact Hall].
  rewrite Hsum. word_fields. f_equal.
  unfold section_words. destruct startCfi as [c|]; [|reflexivity].
  destruct (Words.index s =? Words.spinePos c); reflexivity.
Qed.

Lemma word_run_spec (startCfi : option Words.start_cfi)
    (queue : list Words.section) :
  forall self : Words.t,
    0 <= Words._wordCounter self <= b ->
    Forall (within b) (Words._locationsWords self) ->
    exists self',
      Words.run cfiFromNode queue b startCfi None self = Ok self'
      /\ 0 <= Words._wordCounter self' <= b
      /\ b * JS.length (Words._locationsWords self')
         + Words._wordCounter self'
         = b * JS.length (Words._locationsWords self)
           + Words._wordCounter self
           + sum (map (section_words startCfi) queue)
      /\ Forall (within b) (Words._locationsWords self').
Proof.
  induction queue as [|s rest IH]; intros self Hc Hall.
  - exists self. simpl. repeat split; try lia. exact Hall.
  - cbn [Words.run map sum]. unfold Words.processWords.
    destruct (parseWords_spec startCfi self s Hc)
      as (new & self1 & Hparse & Hl1 & Hc1 & Hsum1 & Hall1).
    rewrite Hparse. cbn [bind].
    match goal with
    | |- context [Words.run _ rest b startCfi None ?s1] =>
        destruct (IH s1) as (self' & Hrun & Hc' & Hsum & Hall')
    end.
    + word_fields. exact Hc1.
    + word_fields. rewrite Hl1. now apply Forall_app.
    + rewrite Hrun. exists self'. split; [reflexivity|].
      split; [exact Hc'|]. split; [|exact Hall'].
      rewrite Hsum. word_fields. rewrite Hl1, length_app. lia.
Qed.

End WordWalk.

(** X3.  With a positive [wordCount] and no [count], [generateFromWords]
    resolves, and no word is lost or counted twice: [wordCount] words for
    every entry of [_locationsWords], and the words left in
    [_wordCounter], make up the words of the sections that are linear and
    not before the start position, from the start node on in its section,
    a short node of white space counting for nothing.  The counter is
    carried from section to section and ends within [0, wordCount]; the
    [wordCount] field of an entry is the counter as it stood when the
    entry was made, a number within [0, wordCount]. *)
Theorem generateFromWords_accounting
    (cfiFromNode : TextNode -> string -> string)
    (spine : list Words.section) (startCfi : option Words.start_cfi)
    (wordCount : Z) :
  0 < wordCount ->
  exists self,
    Words.generateFromWords cfiFromNode spine startCfi wordCount None
    = Ok self
    /\ 0 <= Words._wordCounter self <= wordCount
    /\ wordCount * JS.length (Words._locationsWords self)
       + Words._wordCounter self
       = sum (map (section_words startCfi)
                (Words.enqueued spine startCfi))
    /\ Forall (within wordCount) (Words._locationsWords self).
Proof.
  intros Hb. unfold Words.generateFromWords.
  destruct (word_run_spec cfiFromNode wordCount Hb startCfi
              (Words.enqueued spine startCfi)
              {| Words._locationsWords := []; Words._wordCounter := 0 |})
    as (self & Hrun & Hc & Hsum & Hall).
  - simpl. lia.
  - constructor.
  - exists self. split; [exact Hrun|]. split; [exact Hc|].
    split; [|exact Hall]. rewrite Hsum. simpl.
    unfold JS.length. simpl. lia.
Qed.

Lemma generateFromWords_accounting_witness :
  exists self,
    Words.generateFromWords show_node sample_word_spine None 2 None
    = Ok self
    /\ 0 <= Words._wordCounter self <= 2
    /\ 2 * JS.length (Words._locationsWords self) + Words._wordCounter self
       = sum (map (section_words None)
                (Words.enqueued sample_word_spine None))
    /\ Forall (within 2) (Words._locationsWords self).
Proof.
  apply (generateFromWords_accounting show_node sample_word_spine None 2).
  lia.
Defined.

Lemma slice_to_length {A : Type} (array : list A) (e : Z) :
  0 <= e <= JS.length array ->
  JS.length (Words.slice_to array e) = e.
Proof.
  intros He. unfold Words.slice_to.
  destruct (e <? 0) eqn:Hneg; [apply Z.ltb_lt in Hneg; lia|].
  unfold JS.length in *. rewrite length_firstn. lia.
Qed.

Lemma word_run_app (cfiFromNode : TextNode -> string -> string)
    (wordCount : Z) (startCfi : option Words.start_cfi) (count : option Z)
    (first second : list Words.section) :
  forall self : Words.t,
    Words.run cfiFromNode (first ++ second) wordCount startCfi count self
    = (self' <- Words.run cfiFromNode first wordCount startCfi count self ;;
       Words.run cfiFromNode second wordCount startCfi count self').
Proof.
  induction first as [|s rest IH]; intros self; [reflexivity|].
  cbn [app Words.run].
  destruct (Words.processWords _ _ _ _ _ _) as [self1 | |];
    [|reflexivity|reflexivity].
  cbn [bind]. apply IH.
Qed.

Lemma enqueued_app (startCfi : option Words.start_cfi)
    (first second : list Words.section) :
  Words.enqueued (first ++ second) startCfi
  = Words.enqueued first startCfi ++ Words.enqueued second startCfi.
Proof. apply filter_app. Qed.

Section Cap.
Variable cfiFromNode : TextNode -> string -> string.
Variables (wordCount : Z) (startCfi : option Words.start_cfi) (c : Z).
Hypothesis Hb : 0 < wordCount.
Hypothesis Hc : 0 < c.

Lemma processWords_full (self : Words.t) (s : Words.section) :
  c <= JS.length (Words._locationsWords self) ->
  Words.processWords cfiFromNode self s wordCount startCfi (Some c)
  = Ok self.
Proof.
  intros Hfull. unfold Words.processWords, JS.truthy.
  destruct (c =? 0) eqn:Hz; [apply Z.eqb_eq in Hz; lia|].
  destruct (_ >=? c) eqn:Hge; [reflexivity|].
  rewrite Z.geb_leb in Hge. apply Z.leb_gt in Hge. lia.
Qed.

Lemma processWords_count (self : Words.t) (s : Words.section) :
  0 <= Words._wordCounter self <= wordCount ->
  JS.length (Words._locationsWords self) <= Z.max c (2 * c - 2) ->
  exists self',
    Words.processWords cfiFromNode self s wordCount startCfi (Some c)
    = Ok self'
    /\ 0 <= Words._wordCounter self' <= wordCount
    /\ JS.length (Words._locationsWords self') <= Z.max c (2 * c - 2).
Proof.
  intros Hcounter Hbound.
  destruct (Z_le_gt_dec c (JS.length (Words._locationsWords self)))
    as [Hfull | Hless].
  { exists self. rewrite processWords_full by assumption. now repeat split. }
  unfold Words.processWords, JS.truthy.
  destruct (c =? 0) eqn:Hz; [apply Z.eqb_eq in Hz; lia|].
  destruct (JS.length (Words._locationsWords self) >=? c) eqn:Hge.
  { rewrite Z.geb_leb in Hge. apply Z.leb_le in Hge. lia. }
  cbn [negb andb].
  destruct (parseWords_spec cfiFromNode wordCount Hb startCfi self s Hcounter)
    as (new & self1 & Hparse & Hsame & Hcounter1 & _ & _).
  rewrite Hparse. cbn [bind]. eexists. split; [reflexivity|].
  word_fields. split; [exact Hcounter1|]. rewrite Hsame.
  destruct (JS.length new >=? c) eqn:Hmany; rewrite Z.geb_leb in Hmany.
  - apply Z.leb_le in Hmany.
    rewrite length_app, slice_to_length; [lia|].
    unfold JS.length in *. lia.
  - apply Z.leb_gt in Hmany. rewrite length_app. lia.
Qed.

Lemma run_full (queue : list Words.section) :
  forall self : Words.t,
    c <= JS.length (Words._locationsWords self) ->
    Words.run cfiFromNode queue wordCount startCfi (Some c) self = Ok self.
Proof.
  induction queue as [|s rest IH]; intros self Hfull; [reflexivity|].
  cbn [Words.run]. rewrite processWords_full by assumption.
  cbn [bind]. now apply IH.
Qed.

Lemma run_count (queue : list Words.section) :
  forall self : Words.t,
    0 <= Words._wordCounter self <= wordCount ->
    JS.length (Words._locationsWords self) <= Z.max c (2 * c - 2) ->
    exists self',
      Words.run cfiFromNode queue wordCount startCfi (Some c) self = Ok self'
      /\ JS.length (Words._locationsWords self') <= Z.max c (2 * c - 2).
Proof.
  induction queue as [|s rest IH]; intros self Hcounter Hbound.
  - exists self. now split.
  - cbn [Words.run].
    destruct (processWords_count self s Hcounter Hbound)
      as (self1 & Hstep & Hcounter1 & Hbound1).
    rewrite Hstep. cbn [bind]. now apply IH.
Qed.

End Cap.

(** X4.  With a positive [wordCount] and a positive [count],
    [generateFromWords] resolves with at most [max count (2 count - 2)]
    entries: a section is skipped once [count] entries are held, and the
    entries of a section are cut down to what is missing only when the
    section alone gives [count] or more, so that two sections of fewer
    entries each can go past [count].  Once [count] entries are held the
    sections that follow change nothing. *)
Theorem generateFromWords_count
    (cfiFromNode : TextNode -> string -> string)
    (spine : list Words.section) (startCfi : option Words.start_cfi)
    (wordCount count : Z) :
  0 < wordCount -> 0 < count ->
  exists self,
    Words.generateFromWords cfiFromNode spine startCfi wordCount (Some count)
    = Ok self
    /\ JS.length (Words._locationsWords self)
       <= Z.max count (2 * count - 2)
    /\ (count <= JS.length (Words._locationsWords self) ->
        forall more : list Words.section,
          Words.generateFromWords cfiFromNode (spine ++ more) startCfi
            wordCount (Some count)
          = Ok self).
Proof.
  intros Hb Hc. unfold Words.generateFromWords.
  destruct (run_count cfiFromNode wordCount startCfi count Hb Hc
              (Words.enqueued spine startCfi)
              {| Words._locationsWords := []; Words._wordCounter := 0 |})
    as (self & Hrun & Hbound).
  - word_fields. lia.
  - unfold JS.length. cbn. lia.
  - exists self. split; [exact Hrun|]. split; [exact Hbound|].
    intros Hfull more.
    rewrite enqueued_app, word_run_app, Hrun. cbn [bind].
    now apply run_full.
Qed.

Lemma generateFromWords_count_witness :
  exists self,
    Words.generateFromWords show_node two_chapters None 2 (Some 3) = Ok self
    /\ JS.length (Words._locationsWords self) = 4
    /\ JS.length (Words._locationsWords self) <= Z.max 3 (2 * 3 - 2).
Proof.
  destruct (generateFromWords_count show_node two_chapters None 2 3)
    as (self & Hrun & Hbound & _); [lia | lia |].
  exists self. split; [exact Hrun|]. split; [|exact Hbound].
  vm_compute in Hrun. injection Hrun as <-. reflexivity.
Defined.

(** ** Chunk sizes below the range of [generate] *)

Section NegativeBreak.
Context {E : CfiEngine}.
Variable b : Z.
Hypothesis Hb : b < 0.

Lemma while_loop_never_ends (base : string) (node : TextNode) (len : Z)
    (fuel : nat) :
  forall (pos : Z) (w : Locations.walk),
    Locations.counter w = 0 -> pos < len ->
    Locations.while_loop fuel b base node len pos w = Diverges.
Proof.
  induction fuel as [|fuel IH]; intros pos w Hc Hpos;
    cbn [Locations.while_loop];
    (destruct (pos <? len) eqn:Hlt; [|apply Z.ltb_ge in Hlt; lia]);
    [reflexivity|].
  unfold Locations.loop_body. rewrite Hc. cbn [Z.eqb]. fields.
  destruct (pos + 1 + (b - 0) >=? len) eqn:Hge.
  { rewrite Z.geb_leb in Hge. apply Z.leb_le in Hge. lia. }
  cbn [bind]. apply IH; [reflexivity | lia].
Qed.

Lemma nonblank_length (node : TextNode) :
  nonblank node = true -> 0 < node_length node.
Proof.
  unfold nonblank, JS.trim_is_empty, node_length.
  destruct (textContent node); [discriminate|].
  intros _. cbn [String.length]. lia.
Qed.

Lemma parser_never_ends (base : string) (node : TextNode)
    (w : Locations.walk) :
  nonblank node = true -> Locations.counter w = 0 ->
  Locations.parser b base node w = Diverges.
Proof.
  intros Hn Hc. pose proof (nonblank_length node Hn) as Hlen.
  unfold Locations.parser. unfold nonblank in Hn.
  apply negb_true_iff in Hn. rewrite Hn, Hc. cbn [Z.eqb]. fields.
  destruct (b - 0 >? node_length node) eqn:Hgt.
  { apply Z.gtb_lt in Hgt. lia. }
  rewrite while_loop_never_ends; [reflexivity | reflexivity | lia].
Qed.

Lemma each_node_never_ends (base : string) (nodes : list TextNode) :
  forall w : Locations.walk,
    Locations.counter w = 0 ->
    Locations.each_node b base nodes w
    = if existsb nonblank nodes then Diverges else Ok w.
Proof.
  induction nodes as [|node rest IH]; intros w Hc; [reflexivity|].
  cbn [Locations.each_node existsb].
  destruct (nonblank node) eqn:Hn.
  - now rewrite parser_never_ends.
  - unfold Locations.parser. unfold nonblank in Hn.
    apply negb_false_iff in Hn. rewrite Hn. cbn [bind orb]. now apply IH.
Qed.

Lemma process_never_ends (self : Locations.t) (s : Section) :
  Locations.break self = b ->
  Locations.process self s = if has_text s then Diverges else Ok self.
Proof.
  intros Hbreak. unfold Locations.process, Locations.parse, has_text.
  assert (Hd : JS.or_default None (Locations.break self) = b)
    by exact Hbreak.
  rewrite Hd, each_node_never_ends by reflexivity.
  destruct (existsb nonblank _); [reflexivity|].
  cbn. rewrite app_nil_r. now destruct self.
Qed.

Lemma run_never_ends (queue : list Section) (self : Locations.t) :
  Locations.break self = b ->
  existsb has_text queue = true ->
  Locations.run queue self = Diverges.
Proof.
  intros Hbreak. induction queue as [|s rest IH]; [discriminate|].
  cbn [Locations.run existsb]. rewrite process_never_ends by assumption.
  destruct (has_text s); [reflexivity|]. cbn [orb bind]. exact IH.
Qed.

End NegativeBreak.

(** X5.  A negative chunk size is not refused: when [generate] is called
    with one, or with none on an object whose [break] is negative, the loop
    of the callback makes no progress on a text node that is not blank
    (the position does not advance, at any number of turns), and
    [generate] never resolves if a linear section holds such a node. *)
Theorem generate_negative_never_ends {E : CfiEngine} (self : Locations.t)
    (chars : option Z) :
  let b := JS.or_default chars (Locations.break self) in
  b < 0 ->
  (forall fuel base node len pos w,
      Locations.counter w = 0 -> pos < len ->
      Locations.while_loop fuel b base node len pos w = Diverges)
  /\ (existsb has_text (filter linear (Locations.spine self)) = true ->
      Locations.generate self chars = Diverges).
Proof.
  intros b Hb. split.
  - intros fuel base node len pos w. now apply while_loop_never_ends.
  - intros Htext. rewrite generate_break.
    rewrite (run_never_ends b Hb); [reflexivity | reflexivity | exact Htext].
Qed.

Lemma generate_negative_never_ends_witness :
  Locations.generate (E := StringEngine)
    (Locations.constructor sample_spine None) (Some (-1)) = Diverges.
Proof.
  apply (generate_negative_never_ends (E := StringEngine)
           (Locations.constructor sample_spine None) (Some (-1)));
    [cbn; lia | reflexivity].
Defined.

(** ** Word counts below the range of [generateFromWords] *)

Section NoWordCount.
Variable cfiFromNode : TextNode -> string -> string.
Variable b : Z.
Hypothesis Hb : b <= 0.

Lemma word_loop_never_ends (base : string) (node : TextNode) (len : Z)
    (fuel : nat) :
  forall (pos : Z) (w : Words.walk),
    0 <= Words.counter w -> pos < len ->
    Words.while_loop cfiFromNode fuel b base node len pos w = Diverges.
Proof.
  induction fuel as [|fuel IH]; intros pos w Hc Hpos;
    cbn [Words.while_loop];
    (destruct (pos <? len) eqn:Hlt; [|apply Z.ltb_ge in Hlt; lia]);
    [reflexivity|].
  unfold Words.loop_body.
  destruct (pos + (b - Words.counter w) >=? len) eqn:Hge.
  { rewrite Z.geb_leb in Hge. apply Z.leb_le in Hge. lia. }
  apply IH; word_fields; lia.
Qed.

Lemma word_parser_never_ends (base : string) (startNode : option TextNode)
    (node : TextNode) (w : Words.walk) :
  0 <= Words.counter w ->
  Words.parser cfiFromNode b base startNode node w
  = if negb (Words.foundStartNode w) && negb (Words.same_node node startNode)
    then Ok w
    else if passed_over node
         then Ok {| Words.locations := Words.locations w;
                    Words.counter := Words.counter w;
                    Words.foundStartNode := true |}
         else Diverges.
Proof.
  intros Hc. unfold Words.parser, passed_over.
  destruct (negb (Words.foundStartNode w)
            && negb (Words.same_node node startNode)); [reflexivity|].
  destruct ((node_length node <? 10)
            && JS.trim_is_empty (textContent node)); [reflexivity|].
  pose proof (countWords_positive (textContent node)) as Hlen.
  destruct (Words.countWords (textContent node) =? 0) eqn:Hz;
    [apply Z.eqb_eq in Hz; lia|].
  word_fields.
  destruct (b - Words.counter w >? Words.countWords (textContent node))
    eqn:Hgt.
  { apply Z.gtb_lt in Hgt. lia. }
  apply word_loop_never_ends; word_fields; lia.
Qed.

Lemma word_each_node_never_ends (base : string)
    (startNode : option TextNode) (nodes : list TextNode) :
  forall w : Words.walk,
    0 <= Words.counter w ->
    match Words.each_node cfiFromNode b base startNode nodes w with
    | Ok w' =>
        words_from (Words.foundStartNode w) startNode nodes = 0
        /\ Words.counter w' = Words.counter w
        /\ Words.locations w' = Words.locations w
    | TypeError => False
    | Diverges => 0 < words_from (Words.foundStartNode w) startNode nodes
    end.
Proof.
  induction nodes as [|node rest IH]; intros w Hc.
  - cbn. auto.
  - cbn [Words.each_node words_from].
    rewrite word_parser_never_ends by assumption.
    destruct (negb (Words.foundStartNode w)
              && negb (Words.same_node node startNode)) eqn:Hskip.
    + cbn [bind]. apply andb_true_iff in Hskip as [Hf _].
      apply negb_true_iff in Hf. specialize (IH w Hc). now rewrite Hf in IH.
    + unfold node_words. destruct (passed_over node) eqn:Hp; cbn [bind].
      * match goal with
        | |- context [Words.each_node _ _ _ _ rest ?w1] =>
            specialize (IH w1 Hc)
        end.
        word_fields in IH. exact IH.
      * pose proof (countWords_positive (textContent node)).
        assert (Hrest : forall f, 0 <= words_from f startNode rest).
        { clear. induction rest as [|n rest IH]; intros f; cbn; [lia|].
          destruct (negb f && negb (Words.same_node n startNode));
            [apply IH|].
          unfold node_words. pose proof (countWords_positive (textContent n)).
          specialize (IH true). destruct (passed_over n); lia. }
        specialize (Hrest true). lia.
Qed.

Lemma section_words_nonnegative (startCfi : option Words.start_cfi)
    (s : Words.section) :
  0 <= section_words startCfi s.
Proof.
  assert (H : forall f sn nodes, 0 <= words_from f sn nodes).
  { intros f sn nodes. revert f.
    induction nodes as [|n rest IH]; intros f; cbn; [lia|].
    destruct (negb f && negb (Words.same_node n sn)); [apply IH|].
    unfold node_words. pose proof (countWords_positive (textContent n)).
    specialize (IH true). destruct (passed_over n); lia. }
  unfold section_words. destruct startCfi as [c|]; [|apply H].
  destruct (Words.index s =? Words.spinePos c); apply H.
Qed.

Lemma processWords_never_ends (startCfi : option Words.start_cfi)
    (self : Words.t) (s : Words.section) :
  Words._locationsWords self = [] ->
  0 <= Words._wordCounter self ->
  Words.processWords cfiFromNode self s b startCfi None
  = if 0 <? section_words startCfi s then Diverges else Ok self.
Proof.
  intros Hempty Hc. unfold Words.processWords, Words.parseWords.
  match goal with
  | |- context [Words.each_node _ b ?base ?sn ?nodes ?w0] =>
      pose proof (word_each_node_never_ends base sn nodes w0 Hc) as H;
      destruct (Words.each_node cfiFromNode b base sn nodes w0) as [w' | |]
  end.
  - destruct H as (Hzero & Hcounter & Hlocs).
    word_fields in Hzero. word_fields in Hcounter. word_fields in Hlocs.
    assert (Hs : section_words startCfi s = 0).
    { unfold section_words. destruct startCfi as [c|]; [|exact Hzero].
      destruct (Words.index s =? Words.spinePos c); exact Hzero. }
    rewrite Hs. cbn [bind Z.ltb Z.compare]. word_fields.
    rewrite Hlocs, Hcounter, Hempty. destruct self. cbn in *.
    now rewrite Hempty.
  - contradiction.
  - word_fields in H.
    assert (Hs : 0 < section_words startCfi s).
    { unfold section_words. destruct startCfi as [c|]; [|exact H].
      destruct (Words.index s =? Words.spinePos c); exact H. }
    apply Z.ltb_lt in Hs. now rewrite Hs.
Qed.

Lemma word_run_never_ends (startCfi : option Words.start_cfi)
    (queue : list Words.section) (self : Words.t) :
  Words._locationsWords self = [] ->
  0 <= Words._wordCounter self ->
  0 < sum (map (section_words startCfi) queue) ->
  Words.run cfiFromNode queue b startCfi None self = Diverges.
Proof.
  intros Hempty Hc. induction queue as [|s rest IH]; cbn [map sum];
    [lia|]. intros Hsum. cbn [Words.run].
  rewrite processWords_never_ends by assumption.
  destruct (0 <? section_words startCfi s) eqn:Hs; [reflexivity|].
  apply Z.ltb_ge in Hs. cbn [bind]. apply IH.
  pose proof (section_words_nonnegative startCfi s). lia.
Qed.

End NoWordCount.

(** X6.  A [wordCount] of 0 or below is not refused: the loop of the
    callback of [parseWords] makes no progress on a text node that it
    counts (at any number of turns it has not ended), and
    [generateFromWords] never resolves when the sections it would go
    through hold a word. *)
Theorem generateFromWords_never_ends
    (cfiFromNode : TextNode -> string -> string)
    (spine : list Words.section) (startCfi : option Words.start_cfi)
    (wordCount : Z) :
  wordCount <= 0 ->
  (forall fuel base node len pos w,
      0 <= Words.counter w -> pos < len ->
      Words.while_loop cfiFromNode fuel wordCount base node len pos w
      = Diverges)
  /\ (0 < sum (map (section_words startCfi) (Words.enqueued spine startCfi)) ->
      Words.generateFromWords cfiFromNode spine startCfi wordCount None
      = Diverges).
Proof.
  intros Hb. split.
  - intros fuel base node len pos w. now apply word_loop_never_ends.
  - intros Hsum. unfold Words.generateFromWords.
    apply word_run_never_ends; try assumption; word_fields;
      [reflexivity | lia].
Qed.

Lemma generateFromWords_never_ends_witness :
  Words.generateFromWords show_node sample_word_spine None 0 None
  = Diverges.
Proof.
  apply (generateFromWords_never_ends show_node sample_word_spine None 0);
    [lia | vm_compute; reflexivity].
Defined.

(** ** The queries of [Locations] on an index that is in place *)

Lemma locationOf_between_range {A : Type} (item : A) (array : list A)
    (cmp : A -> A -> Z) (fuel : nat) :
  forall start end_ : Z,
    0 <= start <= end_ ->
    start <= Core.locationOf_between fuel item array cmp start end_ <= end_.
Proof.
  induction fuel as [|fuel IH]; intros start end_ Hse;
    cbn [Core.locationOf_between];
    destruct (end_ - start <=? 0) eqn:Hle; try lia.
  apply Z.leb_gt in Hle.
  assert (Hp : start <= start + (end_ - start) / 2 < end_).
  { pose proof (Z.div_pos (end_ - start) 2).
    pose proof (Z.div_lt_upper_bound (end_ - start) 2 (end_ - start)).
    lia. }
  destruct (JS.index array _); [|lia].
  destruct (cmp a item <? 0).
  - specialize (IH (start + (end_ - start) / 2 + 1) end_). lia.
  - specialize (IH start (start + (end_ - start) / 2)). lia.
Qed.

Lemma locationOf_range {A : Type} (item : A) (array : list A)
    (cmp : A -> A -> Z) :
  0 <= Core.locationOf item array cmp <= JS.length array.
Proof.
  unfold Core.locationOf. apply locationOf_between_range.
  unfold JS.length. lia.
Qed.

Lemma length_of_map {A B : Type} (f : A -> B) (l : list A) :
  JS.length (map f l) = JS.length l.
Proof. unfold JS.length. now rewrite List.length_map. Qed.

Lemma nonempty_length {A : Type} (l : list A) : l <> [] -> 1 <= JS.length l.
Proof.
  destruct l; [congruence|]. intros _. unfold JS.length.
  cbn [List.length]. lia.
Qed.

Lemma locationFromCfi_bounds {E : CfiEngine} (self : Locations.t)
    (cfi : Cfi) :
  Locations._locations self <> [] ->
  0 <= Locations.total self ->
  0 <= Locations.locationFromCfi self cfi <= Locations.total self.
Proof.
  intros Hne Htotal. rewrite locationFromCfi_unfold by assumption.
  cbv zeta.
  match goal with
  | |- context [Core.locationOf ?i ?l ?c] =>
      pose proof (locationOf_range i l c) as Hloc;
      set (loc := Core.locationOf i l c) in *
  end.
  destruct (loc >? Locations.total self) eqn:Hgt; [lia|].
  rewrite Z.gtb_ltb in Hgt. apply Z.ltb_ge in Hgt. lia.
Qed.

(** X7.  On an index that is not empty and whose [total] is the entry
    count minus one, [locationFromCfi] gives, for any CFI and whatever the
    comparator answers, the position of an entry: a number from 0 to
    [total], at which [cfiFromLocation] finds a stored CFI and never
    -1. *)
Theorem locationFromCfi_in_range {E : CfiEngine} (self : Locations.t)
    (cfi : Cfi) :
  Locations._locations self <> [] ->
  Locations.total self = JS.length (Locations._locations self) - 1 ->
  0 <= Locations.locationFromCfi self cfi <= Locations.total self
  /\ exists s,
       JS.index (Locations._locations self)
         (Locations.locationFromCfi self cfi) = Some s
       /\ Locations.cfiFromLocation self (Locations.locationFromCfi self cfi)
          = Locations.CfiText s.
Proof.
  intros Hne Htotal. pose proof (nonempty_length _ Hne) as Hlen.
  assert (Hb : 0 <= Locations.locationFromCfi self cfi
               <= Locations.total self)
    by (apply locationFromCfi_bounds; [assumption | lia]).
  split; [exact Hb|].
  destruct (index_in_range (Locations._locations self)
              (Locations.locationFromCfi self cfi)) as [s Hs]; [lia|].
  exists s. split; [exact Hs|]. unfold Locations.cfiFromLocation.
  rewrite Hs.
  destruct (Locations.locationFromCfi self cfi >=? 0) eqn:H0;
    [|rewrite Z.geb_leb in H0; apply Z.leb_gt in H0; lia].
  destruct (Locations.locationFromCfi self cfi
            <? JS.length (Locations._locations self)) eqn:H1;
    [reflexivity | apply Z.ltb_ge in H1; lia].
Qed.

Lemma locationFromCfi_in_range_witness :
  0 <= Locations.locationFromCfi (E := StringEngine) two_locations
         cfi_between
    <= Locations.total two_locations
  /\ exists s,
       JS.index (Locations._locations two_locations)
         (Locations.locationFromCfi (E := StringEngine) two_locations
            cfi_between) = Some s
       /\ Locations.cfiFromLocation two_locations
            (Locations.locationFromCfi (E := StringEngine) two_locations
               cfi_between)
          = Locations.CfiText s.
Proof.
  apply (locationFromCfi_in_range (E := StringEngine) two_locations
           cfi_between);
    [discriminate | reflexivity].
Defined.

Lemma percentageFromLocation_bounds (self : Locations.t) (loc : Z) :
  0 <= loc <= Locations.total self ->
  (0 <= Locations.percentageFromLocation self loc <= 1)%Q.
Proof.
  intros Hl. unfold Locations.percentageFromLocation, JS.truthy.
  destruct (loc =? 0) eqn:H0; [cbn; lra|].
  destruct (Locations.total self =? 0) eqn:Ht; [cbn; lra|].
  cbn [negb orb]. apply Z.eqb_neq in H0, Ht.
  assert (Hpos : (0 < inject_Z (Locations.total self))%Q)
    by (change 0%Q with (inject_Z 0); rewrite <- Zlt_Qlt; lia).
  assert (Hl0 : (0 <= inject_Z loc)%Q)
    by (change 0%Q with (inject_Z 0); rewrite <- Zle_Qle; lia).
  assert (Hl1 : (inject_Z loc <= inject_Z (Locations.total self))%Q)
    by (rewrite <- Zle_Qle; lia).
  split.
  - apply Qle_shift_div_l; [exact Hpos | lra].
  - apply Qle_shift_div_r; [exact Hpos | lra].
Qed.

(** X8.  On an index that is not empty and whose [total] is not negative,
    [percentageFromCfi] is a number from 0 to 1 for every CFI, and
    [percentageFromLocation] is one for every location from 0 to
    [total]. *)
Theorem percentageFromCfi_unit_interval {E : CfiEngine}
    (self : Locations.t) :
  Locations._locations self <> [] ->
  0 <= Locations.total self ->
  (forall loc,
      0 <= loc <= Locations.total self ->
      (0 <= Locations.percentageFromLocation self loc <= 1)%Q)
  /\ (forall cfi,
        exists p,
          Locations.percentageFromCfi self cfi = Some p
          /\ (0 <= p <= 1)%Q).
Proof.
  intros Hne Htotal.
  split; [intros loc; apply percentageFromLocation_bounds|].
  intros cfi. unfold Locations.percentageFromCfi.
  destruct (JS.length (Locations._locations self) =? 0) eqn:Hz.
  { apply length_zero_nil in Hz. contradiction. }
  eexists. split; [reflexivity|].
  apply percentageFromLocation_bounds. now apply locationFromCfi_bounds.
Qed.

Lemma percentageFromCfi_unit_interval_witness :
  exists p,
    Locations.percentageFromCfi (E := StringEngine) two_locations
      cfi_between = Some p
    /\ (0 <= p <= 1)%Q.
Proof.
  apply (percentageFromCfi_unit_interval (E := StringEngine) two_locations);
    [discriminate | cbn; lia].
Defined.

(** X9.  Round trip on an index whose entries are in order for the
    comparator and whose [total] is the entry count minus one: the CFI
    that [cfiFromLocation] gives for a position of the list is located by
    [locationFromCfi] at that position. *)
Theorem location_round_trip {E : CfiEngine} (self : Locations.t) (loc : Z) :
  in_order (Locations._locations self) ->
  Locations.total self = JS.length (Locations._locations self) - 1 ->
  0 <= loc < JS.length (Locations._locations self) ->
  exists s,
    Locations.cfiFromLocation self loc = Locations.CfiText s
    /\ Locations.locationFromCfi self (cfiString s) = loc.
Proof.
  intros Horder Htotal Hloc.
  destruct (index_in_range (Locations._locations self) loc Hloc) as [s Hs].
  exists s. split.
  - unfold Locations.cfiFromLocation. rewrite Hs.
    destruct (loc >=? 0) eqn:H0;
      [|rewrite Z.geb_leb in H0; apply Z.leb_gt in H0; lia].
    destruct (loc <? JS.length (Locations._locations self)) eqn:H1;
      [reflexivity | apply Z.ltb_ge in H1; lia].
  - unfold JS.index in Hs.
    destruct (loc <? 0) eqn:Hneg; [discriminate|].
    apply nth_error_split in Hs as (before & after & Heq & Hlen).
    destruct (Horder before after s Heq) as [Hbefore Hafter].
    assert (Hne : Locations._locations self <> [])
      by (rewrite Heq; now destruct before).
    rewrite locationFromCfi_unfold by assumption. cbv zeta.
    fold (as_item s). rewrite Heq, map_app.
    rewrite locationOf_split.
    + rewrite length_of_map. unfold JS.length in *. rewrite Hlen.
      destruct (Z.of_nat (Z.to_nat loc) >? Locations.total self) eqn:Hgt;
        [apply Z.gtb_lt in Hgt; lia | lia].
    + intros a Ha. apply in_map_iff in Ha as (x & <- & Hx). now apply Hbefore.
    + intros a Ha. apply in_map_iff in Ha as (x & <- & Hx). now apply Hafter.
Qed.

Lemma location_round_trip_witness :
  exists s,
    Locations.cfiFromLocation two_locations 1 = Locations.CfiText s
    /\ Locations.locationFromCfi (E := StringEngine) two_locations s = 1.
Proof.
  apply (location_round_trip (E := StringEngine) two_locations 1).
  - intros before after s Heq.
    destruct before as [|a [|b before]]; cbn in Heq.
    + injection Heq as <- <-. split; [intros a []|].
      intros a [<- | [<- | []]]; vm_compute; discriminate.
    + injection Heq as <- <- <-. split.
      * intros a [<- | []]. reflexivity.
      * intros a [<- | []]. vm_compute. discriminate.
    + injection Heq as _ _ Heq. destruct before; discriminate.
  - reflexivity.
  - cbn. lia.
Defined.

Lemma run_current {E : CfiEngine} (queue : list Section) :
  forall self self' : Locations.t,
    Locations.run queue self = Ok self' ->
    Locations._current self' = Locations._current self.
Proof.
  induction queue as [|q queue IH]; intros self self' H.
  - now injection H as <-.
  - cbn [Locations.run] in H. unfold Locations.process in H.
    destruct (Locations.parse self (body q) (cfiBase q) None);
      try discriminate.
    cbn [bind] in H. now apply IH in H.
Qed.

(** X10.  A current CFI that is set before the index exists is kept and
    located later: [setCurrent] with a CFI string, then [generate] with a
    positive chunk size, resolves in a state that still holds the string
    and, if locations were made, whose current location is what
    [locationFromCfi] answers for it on the finished index. *)
Theorem generate_locates_current {E : CfiEngine} (self : Locations.t)
    (chars : option Z) (cfi : string) :
  let b := JS.or_default chars (Locations.break self) in
  0 < b ->
  cfi <> EmptyString ->
  exists self',
    Locations.generate (Locations.setCurrent self cfi) chars = Ok self'
    /\ Locations._currentCfi self' = cfi
    /\ Locations.total self' = JS.length (Locations._locations self') - 1
    /\ (Locations._locations self' <> [] ->
        Locations._current self'
        = Locations.locationFromCfi self' (cfiString cfi))
    /\ (Locations._locations self' = [] ->
        Locations._current self' = Locations._current self).
Proof.
  intros b Hb Hcfi.
  assert (Hset : Locations.break (Locations.setCurrent self cfi)
                 = Locations.break self
                 /\ Locations._currentCfi (Locations.setCurrent self cfi)
                    = cfi
                 /\ Locations._locations (Locations.setCurrent self cfi)
                    = Locations._locations self
                 /\ (Locations._locations self = [] ->
                     Locations._current (Locations.setCurrent self cfi)
                     = Locations._current self)).
  { unfold Locations.setCurrent. cbn.
    destruct (JS.length (Locations._locations self) =? 0) eqn:Hz; cbn;
      repeat split; try reflexivity.
    intros Hnil. rewrite Hnil in Hz. discriminate. }
  destruct Hset as (Hbreak & Hcur & Hlocs & Hkeep).
  rewrite generate_break. rewrite Hbreak. fold b.
  destruct (run_spec
              (Locations.enqueue_linear
                 (Locations.spine (Locations.setCurrent self cfi)))
              (with_break (Locations.setCurrent self cfi) b))
    as (self1 & lists & Hrun & _ & Hl1 & _ & _ & Hc1); [exact Hb|].
  rewrite Hrun. cbn [bind]. cbn in Hc1. rewrite Hcur in Hc1.
  cbn in Hl1. rewrite Hlocs in Hl1.
  apply run_current in Hrun. cbn in Hrun.
  cbn [Locations._currentCfi]. rewrite Hc1.
  destruct cfi as [|c rest]; [congruence|]. cbn [JS.truthy_string].
  unfold Locations.setCurrent. cbn [Locations._locations].
  destruct (JS.length (Locations._locations self1) =? 0) eqn:Hz.
  - apply length_zero_nil in Hz. eexists. split; [reflexivity|].
    cbn. rewrite Hz. repeat split; try reflexivity; try congruence.
    intros _. rewrite Hz in Hl1. symmetry in Hl1.
    apply app_eq_nil in Hl1 as [Hnil _].
    rewrite Hrun. now apply Hkeep.
  - eexists. split; [reflexivity|]. cbn.
    repeat split; try reflexivity.
    intros Hnil. rewrite Hnil in Hz. discriminate.
Qed.

Lemma generate_locates_current_witness :
  exists self',
    Locations.generate (E := StringEngine)
      (Locations.setCurrent (E := StringEngine)
         (Locations.constructor sample_spine None) cfi_between)
      (Some 5) = Ok self'
    /\ Locations._currentCfi self' = cfi_between
    /\ Locations.total self' = JS.length (Locations._locations self') - 1
    /\ (Locations._locations self' <> [] ->
        Locations._current self'
        = Locations.locationFromCfi (E := StringEngine) self' cfi_between)
    /\ (Locations._locations self' = [] ->
        Locations._current self'
        = Locations._current (Locations.constructor sample_spine None)).
Proof.
  apply (generate_locates_current (E := StringEngine)
           (Locations.constructor sample_spine None) (Some 5) cfi_between);
    [cbn; lia | discriminate].
Defined.

(** ** The page list *)

Lemma index_map {A B : Type} (f : A -> B) (l : list A) (i : Z) :
  JS.index (map f l) i = option_map f (JS.index l i).
Proof.
  unfold JS.index. destruct (i <? 0); [reflexivity|].
  apply nth_error_map.
Qed.

Lemma map_Some_injective {A : Type} (l1 l2 : list A) :
  map Some l1 = map Some l2 -> l1 = l2.
Proof.
  revert l2. induction l1 as [|x l1 IH]; intros [|y l2] H;
    try discriminate; [reflexivity|].
  cbn in H. injection H as -> H. f_equal. now apply IH.
Qed.

Lemma constructor_lists (pageList : list PageList.item) :
  PageList.pages (PageList.constructor pageList)
  = map PageList.page pageList
  /\ (Forall (fun i => PageList.has_cfi i = true) pageList ->
      map Some (PageList.locations (PageList.constructor pageList))
      = map PageList.cfi pageList)
  /\ (Forall (fun i => PageList.has_cfi i = false) pageList ->
      PageList.locations (PageList.constructor pageList) = []).
Proof.
  unfold PageList.constructor.
  destruct (JS.length pageList =? 0) eqn:Hz.
  { apply length_zero_nil in Hz. subst. cbn. repeat split; reflexivity. }
  cbn [negb]. unfold PageList.process.
  pose proof (push_all_pages pageList (PageList.pages PageList.empty)
                (PageList.locations PageList.empty)) as Hp.
  pose proof (push_all_locations pageList) as Hl.
  assert (Hn : Forall (fun i => PageList.has_cfi i = false) pageList ->
               forall pgs locs,
                 snd (PageList.push_all pageList pgs locs) = locs).
  { clear. induction pageList as [|i rest IH]; intros Hall pgs locs;
      [reflexivity|].
    inversion Hall as [|? ? Hi Hrest]; subst. cbn [PageList.push_all].
    rewrite IH by assumption. unfold PageList.has_cfi in Hi.
    destruct (PageList.cfi i); [now rewrite Hi | reflexivity]. }
  destruct (PageList.push_all pageList _ _) as [pgs locs] eqn:Hpush.
  cbn [fst snd PageList.pages PageList.locations] in *.
  split; [exact Hp|]. split.
  - intros Hall.
    specialize (Hl Hall (PageList.pages PageList.empty)
                  (PageList.locations PageList.empty)).
    rewrite Hpush in Hl. exact Hl.
  - intros Hall.
    specialize (Hn Hall (PageList.pages PageList.empty)
                  (PageList.locations PageList.empty)).
    rewrite Hpush in Hn. exact Hn.
Qed.

Lemma indexOf_from_absent (array : list Z) (x : Z) :
  ~ In x array -> forall i, PageListQueries.indexOf_from array x i = -1.
Proof.
  induction array as [|y rest IH]; intros Hin i; [reflexivity|].
  cbn [PageListQueries.indexOf_from].
  destruct (y =? x) eqn:Hyx.
  - apply Z.eqb_eq in Hyx. subst. exfalso. apply Hin. now left.
  - apply IH. intros H. apply Hin. now right.
Qed.

Lemma indexOf_from_range (array : list Z) (x : Z) :
  forall i,
    0 <= i ->
    PageListQueries.indexOf_from array x i = -1
    \/ i <= PageListQueries.indexOf_from array x i < i + JS.length array.
Proof.
  induction array as [|y rest IH]; intros i Hi; [now left|].
  cbn [PageListQueries.indexOf_from]. unfold JS.length.
  cbn [List.length]. rewrite Nat2Z.inj_succ.
  destruct (y =? x); [right; lia|].
  destruct (IH (i + 1)) as [H | H]; [lia | now left |].
  right. unfold JS.length in H. lia.
Qed.

Lemma indexOf_from_nodup (array : list Z) (x : Z) :
  NoDup array ->
  forall n i,
    JS.index array n = Some x ->
    PageListQueries.indexOf_from array x i = i + n.
Proof.
  intros Hnd. induction Hnd as [|y rest Hnotin Hnd IH]; intros n i Hn.
  - unfold JS.index in Hn. destruct (n <? 0); [discriminate|].
    now destruct (Z.to_nat n).
  - cbn [PageListQueries.indexOf_from]. unfold JS.index in Hn.
    destruct (n <? 0) eqn:Hneg; [discriminate|]. apply Z.ltb_ge in Hneg.
    destruct (Z.to_nat n) as [|m] eqn:Hm.
    + cbn in Hn. injection Hn as ->. rewrite Z.eqb_refl. lia.
    + cbn in Hn. destruct (y =? x) eqn:Hyx.
      * apply Z.eqb_eq in Hyx. subst. exfalso. apply Hnotin.
        now apply nth_error_In in Hn.
      * rewrite (IH (n - 1)); [lia|]. unfold JS.index.
        destruct (n - 1 <? 0) eqn:Hneg'; [apply Z.ltb_lt in Hneg'; lia|].
        replace (Z.to_nat (n - 1)) with m by lia. exact Hn.
Qed.

(** X11.  [cfiFromPage] looks the page up in [pages] and answers with the
    entry of [locations] at the same position: -1 for a page that is not
    listed, and for a text that does not read as a number; for a text that
    reads as a number what it answers for the number; and, on a page list
    whose items all carry a CFI and whose pages differ from one another,
    the CFI of the item with that page. *)
Theorem cfiFromPage_cases (self : PageList.t) :
  (forall pg,
      ~ In pg (PageList.pages self) ->
      PageListQueries.cfiFromPage self (PageListQueries.PageNumber pg)
      = Some (Locations.Number (-1)))
  /\ (forall s,
        JSString.parseInt s None = None ->
        PageListQueries.cfiFromPage self (PageListQueries.PageText s)
        = Some (Locations.Number (-1)))
  /\ (forall s pg,
        JSString.parseInt s None = Some pg ->
        PageListQueries.cfiFromPage self (PageListQueries.PageText s)
        = PageListQueries.cfiFromPage self (PageListQueries.PageNumber pg))
  /\ (forall (pageList : list PageList.item) (i : PageList.item)
             (n : Z) (c : string),
        self = PageList.constructor pageList ->
        Forall (fun i => PageList.has_cfi i = true) pageList ->
        NoDup (map PageList.page pageList) ->
        JS.index pageList n = Some i ->
        PageList.cfi i = Some c ->
        PageListQueries.cfiFromPage self
          (PageListQueries.PageNumber (PageList.page i))
        = Some (Locations.CfiText c)).
Proof.
  split; [|split; [|split]].
  - intros pg Hin. unfold PageListQueries.cfiFromPage,
      PageListQueries.indexOf.
    now rewrite indexOf_from_absent.
  - intros s Hs. unfold PageListQueries.cfiFromPage. now rewrite Hs.
  - intros s pg Hs. unfold PageListQueries.cfiFromPage. now rewrite Hs.
  - intros pageList i n c -> Hall Hnd Hn Hc.
    destruct (constructor_lists pageList) as (Hpages & Hlocs & _).
    specialize (Hlocs Hall).
    unfold PageListQueries.cfiFromPage, PageListQueries.indexOf.
    rewrite Hpages.
    rewrite (indexOf_from_nodup _ _ Hnd n 0)
      by (rewrite index_map, Hn; reflexivity).
    assert (Hrange : 0 <= n).
    { unfold JS.index in Hn. destruct (n <? 0) eqn:H; [discriminate|].
      now apply Z.ltb_ge in H. }
    destruct (0 + n =? -1) eqn:Hm; [apply Z.eqb_eq in Hm; lia|].
    cbn [negb].
    assert (Hat : option_map Some
                    (JS.index
                       (PageList.locations (PageList.constructor pageList))
                       (0 + n))
                  = Some (Some c)).
    { rewrite <- index_map, Hlocs, index_map. cbn [Z.add].
      replace (0 + n) with n by lia. now rewrite Hn, <- Hc. }
    destruct (JS.index _ (0 + n)) as [s|]; [|discriminate].
    cbn in Hat. now injection Hat as ->.
Qed.

Lemma cfiFromPage_cases_witness :
  PageListQueries.cfiFromPage (PageList.constructor two_pages)
    (PageListQueries.PageNumber 9)
  = Some (Locations.Number (-1))
  /\ PageListQueries.cfiFromPage (PageList.constructor two_pages)
       (PageListQueries.PageText "two")
     = Some (Locations.Number (-1))
  /\ PageListQueries.cfiFromPage (PageList.constructor two_pages)
       (PageListQueries.PageText "2")
     = PageListQueries.cfiFromPage (PageList.constructor two_pages)
         (PageListQueries.PageNumber 2)
  /\ PageListQueries.cfiFromPage (PageList.constructor two_pages)
       (PageListQueries.PageNumber 2)
     = Some (Locations.CfiText cfi_B).
Proof.
  destruct (cfiFromPage_cases (PageList.constructor two_pages))
    as (Habsent & Hnan & Htext & Hfound).
  split; [|split; [|split]].
  - apply Habsent. cbn. intros [H | [H | []]]; discriminate.
  - apply Hnan. reflexivity.
  - apply Htext. reflexivity.
  - apply (Hfound two_pages
             {| PageList.cfi := Some cfi_B; PageList.href := "b.xhtml";
                PageList.page := 2 |} 1 cfi_B);
      try reflexivity.
    + repeat constructor.
    + cbn. repeat constructor; cbn; intuition discriminate.
Defined.

Lemma indexOfSorted_from_first {E : CfiEngine} (item : Cfi)
    (entries : list string) :
  forall (n i : Z) (c : string),
    JS.index entries n = Some c ->
    compare (cfiString c) item = 0 ->
    (forall k a, 0 <= k < n -> JS.index entries k = Some a ->
                 compare (cfiString a) item <> 0) ->
    Core.indexOfSorted_from item (map cfiString entries) compare i = i + n.
Proof.
  induction entries as [|e rest IH]; intros n i c Hn Hc Hbefore.
  - unfold JS.index in Hn. destruct (n <? 0); [discriminate|].
    now destruct (Z.to_nat n).
  - cbn [map Core.indexOfSorted_from].
    assert (Hn0 : 0 <= n).
    { unfold JS.index in Hn. destruct (n <? 0) eqn:H; [discriminate|].
      now apply Z.ltb_ge in H. }
    destruct (Z.eq_dec n 0) as [-> | Hpos].
    + cbn in Hn. injection Hn as ->. rewrite Hc. cbn. lia.
    + assert (He : compare (cfiString e) item <> 0)
        by (apply (Hbefore 0); [lia | reflexivity]).
      apply Z.eqb_neq in He. rewrite He.
      assert (Hshift : forall k,
                 0 <= k ->
                 JS.index (e :: rest) (k + 1) = JS.index rest k).
      { intros k Hk. unfold JS.index.
        destruct (k + 1 <? 0) eqn:H1; [apply Z.ltb_lt in H1; lia|].
        destruct (k <? 0) eqn:H2; [apply Z.ltb_lt in H2; lia|].
        replace (Z.to_nat (k + 1)) with (S (Z.to_nat k)) by lia.
        reflexivity. }
      rewrite (IH (n - 1) (i + 1) c); [lia | | exact Hc |].
      * rewrite <- Hshift by lia. now replace (n - 1 + 1) with n by lia.
      * intros k a Hk Ha. apply (Hbefore (k + 1)); [lia|].
        now rewrite Hshift by lia.
Qed.

(** X12.  Round trip between pages and CFIs, on a page list whose items
    all carry a CFI, whose pages differ from one another, and where the
    comparator tells the CFI of an item from those of the items before it:
    [pageFromCfi] of the CFI of an item is its page, and [cfiFromPage] of
    that page is the CFI again. *)
Theorem page_cfi_round_trip {E : CfiEngine} (pageList : list PageList.item)
    (i : PageList.item) (n : Z) (c : string) :
  Forall (fun i => PageList.has_cfi i = true) pageList ->
  NoDup (map PageList.page pageList) ->
  JS.index pageList n = Some i ->
  PageList.cfi i = Some c ->
  compare (cfiString c) (cfiString c) = 0 ->
  (forall k j a,
      0 <= k < n -> JS.index pageList k = Some j ->
      PageList.cfi j = Some a ->
      compare (cfiString a) (cfiString c) <> 0) ->
  let self := PageList.constructor pageList in
  PageList.pageFromCfi self (cfiString c) = Some (PageList.page i)
  /\ PageListQueries.cfiFromPage self
       (PageListQueries.PageNumber (PageList.page i))
     = Some (Locations.CfiText c).
Proof.
  intros Hall Hnd Hn Hc Hrefl Hbefore self.
  destruct (constructor_lists pageList) as (Hpages & Hlocs & _).
  specialize (Hlocs Hall). fold self in Hpages, Hlocs.
  assert (Hn0 : 0 <= n).
  { unfold JS.index in Hn. destruct (n <? 0) eqn:H; [discriminate|].
    now apply Z.ltb_ge in H. }
  assert (Hat : forall k j,
             JS.index pageList k = Some j ->
             option_map Some (JS.index (PageList.locations self) k)
             = Some (PageList.cfi j)).
  { intros k j Hk. now rewrite <- index_map, Hlocs, index_map, Hk. }
  assert (Hentry : JS.index (PageList.locations self) n = Some c).
  { specialize (Hat n i Hn). rewrite Hc in Hat.
    destruct (JS.index (PageList.locations self) n); [|discriminate].
    cbn in Hat. now injection Hat as ->. }
  split.
  - unfold PageList.pageFromCfi.
    destruct (JS.length (PageList.locations self) =? 0) eqn:Hz.
    { apply length_zero_nil in Hz. rewrite Hz in Hentry.
      unfold JS.index in Hentry. destruct (n <? 0); [discriminate|].
      now destruct (Z.to_nat n). }
    unfold Core.indexOfSorted.
    rewrite (indexOfSorted_from_first (cfiString c)
               (PageList.locations self) n 0 c Hentry Hrefl).
    + destruct (0 + n =? -1) eqn:Hm; [apply Z.eqb_eq in Hm; lia|].
      cbn [negb]. rewrite Hpages, index_map.
      replace (0 + n) with n by lia. now rewrite Hn.
    + intros k a Hk Ha.
      destruct (index_in_range pageList k) as [j Hj].
      { assert (Hlen : n < JS.length pageList).
        { unfold JS.index in Hn. destruct (n <? 0); [discriminate|].
          assert (Hs : nth_error pageList (Z.to_nat n) <> None)
            by (rewrite Hn; discriminate).
          apply nth_error_Some in Hs. unfold JS.length. lia. }
        lia. }
      specialize (Hat k j Hj). rewrite Ha in Hat. cbn in Hat.
      injection Hat as Hcfi. now apply (Hbefore k j a).
  - unfold PageListQueries.cfiFromPage, PageListQueries.indexOf.
    rewrite Hpages.
    rewrite (indexOf_from_nodup _ _ Hnd n 0)
      by (rewrite index_map, Hn; reflexivity).
    destruct (0 + n =? -1) eqn:Hm; [apply Z.eqb_eq in Hm; lia|].
    cbn [negb]. replace (0 + n) with n by lia. now rewrite Hentry.
Qed.

Lemma page_cfi_round_trip_witness :
  PageList.pageFromCfi (E := StringEngine) (PageList.constructor two_pages)
    cfi_B = Some 2
  /\ PageListQueries.cfiFromPage (PageList.constructor two_pages)
       (PageListQueries.PageNumber 2)
     = Some (Locations.CfiText cfi_B).
Proof.
  apply (page_cfi_round_trip (E := StringEngine) two_pages
           {| PageList.cfi := Some cfi_B; PageList.href := "b.xhtml";
              PageList.page := 2 |} 1 cfi_B);
    try reflexivity.
  - repeat constructor.
  - cbn. repeat constructor; cbn; intuition discriminate.
  - intros k j a Hk Hj Ha. assert (k = 0) by lia. subst k.
    cbn in Hj. injection Hj as <-. cbn in Ha. injection Ha as <-.
    vm_compute. discriminate.
Defined.

(** ** Reading the page list *)

Lemma split_no_hash (s : string) :
  no_hash s = true -> JSString.split s "#" = [s].
Proof.
  induction s as [|c s IH]; [reflexivity|]. cbn [no_hash JSString.split].
  intros H. apply andb_true_iff in H as [Hc Hs].
  apply negb_true_iff in Hc. rewrite Hc, IH by assumption. reflexivity.
Qed.

Lemma split_at_hash (url rest : string) :
  no_hash url = true ->
  JSString.split (url ++ String "#" rest) "#"
  = url :: JSString.split rest "#".
Proof.
  induction url as [|c url IH]; intros H.
  - reflexivity.
  - cbn [no_hash] in H. apply andb_true_iff in H as [Hc Hs].
    apply negb_true_iff in Hc.
    cbn [append JSString.split]. rewrite Hc, IH by assumption.
    reflexivity.
Qed.

Lemma item_cfi_row (r : nav_row) :
  cfi_row r ->
  PageListParse.item (row_li r)
  = Ok {| PageListParse.cfi := Some (row_frag r);
          PageListParse.href := Some (row_href r);
          PageListParse.packageUrl := Some (row_url r);
          PageListParse.page := Some (row_number r) |}.
Proof.
  intros (Hurl & Hfrag & _ & Hcfi & Hpage).
  unfold PageListParse.item, row_li.
  cbn [PageListParse.a PageListParse.href_attribute
       PageListParse.anchor_text PageListParse.or_empty].
  rewrite Hpage. apply Z.eqb_neq in Hcfi. rewrite Hcfi. cbn [negb].
  unfold row_href. rewrite split_at_hash, split_no_hash by assumption.
  reflexivity.
Qed.

Lemma each_rows {A R : Type} (f : A -> outcome PageListParse.entry)
    (element : R -> A) (result : R -> PageListParse.entry)
    (rows : list R) :
  Forall (fun r => f (element r) = Ok (result r)) rows ->
  PageListParse.each f (map element rows) = Ok (map result rows).
Proof.
  induction 1 as [|r rows Hr _ IH]; [reflexivity|].
  cbn [map PageListParse.each]. now rewrite Hr, IH.
Qed.

Lemma as_items_rows {R : Type} (result : R -> PageListParse.entry)
    (item : R -> PageList.item) (rows : list R) :
  (forall r, PageListParse.as_item (result r) = Some (item r)) ->
  PageListParse.as_items (map result rows) = Some (map item rows).
Proof.
  intros H. induction rows as [|r rows IH]; [reflexivity|].
  cbn [map PageListParse.as_items]. now rewrite H, IH.
Qed.

(** X13.  A page list read from a navigation document: for [li] elements
    whose anchors point at [url#fragment] with "epubcfi" in the address
    and a label that reads as a number, [item] gives the fragment as the
    CFI and the part before the "#" as the package address, and the
    constructor ends with the numbers as [pages] and the fragments as
    [locations], in the order of the document. *)
Theorem nav_page_list (rows : list nav_row) :
  Forall cfi_row rows ->
  Forall
    (fun r =>
       PageListParse.item (row_li r)
       = Ok {| PageListParse.cfi := Some (row_frag r);
               PageListParse.href := Some (row_href r);
               PageListParse.packageUrl := Some (row_url r);
               PageListParse.page := Some (row_number r) |})
    rows
  /\ exists self,
       PageListParse.constructor
         (Some (PageListParse.Html (map row_li rows)))
       = Ok (Some self)
       /\ PageList.pages self = map row_number rows
       /\ PageList.locations self = map row_frag rows.
Proof.
  intros Hrows.
  assert (Hitems : Forall
                     (fun r =>
                        PageListParse.item (row_li r)
                        = Ok {| PageListParse.cfi := Some (row_frag r);
                                PageListParse.href := Some (row_href r);
                                PageListParse.packageUrl :=
                                  Some (row_url r);
                                PageListParse.page :=
                                  Some (row_number r) |})
                     rows).
  { eapply Forall_impl; [|exact Hrows]. intros r. apply item_cfi_row. }
  split; [exact Hitems|].
  unfold PageListParse.constructor, PageListParse.parse.
  rewrite (each_rows _ row_li _ rows Hitems). cbn [bind].
  rewrite (as_items_rows _
             (fun r => {| PageList.cfi := Some (row_frag r);
                          PageList.href := row_href r;
                          PageList.page := row_number r |}))
    by reflexivity.
  eexists. split; [reflexivity|].
  match goal with
  | |- context [PageList.constructor ?l] =>
      destruct (constructor_lists l) as (Hpages & Hlocs & _)
  end.
  rewrite Hpages, map_map. split; [reflexivity|].
  apply map_Some_injective. rewrite Hlocs, !map_map; [reflexivity|].
  apply Forall_map. eapply Forall_impl; [|exact Hrows].
  intros r (_ & _ & Hne & _). unfold PageList.has_cfi. cbn.
  now destruct (row_frag r).
Qed.

Lemma nav_page_list_witness :
  exists self,
    PageListParse.constructor
      (Some (PageListParse.Html (map row_li sample_nav)))
    = Ok (Some self)
    /\ PageList.pages self = [1; 2]
    /\ PageList.locations self = [cfi_A; cfi_B].
Proof.
  apply (nav_page_list sample_nav).
  repeat constructor; try discriminate.
Defined.

Lemma percentage_below_first (self : PageList.t) (f n pg : Z) :
  PageList.firstPage self = Some f ->
  PageList.totalPages self = Some n ->
  0 < n -> pg <= f ->
  exists p, PageList.percentageFromPage self pg = Some p /\ (p <= 0)%Q.
Proof.
  intros Hf Hn Hpos Hpg. unfold PageList.percentageFromPage.
  rewrite Hf, Hn.
  destruct (n =? 0) eqn:Hz; [apply Z.eqb_eq in Hz; lia|].
  eexists. split; [reflexivity|].
  assert (Hx : (inject_Z (pg - f) / inject_Z n <= 0)%Q).
  { apply Qle_shift_div_r.
    - change 0%Q with (inject_Z 0). rewrite <- Zlt_Qlt. lia.
    - rewrite Qmult_0_l. change 0%Q with (inject_Z 0).
      rewrite <- Zle_Qle. lia. }
  set (x := (inject_Z (pg - f) / inject_Z n)%Q) in *.
  assert (Hr : JS.Math_round (x * 1000) <= 0).
  { unfold JS.Math_round.
    change 0 with (Qfloor (1 # 2)). apply Qfloor_resp_le. lra. }
  apply Qle_shift_div_r; [reflexivity|]. rewrite Qmult_0_l.
  change 0%Q with (inject_Z 0). now rewrite <- Zle_Qle.
Qed.

Lemma ncxItem_row (r : ncx_row) :
  numbered r ->
  PageListParse.ncxItem (row_target r)
  = Ok {| PageListParse.cfi := None;
          PageListParse.href := target_src r;
          PageListParse.packageUrl := None;
          PageListParse.page := Some (target_number r) |}.
Proof.
  intros H. unfold PageListParse.ncxItem, row_target. cbn.
  unfold numbered in H. now rewrite H.
Qed.

(** X14.  A page list read from an NCX document holds pages and no
    locations, since [ncxItem] gives its entries no CFI: for [pageTarget]
    elements whose labels read as numbers the constructor ends with the
    numbers as [pages] and an empty [locations]; [pageFromCfi] then
    answers -1 for every CFI, [cfiFromPage] never answers with a CFI, and
    [percentageFromCfi] is the percentage of page -1, a number that is
    not positive when the first page is not negative and below the last
    one. *)
Theorem ncx_page_list {E : CfiEngine} (rows : list ncx_row) :
  Forall numbered rows ->
  exists self,
    PageListParse.constructor
      (Some (PageListParse.Ncx (map row_target rows)))
    = Ok (Some self)
    /\ PageList.pages self = map target_number rows
    /\ PageList.locations self = []
    /\ (forall cfi, PageList.pageFromCfi self cfi = Some (-1))
    /\ (forall pg s,
          PageListQueries.cfiFromPage self pg
          <> Some (Locations.CfiText s))
    /\ (forall cfi,
          PageListQueries.percentageFromCfi self cfi
          = PageList.percentageFromPage self (-1))
    /\ (forall cfi f l,
          PageList.firstPage self = Some f ->
          PageList.lastPage self = Some l ->
          0 <= f < l ->
          exists p,
            PageListQueries.percentageFromCfi self cfi = Some p
            /\ (p <= 0)%Q).
Proof.
  intros Hrows.
  assert (Hitems : Forall
                     (fun r =>
                        PageListParse.ncxItem (row_target r)
                        = Ok {| PageListParse.cfi := None;
                                PageListParse.href := target_src r;
                                PageListParse.packageUrl := None;
                                PageListParse.page :=
                                  Some (target_number r) |})
                     rows).
  { eapply Forall_impl; [|exact Hrows]. intros r. apply ncxItem_row. }
  unfold PageListParse.constructor, PageListParse.parse.
  rewrite (each_rows _ row_target _ rows Hitems). cbn [bind].
  rewrite (as_items_rows _
             (fun r => {| PageList.cfi := None;
                          PageList.href :=
                            PageListParse.or_empty (target_src r);
                          PageList.page := target_number r |}))
    by reflexivity.
  eexists. split; [reflexivity|].
  match goal with
  | |- context [PageList.constructor ?l] =>
      set (self := PageList.constructor l);
      destruct (constructor_lists l) as (Hpages & _ & Hlocs)
  end.
  fold self in Hpages, Hlocs.
  assert (Hnone : PageList.locations self = []).
  { apply Hlocs. apply Forall_map. apply Forall_forall. reflexivity. }
  assert (Hpage : forall cfi, PageList.pageFromCfi self cfi = Some (-1)).
  { intros cfi. unfold PageList.pageFromCfi. now rewrite Hnone. }
  assert (Hpercent : forall cfi,
             PageListQueries.percentageFromCfi self cfi
             = PageList.percentageFromPage self (-1)).
  { intros cfi. unfold PageListQueries.percentageFromCfi.
    now rewrite Hpage. }
  split; [now rewrite Hpages, map_map|]. split; [exact Hnone|].
  split; [exact Hpage|]. split; [|split; [exact Hpercent|]].
  - intros pg s. unfold PageListQueries.cfiFromPage. rewrite Hnone.
    destruct (negb _); [|discriminate].
    unfold JS.index. destruct (_ <? 0); [discriminate|].
    destruct (Z.to_nat _); discriminate.
  - intros cfi f l Hf Hl Hfl. rewrite Hpercent.
    assert (Htotal : PageList.totalPages self = Some (l - f)).
    { revert Hf Hl. unfold self, PageList.constructor.
      destruct (JS.length _ =? 0); cbn [negb].
      - cbn. intros Hf Hl. injection Hf as <-. injection Hl as <-. lia.
      - unfold PageList.process.
        destruct (PageList.push_all _ _ _) as [pgs locs]. cbn.
        intros -> ->. reflexivity. }
    apply (percentage_below_first self f (l - f)); try assumption; lia.
Qed.

Lemma ncx_page_list_witness :
  exists self,
    PageListParse.constructor
      (Some (PageListParse.Ncx (map row_target sample_ncx)))
    = Ok (Some self)
    /\ PageList.pages self = [1; 7]
    /\ PageList.locations self = []
    /\ PageList.pageFromCfi (E := StringEngine) self cfi_A = Some (-1)
    /\ exists p,
         PageListQueries.percentageFromCfi (E := StringEngine) self cfi_A
         = Some p
         /\ (p <= 0)%Q.
Proof.
  destruct (ncx_page_list (E := StringEngine) sample_ncx)
    as (self & Hself & Hpages & Hlocs & Hpage & _ & _ & Hpercent).
  - repeat constructor.
  - exists self. split; [exact Hself|]. split; [exact Hpages|].
    split; [exact Hlocs|]. split; [apply Hpage|].
    apply (Hpercent cfi_A 1 7); [| |lia].
    + cbn in Hself. injection Hself as <-. reflexivity.
    + cbn in Hself. injection Hself as <-. reflexivity.
Defined.

(** ** The spine *)

Section SpineProperties.
Context {E : CfiEngine}.
Variable spinePos : string -> option Z.
Variable isNaN : string -> bool.
Variable encodeURI : string -> string.
Variable decodeURI : string -> option string.

Local Abbreviation append_all := (Spine.append_all encodeURI decodeURI).
Local Abbreviation get := (Spine.get spinePos isNaN encodeURI).

Lemma append_all_items (sections : list Spine.section) :
  Forall (fun s => decodeURI (Spine.href s) <> None) sections ->
  forall self : Spine.t,
    exists self',
      append_all self sections = Some self'
      /\ Spine.spineItems self'
         = Spine.spineItems self
           ++ reindexed sections (JS.length (Spine.spineItems self)).
Proof.
  induction 1 as [|s rest Hs _ IH]; intros self.
  - exists self. cbn. now rewrite app_nil_r.
  - cbn [Spine.append_all]. unfold Spine.append.
    cbn [Spine.href Spine.with_index].
    destruct (decodeURI (Spine.href s)) as [decoded|]; [|congruence].
    match goal with
    | |- context [append_all ?s1 rest] =>
        destruct (IH s1) as (self' & Hrun & Hitems)
    end.
    exists self'. split; [exact Hrun|]. rewrite Hitems.
    cbn [Spine.spineItems reindexed]. rewrite length_app, <- app_assoc.
    reflexivity.
Qed.

Lemma index_reindexed (sections : list Spine.section) :
  forall (start i : Z) (s : Spine.section),
    JS.index sections i = Some s ->
    JS.index (reindexed sections start) i
    = Some (Spine.with_index s (start + i)).
Proof.
  induction sections as [|x rest IH]; intros start i s Hi.
  - unfold JS.index in Hi. destruct (i <? 0); [discriminate|].
    now destruct (Z.to_nat i).
  - unfold JS.index in *. destruct (i <? 0) eqn:Hneg; [discriminate|].
    apply Z.ltb_ge in Hneg. cbn [reindexed].
    destruct (Z.to_nat i) as [|m] eqn:Hm.
    + cbn in *. injection Hi as ->. do 2 f_equal. lia.
    + cbn [nth_error] in *. specialize (IH (start + 1) (i - 1) s).
      destruct (i - 1 <? 0) eqn:Hneg'; [apply Z.ltb_lt in Hneg'; lia|].
      replace (Z.to_nat (i - 1)) with m in IH by lia.
      rewrite (IH Hi). do 2 f_equal. lia.
Qed.

Lemma length_reindexed (sections : list Spine.section) :
  forall start, JS.length (reindexed sections start) = JS.length sections.
Proof.
  induction sections as [|x rest IH]; intros start; [reflexivity|].
  cbn [reindexed]. unfold JS.length in *. cbn [List.length].
  specialize (IH (start + 1)). lia.
Qed.

Lemma items_reindexed (sections : list Spine.section) :
  forall start,
    map Spine.item (reindexed sections start) = map Spine.item sections.
Proof.
  induction sections as [|x rest IH]; intros start; [reflexivity|].
  cbn [reindexed map]. now rewrite IH.
Qed.

Lemma index_out_of_range {A : Type} (l : list A) (i : Z) :
  i < 0 \/ JS.length l <= i -> JS.index l i = None.
Proof.
  intros H. unfold JS.index. destruct (i <? 0) eqn:Hneg; [reflexivity|].
  apply Z.ltb_ge in Hneg. apply nth_error_None. unfold JS.length in H.
  lia.
Qed.

(** X15.  A spine filled by [append], as [unpack] fills it, with section
    objects that differ from one another and whose addresses [decodeURI]
    accepts: every section gets its position as [index], [get] with a
    number from 0 to the count minus one answers with the section at that
    position, with any other number with [null], and [each] goes through
    the sections in the order they were appended. *)
Theorem append_get (sections : list Spine.section) :
  NoDup (map Spine.section_id sections) ->
  Forall (fun s => decodeURI (Spine.href s) <> None) sections ->
  exists spine,
    append_all Spine.constructor sections = Some spine
    /\ Spine.spineItems spine = reindexed sections 0
    /\ JS.length (Spine.spineItems spine) = JS.length sections
    /\ (forall i s,
          JS.index sections i = Some s ->
          get spine (Spine.Number i) = Some (Spine.with_index s i)
          /\ Spine.index (Spine.with_index s i) = i)
    /\ (forall i,
          i < 0 \/ JS.length sections <= i ->
          get spine (Spine.Number i) = None)
    /\ Spine.each spine = map Spine.item sections.
Proof.
  intros _ Hdecode.
  destruct (append_all_items sections Hdecode Spine.constructor)
    as (spine & Hrun & Hitems).
  cbn in Hitems. exists spine. split; [exact Hrun|].
  split; [exact Hitems|]. split; [|split; [|split]].
  - rewrite Hitems. apply length_reindexed.
  - intros i s Hi. split; [|reflexivity].
    unfold Spine.get. rewrite Hitems.
    now rewrite (index_reindexed sections 0 i s Hi).
  - intros i Hi. unfold Spine.get. apply index_out_of_range.
    now rewrite Hitems, length_reindexed.
  - unfold Spine.each. rewrite Hitems. apply items_reindexed.
Qed.

Lemma first_linear_find (rest : list Spine.section) :
  forall (before : list Spine.section) (fuel : nat),
    (List.length rest <= fuel)%nat ->
    JS.index (before ++ rest)
      (Spine.first_linear fuel (before ++ rest) (JS.length before))
    = find is_linear rest.
Proof.
  induction rest as [|x rest IH]; intros before fuel Hfuel.
  - rewrite app_nil_r.
    assert (Hend : Spine.first_linear fuel before (JS.length before)
                   = JS.length before).
    { destruct fuel; cbn [Spine.first_linear]; now rewrite Z.ltb_irrefl. }
    rewrite Hend. apply index_out_of_range. lia.
  - destruct fuel as [|fuel]; [cbn in Hfuel; lia|].
    cbn [Spine.first_linear find].
    assert (Hlt : (JS.length before <? JS.length (before ++ x :: rest))
                  = true).
    { apply Z.ltb_lt. rewrite length_app. unfold JS.length.
      cbn [List.length]. lia. }
    assert (Hat : JS.index (before ++ x :: rest) (JS.length before)
                  = Some x).
    { rewrite index_app_right by lia. now rewrite Z.sub_diag. }
    rewrite Hlt, Hat. unfold is_linear at 1.
    destruct (linear (Spine.item x)); [exact Hat|].
    specialize (IH (before ++ [x]) fuel).
    rewrite <- app_assoc, length_app in IH. cbn [app] in IH.
    apply IH. cbn in Hfuel. lia.
Qed.

Lemma first_from_find (self : Spine.t) (rest : list Spine.section) :
  forall (before : list Spine.section) (fuel : nat),
    Spine.spineItems self = before ++ rest ->
    (List.length rest <= fuel)%nat ->
    Spine.first_from spinePos isNaN encodeURI fuel self (JS.length before)
    = find is_linear rest.
Proof.
  induction rest as [|x rest IH]; intros before fuel Hitems Hfuel.
  - assert (Hnone : get self (Spine.Number (JS.length before)) = None).
    { unfold Spine.get. apply index_out_of_range. rewrite Hitems.
      rewrite app_nil_r. lia. }
    assert (Hend : (JS.length before + 1 <? JS.length (Spine.spineItems self))
                   = false).
    { apply Z.ltb_ge. rewrite Hitems, app_nil_r. lia. }
    destruct fuel; cbn [Spine.first_from]; now rewrite Hnone, Hend.
  - assert (Hat : get self (Spine.Number (JS.length before)) = Some x).
    { unfold Spine.get. rewrite Hitems, index_app_right by lia.
      now rewrite Z.sub_diag. }
    destruct fuel as [|fuel]; [cbn in Hfuel; lia|].
    cbn [Spine.first_from find]. rewrite Hat. unfold is_linear at 1.
    destruct (linear (Spine.item x)); [reflexivity|].
    destruct rest as [|y rest].
    + assert (Hend : (JS.length before + 1
                      <? JS.length (Spine.spineItems self)) = false).
      { apply Z.ltb_ge. rewrite Hitems, length_app. unfold JS.length.
        cbn [List.length]. lia. }
      now rewrite Hend.
    + assert (Hmore : (JS.length before + 1
                       <? JS.length (Spine.spineItems self)) = true).
      { apply Z.ltb_lt. rewrite Hitems, length_app. unfold JS.length.
        cbn [List.length]. lia. }
      rewrite Hmore.
      specialize (IH (before ++ [x]) fuel).
      rewrite length_app in IH. apply IH.
      * now rewrite <- app_assoc.
      * cbn in Hfuel. cbn. lia.
Qed.

Lemma last_from_find (self : Spine.t) (before : list Spine.section) :
  forall (rest : list Spine.section) (fuel : nat),
    Spine.spineItems self = before ++ rest ->
    (List.length before <= fuel)%nat ->
    Spine.last_from spinePos isNaN encodeURI fuel self
      (JS.length before - 1)
    = find is_linear (rev before).
Proof.
  induction before as [|x before IH] using rev_ind;
    intros rest fuel Hitems Hfuel.
  - assert (Hnone : get self (Spine.Number (JS.length (@nil Spine.section) - 1))
                    = None).
    { unfold Spine.get. apply index_out_of_range. left.
      unfold JS.length. cbn. lia. }
    destruct fuel; cbn [Spine.last_from]; rewrite Hnone; reflexivity.
  - rewrite rev_app_distr. cbn [rev app find].
    rewrite length_app.
    replace (JS.length before + JS.length [x] - 1) with (JS.length before)
      by (unfold JS.length; cbn [List.length]; lia).
    assert (Hat : get self (Spine.Number (JS.length before)) = Some x).
    { unfold Spine.get. rewrite Hitems, <- app_assoc.
      rewrite index_app_right by lia. now rewrite Z.sub_diag. }
    rewrite List.length_app in Hfuel. cbn [List.length] in Hfuel.
    destruct fuel as [|fuel]; [lia|].
    cbn [Spine.last_from]. rewrite Hat. unfold is_linear at 1.
    destruct (linear (Spine.item x)); [reflexivity|].
    destruct (JS.length before - 1 >=? 0) eqn:Hge.
    + apply (IH ([x] ++ rest)); [now rewrite Hitems, <- app_assoc | lia].
    + rewrite Z.geb_leb in Hge. apply Z.leb_gt in Hge.
      assert (Hnil : before = []).
      { destruct before; [reflexivity|]. unfold JS.length in Hge.
        cbn [List.length] in Hge. lia. }
      now rewrite Hnil.
Qed.

Lemma spine_ends (self : Spine.t) :
  get self Spine.Undefined = find is_linear (Spine.spineItems self)
  /\ Spine.first spinePos isNaN encodeURI self
     = find is_linear (Spine.spineItems self)
  /\ Spine.last spinePos isNaN encodeURI self
     = find is_linear (rev (Spine.spineItems self)).
Proof.
  split; [|split].
  - unfold Spine.get.
    apply (first_linear_find (Spine.spineItems self) []). lia.
  - unfold Spine.first.
    apply (first_from_find self (Spine.spineItems self) []);
      [reflexivity | lia].
  - unfold Spine.last.
    apply (last_from_find self (Spine.spineItems self) []);
      [now rewrite app_nil_r | lia].
Qed.

(** X16.  On every spine, [get] without a target and [first] give the
    first linear section of [spineItems], and [last] gives the last one;
    without a linear section all three give nothing ([null] from [get],
    [undefined] from [first] and [last]). *)
Theorem first_last_linear (self : Spine.t) :
  get self Spine.Undefined = find is_linear (Spine.spineItems self)
  /\ Spine.first spinePos isNaN encodeURI self
     = find is_linear (Spine.spineItems self)
  /\ Spine.last spinePos isNaN encodeURI self
     = find is_linear (rev (Spine.spineItems self)).
Proof. apply spine_ends. Qed.

(** *** The dictionaries *)

Lemma lookup_assign_same (d : Spine.dict) (key : string) (v : Z) :
  key <> "__proto__"%string ->
  Spine.lookup (Spine.assign d key v) key = Some v.
Proof.
  intros Hkey. unfold Spine.assign.
  apply String.eqb_neq in Hkey. rewrite Hkey. cbn [Spine.lookup].
  now rewrite String.eqb_refl.
Qed.

Lemma lookup_assign_other (d : Spine.dict) (key other : string) (v : Z) :
  other <> key ->
  Spine.lookup (Spine.assign d other v) key = Spine.lookup d key.
Proof.
  intros Hother. unfold Spine.assign.
  destruct (String.eqb other "__proto__"); [reflexivity|].
  cbn [Spine.lookup]. apply String.eqb_neq in Hother. now rewrite Hother.
Qed.

Lemma lookup_delete_other (d : Spine.dict) (key other : string) :
  other <> key ->
  Spine.lookup (Spine.delete d other) key = Spine.lookup d key.
Proof.
  intros Hother. unfold Spine.delete.
  induction d as [|[k v] d IH]; [reflexivity|].
  cbn [filter fst]. destruct (String.eqb k other) eqn:Hk.
  - apply String.eqb_eq in Hk. subst k. cbn [negb Spine.lookup].
    apply String.eqb_neq in Hother. now rewrite Hother.
  - cbn [negb Spine.lookup]. now rewrite IH.
Qed.

Lemma lookup_delete_same (d : Spine.dict) (key : string) :
  Spine.lookup (Spine.delete d key) key = None.
Proof.
  unfold Spine.delete. induction d as [|[k v] d IH]; [reflexivity|].
  cbn [filter fst]. destruct (String.eqb k key) eqn:Hk.
  - exact IH.
  - cbn [negb Spine.lookup]. now rewrite Hk.
Qed.

(** A key that no section of the list is filed under is left as it
    was. *)
Lemma append_all_id_other (key : string) (sections : list Spine.section) :
  forall self self' : Spine.t,
    append_all self sections = Some self' ->
    ~ In key (map Spine.idref sections) ->
    Spine.lookup (Spine.spineById self') key
    = Spine.lookup (Spine.spineById self) key.
Proof.
  induction sections as [|s rest IH]; intros self self' Hrun Hout.
  - cbn in Hrun. now injection Hrun as <-.
  - cbn [Spine.append_all] in Hrun. unfold Spine.append in Hrun.
    destruct (decodeURI _); [|discriminate].
    rewrite (IH _ _ Hrun) by (intros H; apply Hout; now right).
    cbn [Spine.spineById]. apply lookup_assign_other.
    intros H. apply Hout. left. exact H.
Qed.

Lemma append_all_href_other (key : string) (sections : list Spine.section) :
  forall self self' : Spine.t,
    append_all self sections = Some self' ->
    Forall (fun s => ~ In key (href_keys encodeURI decodeURI s)) sections ->
    Spine.lookup (Spine.spineByHref self') key
    = Spine.lookup (Spine.spineByHref self) key.
Proof.
  induction sections as [|s rest IH]; intros self self' Hrun Hout.
  - cbn in Hrun. now injection Hrun as <-.
  - inversion Hout as [|? ? Hs Hrest]; subst.
    cbn [Spine.append_all] in Hrun. unfold Spine.append in Hrun.
    unfold href_keys in Hs. cbn [Spine.href Spine.with_index] in Hrun.
    destruct (decodeURI (Spine.href s)) as [decoded|]; [|discriminate].
    rewrite (IH _ _ Hrun Hrest). cbn [Spine.spineByHref].
    rewrite !lookup_assign_other; [reflexivity | | |];
      intros H; apply Hs; cbn; auto.
Qed.

Lemma append_all_found (before after : list Spine.section)
    (s : Spine.section) (spine : Spine.t) :
  append_all Spine.constructor (before ++ s :: after) = Some spine ->
  Spine.spineItems spine = reindexed (before ++ s :: after) 0
  /\ (Spine.idref s <> "__proto__"%string ->
      ~ In (Spine.idref s) (map Spine.idref after) ->
      Spine.lookup (Spine.spineById spine) (Spine.idref s)
      = Some (JS.length before))
  /\ (forall key,
        key <> "__proto__"%string ->
        In key (href_keys encodeURI decodeURI s) ->
        Forall (fun x => ~ In key (href_keys encodeURI decodeURI x)) after ->
        Spine.lookup (Spine.spineByHref spine) key
        = Some (JS.length before)).
Proof.
  intros Hrun.
  assert (Hsplit : forall sections self self',
             append_all self (sections ++ s :: after) = Some self' ->
             exists self1 self2,
               append_all self sections = Some self1
               /\ Spine.append encodeURI decodeURI self1 s
                  = Some (JS.length (Spine.spineItems self1), self2)
               /\ append_all self2 after = Some self').
  { induction sections as [|x sections IH]; intros self self' H.
    - cbn [app Spine.append_all] in H.
      destruct (Spine.append encodeURI decodeURI self s) as [[n self2]|]
        eqn:Happ; [|discriminate].
      exists self, self2. split; [reflexivity|]. split; [|exact H].
      rewrite Happ. unfold Spine.append in Happ.
      destruct (decodeURI _); [|discriminate]. now injection Happ as <- _.
    - cbn [app Spine.append_all] in H |- *.
      destruct (Spine.append encodeURI decodeURI self x) as [[n self0]|];
        [|discriminate].
      now apply IH. }
  destruct (Hsplit before Spine.constructor spine Hrun)
    as (self1 & self2 & Hbefore & Happ & Hafter).
  assert (Hdecode : Forall (fun x => decodeURI (Spine.href x) <> None)
                      (before ++ s :: after)).
  { clear - Hrun. revert Hrun. generalize Spine.constructor.
    induction (before ++ s :: after) as [|x l IH]; intros self H;
      [constructor|].
    cbn [Spine.append_all] in H. unfold Spine.append in H.
    cbn [Spine.href Spine.with_index] in H.
    destruct (decodeURI (Spine.href x)) eqn:Hx; [|discriminate].
    constructor; [congruence | now apply (IH _ H)]. }
  destruct (append_all_items _ Hdecode Spine.constructor)
    as (spine' & Hrun' & Hitems).
  rewrite Hrun in Hrun'. injection Hrun' as <-. cbn in Hitems.
  split; [exact Hitems|].
  assert (Hlen1 : JS.length (Spine.spineItems self1) = JS.length before).
  { apply Forall_app in Hdecode as [Hd _].
    destruct (append_all_items _ Hd Spine.constructor)
      as (self1' & Hrun1 & Hitems1).
    rewrite Hbefore in Hrun1. injection Hrun1 as <-.
    rewrite Hitems1. cbn. apply length_reindexed. }
  unfold Spine.append in Happ. cbn [Spine.href Spine.with_index] in Happ.
  unfold href_keys.
  destruct (decodeURI (Spine.href s)) as [decoded|]; [|discriminate].
  injection Happ as Hself2. split.
  - intros Hkey Hout.
    rewrite (append_all_id_other _ _ _ _ Hafter Hout), <- Hself2.
    cbn [Spine.spineById Spine.idref Spine.with_index].
    rewrite lookup_assign_same by assumption. now rewrite Hlen1.
  - intros key Hkey Hin Hout.
    rewrite (append_all_href_other _ _ _ _ Hafter Hout), <- Hself2.
    cbn [Spine.spineByHref]. rewrite Hlen1.
    destruct (string_dec (Spine.href s) key) as [-> | Hne1].
    { now apply lookup_assign_same. }
    rewrite lookup_assign_other by assumption.
    destruct (string_dec (encodeURI (Spine.href s)) key) as [-> | Hne2].
    { now apply lookup_assign_same. }
    rewrite lookup_assign_other by assumption.
    destruct Hin as [-> | [Hin | [Hin | []]]]; try congruence.
    now apply lookup_assign_same.
Qed.

Lemma prefix_correct_refl (s rest : string) :
  String.prefix s (s ++ rest) = true.
Proof.
  induction s as [|c s IH]; [now destruct rest|].
  cbn. destruct (ascii_dec c c); [exact IH | congruence].
Qed.

Lemma indexOf_leading (c : ascii) (rest : string) :
  JSString.indexOf (String c rest) (String c EmptyString) = 0.
Proof.
  unfold JSString.indexOf. cbn [JSString.indexOf_from].
  change (String c rest) with (String c EmptyString ++ rest)%string.
  now rewrite prefix_correct_refl.
Qed.

Lemma substring_tail (rest : string) :
  String.substring 0 (String.length rest) rest = rest.
Proof.
  induction rest as [|c rest IH]; [reflexivity|]. cbn. now rewrite IH.
Qed.

Lemma substring_after_first (c : ascii) (rest : string) :
  String.substring 1 (String.length (String c rest) - 1) (String c rest)
  = rest.
Proof.
  cbn [String.length]. rewrite Nat.sub_succ, Nat.sub_0_r.
  cbn [String.substring]. apply substring_tail.
Qed.

Lemma indexOf_hash_later (c : ascii) (rest : string) :
  Ascii.eqb c "#" = false ->
  JSString.indexOf (String c rest) "#" <> 0.
Proof.
  intros Hc. unfold JSString.indexOf. cbn [JSString.indexOf_from].
  assert (Hp : String.prefix "#" (String c rest) = false).
  { cbn [String.prefix].
    destruct (ascii_dec "#" c) as [<- | _]; [|reflexivity].
    rewrite Ascii.eqb_refl in Hc. discriminate. }
  rewrite Hp.
  assert (Hfrom : forall s i, 0 < i -> JSString.indexOf_from s "#" i <> 0).
  { clear. induction s as [|a s IH]; intros i Hi; cbn [JSString.indexOf_from].
    - cbn. lia.
    - destruct (String.prefix "#" (String a s)); [lia|].
      apply IH. lia. }
  apply Hfrom. lia.
Qed.

(** X17.  Looking a section up by its identifier or its address, on a
    spine filled by [append] from an empty one.  For a target that is no
    CFI string and no number: ["#"] followed by the [idref] of a section
    finds that section when no later section has the same identifier,
    and the address of a section, with or without a fragment after it,
    finds that section when no later section is filed under the address
    or its encoded form; of several sections with one identifier or
    address the last one appended is found.  The keys in question are not
    [__proto__]. *)
Theorem get_by_id_and_href (before after : list Spine.section)
    (s : Spine.section) (spine : Spine.t) :
  append_all Spine.constructor (before ++ s :: after) = Some spine ->
  let found := Some (Spine.with_index s (JS.length before)) in
  (forall target,
      target = String "#" (Spine.idref s) ->
      isCfiString (cfiString target) = false ->
      isNaN target = true ->
      Spine.idref s <> "__proto__"%string ->
      ~ In (Spine.idref s) (map Spine.idref after) ->
      get spine (Spine.Text target) = found)
  /\ (forall target fragment,
        target = Spine.href s
        \/ target = (Spine.href s ++ String "#" fragment)%string ->
        isCfiString (cfiString target) = false ->
        isNaN target = true ->
        no_hash (Spine.href s) = true ->
        Spine.href s <> EmptyString ->
        Spine.href s <> "__proto__"%string ->
        encodeURI (Spine.href s) <> "__proto__"%string ->
        Forall
          (fun x =>
             ~ In (Spine.href s) (href_keys encodeURI decodeURI x)
             /\ ~ In (encodeURI (Spine.href s))
                  (href_keys encodeURI decodeURI x))
          after ->
        get spine (Spine.Text target) = found).
Proof.
  intros Hrun found.
  destruct (append_all_found before after s spine Hrun)
    as (Hitems & Hid & Hhref).
  assert (Hat : JS.index (Spine.spineItems spine) (JS.length before)
                = found).
  { rewrite Hitems.
    rewrite (index_reindexed (before ++ s :: after) 0 (JS.length before) s).
    - reflexivity.
    - rewrite index_app_right by lia. now rewrite Z.sub_diag. }
  split.
  - intros target -> Hcfi Hnan Hkey Hlater. unfold Spine.get.
    rewrite Hcfi, Hnan. cbn [negb].
    rewrite indexOf_leading, substring_after_first. cbn [Z.eqb].
    now rewrite (Hid Hkey Hlater).
  - intros target fragment Htarget Hcfi Hnan Hhash Hne Hk1 Hk2 Hafter.
    unfold Spine.get. rewrite Hcfi, Hnan. cbn [negb].
    assert (Hfirst : exists c rest,
               Spine.href s = String c rest /\ Ascii.eqb c "#" = false).
    { destruct (Spine.href s) as [|c rest]; [congruence|].
      exists c, rest. split; [reflexivity|]. cbn [no_hash] in Hhash.
      apply andb_true_iff in Hhash as [Hc _]. now apply negb_true_iff. }
    destruct Hfirst as (c & rest & Hsplit & Hc).
    assert (Hpiece : match JSString.split target "#" with
                     | piece :: _ => piece
                     | [] => target
                     end = Spine.href s).
    { destruct Htarget as [-> | ->].
      - now rewrite split_no_hash.
      - now rewrite split_at_hash. }
    assert (Hlater : (JSString.indexOf target "#" =? 0) = false).
    { apply Z.eqb_neq. destruct Htarget as [-> | ->]; rewrite Hsplit.
      - now apply indexOf_hash_later.
      - cbn [append]. now apply indexOf_hash_later. }
    rewrite Hlater, Hpiece.
    assert (Hown : In (Spine.href s) (href_keys encodeURI decodeURI s)
                   /\ In (encodeURI (Spine.href s))
                        (href_keys encodeURI decodeURI s)).
    { unfold href_keys. destruct (decodeURI (Spine.href s)); cbn; auto. }
    rewrite (Hhref (Spine.href s) Hk1 (proj1 Hown))
      by (eapply Forall_impl; [|exact Hafter]; cbn; tauto).
    rewrite (Hhref (encodeURI (Spine.href s)) Hk2 (proj2 Hown))
      by (eapply Forall_impl; [|exact Hafter]; cbn; tauto).
    unfold Spine.or_else. destruct (JS.truthy (JS.length before));
      exact Hat.
Qed.

(** *** [remove] and [prepend] *)

Lemma indexOf_from_reindexed (before after : list Spine.section)
    (s : Spine.section) :
  NoDup (map Spine.section_id (before ++ s :: after)) ->
  forall start i j,
    Spine.indexOf_from (reindexed (before ++ s :: after) start)
      (Spine.with_index s j) i
    = i + JS.length before.
Proof.
  induction before as [|x before IH]; intros Hnd start i j.
  - cbn. rewrite Nat.eqb_refl. unfold JS.length. cbn. lia.
  - cbn [app map] in Hnd. inversion Hnd as [|? ? Hx Hrest]; subst.
    cbn [app reindexed Spine.indexOf_from Spine.section_id
         Spine.with_index].
    destruct (Spine.section_id x =? Spine.section_id s)%nat eqn:Hid.
    + apply Nat.eqb_eq in Hid. exfalso. apply Hx. rewrite map_app.
      apply in_or_app. right. left. now symmetry.
    + rewrite (IH Hrest). unfold JS.length. cbn [List.length]. lia.
Qed.

Lemma reindexed_app (first second : list Spine.section) :
  forall start,
    reindexed (first ++ second) start
    = reindexed first start ++ reindexed second (start + JS.length first).
Proof.
  induction first as [|x first IH]; intros start.
  - cbn [app reindexed]. f_equal. unfold JS.length. cbn. lia.
  - cbn [app reindexed]. rewrite IH.
    replace (start + JS.length (x :: first))
      with (start + 1 + JS.length first)
      by (unfold JS.length; cbn [List.length]; lia).
    reflexivity.
Qed.

Lemma splice_one_middle (first second : list Spine.section)
    (x : Spine.section) (i : Z) :
  i = JS.length first ->
  Spine.splice_one (first ++ x :: second) i = first ++ second.
Proof.
  intros ->. unfold Spine.splice_one, JS.length. rewrite Nat2Z.id.
  rewrite firstn_app, Nat.sub_diag, firstn_all. cbn [firstn].
  rewrite app_nil_r. f_equal.
  change (S (List.length first)) with (1 + List.length first)%nat.
  rewrite <- skipn_skipn.
  rewrite skipn_app, Nat.sub_diag, skipn_all. reflexivity.
Qed.

(** X18.  [remove] takes a section out of [spineItems] and its address
    and identifier out of the dictionaries, and renumbers nothing: on a
    spine filled by [append] with section objects that differ from one
    another, a section that stood after the removed one sits one position
    lower and keeps the [index] and the dictionary entry of its old
    position, so that [get] with its identifier answers with the section
    that follows it, or with [null] if it is the last one. *)
Theorem remove_renumbers_nothing (before between after : list Spine.section)
    (s x : Spine.section) (spine : Spine.t) :
  append_all Spine.constructor (before ++ s :: between ++ x :: after)
  = Some spine ->
  NoDup (map Spine.section_id (before ++ s :: between ++ x :: after)) ->
  let removed := Spine.remove spine (Spine.with_index s (JS.length before)) in
  let position := JS.length before + JS.length between in
  Spine.spineItems removed
  = reindexed before 0
    ++ reindexed (between ++ x :: after) (JS.length before + 1)
  /\ get removed (Spine.Number position)
     = Some (Spine.with_index x (position + 1))
  /\ (forall target,
        target = String "#" (Spine.idref x) ->
        isCfiString (cfiString target) = false ->
        isNaN target = true ->
        Spine.idref x <> "__proto__"%string ->
        Spine.idref x <> Spine.idref s ->
        ~ In (Spine.idref x) (map Spine.idref after) ->
        get removed (Spine.Text target)
        = JS.index (reindexed after (position + 2)) 0).
Proof.
  intros Hrun Hnd removed position.
  destruct (append_all_found before (between ++ x :: after) s spine Hrun)
    as (Hitems & _ & _).
  assert (Hrun' : append_all Spine.constructor
                    ((before ++ s :: between) ++ x :: after) = Some spine)
    by (now rewrite <- app_assoc).
  destruct (append_all_found (before ++ s :: between) after x spine Hrun')
    as (_ & Hid & _).
  assert (Hremoved : Spine.spineItems removed
                     = reindexed before 0
                       ++ reindexed (between ++ x :: after)
                            (JS.length before + 1)).
  { unfold removed, Spine.remove. rewrite Hitems.
    rewrite (indexOf_from_reindexed before _ s Hnd 0 0).
    destruct (0 + JS.length before >? -1) eqn:Hgt.
    2:{ rewrite Z.gtb_ltb in Hgt. apply Z.ltb_ge in Hgt.
        unfold JS.length in Hgt. lia. }
    cbn [Spine.spineItems]. rewrite reindexed_app. cbn [reindexed].
    rewrite splice_one_middle by (rewrite length_reindexed; lia).
    now replace (0 + JS.length before + 1) with (JS.length before + 1)
      by lia. }
  assert (Hbetween : forall i,
             0 <= i ->
             JS.index (Spine.spineItems removed) (position + i)
             = JS.index (reindexed (x :: after) (position + 1)) i).
  { intros i Hi. rewrite Hremoved. unfold position.
    pose proof (length_reindexed before 0) as Hl1.
    pose proof (length_reindexed between (JS.length before + 1)) as Hl2.
    assert (Hn1 : 0 <= JS.length before) by (unfold JS.length; lia).
    assert (Hn2 : 0 <= JS.length between) by (unfold JS.length; lia).
    rewrite index_app_right by lia. rewrite Hl1, reindexed_app.
    rewrite index_app_right by lia. rewrite Hl2.
    replace (JS.length before + 1 + JS.length between)
      with (JS.length before + JS.length between + 1) by lia.
    f_equal. lia. }
  split; [exact Hremoved|]. split.
  - unfold Spine.get. replace position with (position + 0) at 1 by lia.
    rewrite Hbetween by lia. reflexivity.
  - intros target -> Hcfi Hnan Hkey Hne Hlater. unfold Spine.get.
    rewrite Hcfi, Hnan. cbn [negb].
    rewrite indexOf_leading, substring_after_first. cbn [Z.eqb].
    assert (Hlook : Spine.lookup (Spine.spineById removed) (Spine.idref x)
                    = Some (position + 1)).
    { unfold removed, Spine.remove. rewrite Hitems.
      rewrite (indexOf_from_reindexed before _ s Hnd 0 0).
      destruct (0 + JS.length before >? -1) eqn:Hgt.
      2:{ rewrite Z.gtb_ltb in Hgt. apply Z.ltb_ge in Hgt.
          unfold JS.length in Hgt. lia. }
      cbn [Spine.spineById Spine.idref Spine.with_index].
      rewrite lookup_delete_other by congruence.
      rewrite (Hid Hkey Hlater), length_app. unfold position.
      unfold JS.length. cbn [List.length]. f_equal. lia. }
    rewrite Hlook, Hbetween by lia. cbn [reindexed].
    replace (position + 1 + 1) with (position + 2) by lia.
    reflexivity.
Qed.

Lemma prepend_items (items : list Spine.section) :
  forall i,
    (fix reindex (items : list Spine.section) (i : Z)
       : list Spine.section :=
       match items with
       | [] => []
       | x :: rest => Spine.with_index x i :: reindex rest (i + 1)
       end) items i
    = reindexed items i.
Proof.
  induction items as [|x items IH]; intros i; [reflexivity|].
  cbn [reindexed]. now rewrite IH.
Qed.

Lemma section_ids_reindexed (items : list Spine.section) :
  forall i,
    map Spine.section_id (reindexed items i) = map Spine.section_id items.
Proof.
  induction items as [|x items IH]; intros i; [reflexivity|].
  cbn [reindexed map]. rewrite IH. reflexivity.
Qed.

(** X19.  [prepend] puts the section nowhere: [spineItems] holds the
    sections it held, renumbered from 0, and the address and the
    identifier of the section are filed under position 0, so that [get]
    with its identifier answers with the section that was first before,
    or with [null] on an empty spine. *)
Theorem prepend_inserts_nothing (self : Spine.t) (s : Spine.section) :
  let after := snd (Spine.prepend self s) in
  fst (Spine.prepend self s) = 0
  /\ Spine.spineItems after = reindexed (Spine.spineItems self) 0
  /\ map Spine.section_id (Spine.spineItems after)
     = map Spine.section_id (Spine.spineItems self)
  /\ (forall target,
        target = String "#" (Spine.idref s) ->
        isCfiString (cfiString target) = false ->
        isNaN target = true ->
        Spine.idref s <> "__proto__"%string ->
        get after (Spine.Text target)
        = JS.index (reindexed (Spine.spineItems self) 0) 0).
Proof.
  intros after.
  assert (Hitems : Spine.spineItems after
                   = reindexed (Spine.spineItems self) 0).
  { unfold after, Spine.prepend. cbn [snd Spine.spineItems].
    apply prepend_items. }
  split; [reflexivity|]. split; [exact Hitems|]. split.
  - rewrite Hitems. apply section_ids_reindexed.
  - intros target -> Hcfi Hnan Hkey. unfold Spine.get.
    rewrite Hcfi, Hnan. cbn [negb].
    rewrite indexOf_leading, substring_after_first. cbn [Z.eqb].
    unfold after at 1, Spine.prepend. cbn [snd Spine.spineById].
    rewrite lookup_assign_same by assumption. now rewrite Hitems.
Qed.

End SpineProperties.

Lemma append_get_witness :
  exists spine,
    Spine.append_all plain plain_decoded Spine.constructor sample_sections
    = Some spine
    /\ Spine.spineItems spine = reindexed sample_sections 0
    /\ JS.length (Spine.spineItems spine) = 3.
Proof.
  destruct (append_get (E := StringEngine) no_position never_a_number
              plain plain_decoded sample_sections)
    as (spine & Hrun & Hitems & Hlen & _).
  - repeat constructor; cbn; intuition discriminate.
  - repeat constructor; discriminate.
  - exists spine. auto.
Defined.

Lemma get_by_id_and_href_witness :
  exists spine,
    Spine.append_all plain plain_decoded Spine.constructor sample_sections
    = Some spine
    /\ Spine.get (E := StringEngine) no_position never_a_number plain spine
         (Spine.Text "#one")
       = JS.index (reindexed sample_sections 0) 1
    /\ Spine.get (E := StringEngine) no_position never_a_number plain spine
         (Spine.Text "one.xhtml#top")
       = JS.index (reindexed sample_sections 0) 1.
Proof.
  eexists. split; [reflexivity|].
  match goal with
  | |- Spine.get _ _ _ ?spine _ = _ /\ _ =>
      destruct (get_by_id_and_href (E := StringEngine) no_position
                  never_a_number plain plain_decoded
                  [ {| Spine.section_id := 1; Spine.index := 0;
                       Spine.href := "cover.xhtml"; Spine.idref := "cover";
                       Spine.item :=
                         {| linear := false; cfiBase := "/6/2";
                            body := sample_body |} |} ]
                  [ {| Spine.section_id := 3; Spine.index := 0;
                       Spine.href := "two.xhtml"; Spine.idref := "two";
                       Spine.item :=
                         {| linear := true; cfiBase := "/6/6";
                            body := sample_body |} |} ]
                  {| Spine.section_id := 2; Spine.index := 0;
                     Spine.href := "one.xhtml"; Spine.idref := "one";
                     Spine.item :=
                       {| linear := true; cfiBase := "/6/4";
                          body := sample_body |} |}
                  spine eq_refl) as [Hid Hhref]
  end.
  split.
  - apply Hid; try reflexivity; try discriminate.
    cbn. intuition discriminate.
  - apply (Hhref _ "top"%string); try reflexivity; try discriminate.
    + right. reflexivity.
    + repeat constructor; cbn; intuition discriminate.
Defined.

Lemma remove_renumbers_nothing_witness :
  exists spine,
    Spine.append_all plain plain_decoded Spine.constructor sample_sections
    = Some spine
    /\ Spine.get (E := StringEngine) no_position never_a_number plain
         (Spine.remove spine
            (Spine.with_index
               {| Spine.section_id := 1; Spine.index := 0;
                  Spine.href := "cover.xhtml"; Spine.idref := "cover";
                  Spine.item :=
                    {| linear := false; cfiBase := "/6/2";
                       body := sample_body |} |} 0))
         (Spine.Number 0)
       = JS.index (reindexed sample_sections 0) 1
    /\ Spine.get (E := StringEngine) no_position never_a_number plain
         (Spine.remove spine
            (Spine.with_index
               {| Spine.section_id := 1; Spine.index := 0;
                  Spine.href := "cover.xhtml"; Spine.idref := "cover";
                  Spine.item :=
                    {| linear := false; cfiBase := "/6/2";
                       body := sample_body |} |} 0))
         (Spine.Text "#one")
       = JS.index (reindexed sample_sections 0) 2.
Proof.
  eexists. split; [reflexivity|].
  match goal with
  | |- Spine.get _ _ _ (Spine.remove ?spine _) _ = _ /\ _ =>
      destruct (remove_renumbers_nothing (E := StringEngine) no_position
                  never_a_number plain plain_decoded [] []
                  [ {| Spine.section_id := 3; Spine.index := 0;
                       Spine.href := "two.xhtml"; Spine.idref := "two";
                       Spine.item :=
                         {| linear := true; cfiBase := "/6/6";
                            body := sample_body |} |} ]
                  {| Spine.section_id := 1; Spine.index := 0;
                     Spine.href := "cover.xhtml"; Spine.idref := "cover";
                     Spine.item :=
                       {| linear := false; cfiBase := "/6/2";
                          body := sample_body |} |}
                  {| Spine.section_id := 2; Spine.index := 0;
                     Spine.href := "one.xhtml"; Spine.idref := "one";
                     Spine.item :=
                       {| linear := true; cfiBase := "/6/4";
                          body := sample_body |} |}
                  spine eq_refl) as (_ & Hnumber & Hid)
  end.
  - cbn. repeat constructor; cbn; intuition discriminate.
  - split; [exact Hnumber|].
    apply Hid; try reflexivity; try discriminate.
    cbn. intuition discriminate.
Defined.

Lemma prepend_inserts_nothing_witness :
  Spine.get (E := StringEngine) no_position never_a_number plain
    (snd (Spine.prepend Spine.constructor
            {| Spine.section_id := 1; Spine.index := 0;
               Spine.href := "cover.xhtml"; Spine.idref := "cover";
               Spine.item :=
                 {| linear := false; cfiBase := "/6/2";
                    body := sample_body |} |}))
    (Spine.Text "#cover")
  = None.
Proof.
  destruct (prepend_inserts_nothing (E := StringEngine) no_position
              never_a_number plain Spine.constructor
              {| Spine.section_id := 1; Spine.index := 0;
                 Spine.href := "cover.xhtml"; Spine.idref := "cover";
                 Spine.item :=
                   {| linear := false; cfiBase := "/6/2";
                      body := sample_body |} |})
    as (_ & _ & _ & Hid).
  apply Hid; try reflexivity. discriminate.
Defined.

(** ** [located] *)

Section LocatedProperties.
Context {E : CfiEngine}.
Variable spinePos : string -> option Z.
Variable isNaN : string -> bool.
Variable encodeURI : string -> string.

Local Abbreviation located := (Rendition.located spinePos isNaN encodeURI).

Lemma find_linear_rev (items : list Spine.section) :
  find is_linear items = None <-> find is_linear (rev items) = None.
Proof.
  split; intros H.
  - destruct (find is_linear (rev items)) as [x|] eqn:Hx; [|reflexivity].
    apply find_some in Hx as [Hin Hx]. apply in_rev in Hin.
    rewrite (find_none _ _ H x Hin) in Hx. discriminate.
  - destruct (find is_linear items) as [x|] eqn:Hx; [|reflexivity].
    apply find_some in Hx as [Hin Hx]. apply in_rev in Hin.
    rewrite (find_none _ _ H x Hin) in Hx. discriminate.
Qed.

(** X20.  What [located] reports for the sections on display.  It
    answers with the empty object for an empty list.  For a list that is
    not empty it throws when the book has no page list yet or when the
    spine has no linear section; otherwise it reports, for the start of
    the first section and the end of the last one, the location that
    [locationFromCfi] gives and its percentage: -1 and 0 as long as no
    location was generated or loaded, and a position of the index with a
    percentage from 0 to 1 once the index is in place.  A page is
    reported only when [pageFromCfi] gives one: never on a page list
    without locations. *)
Theorem located_reports (locations : Locations.t)
    (pageList : option PageList.t) (spine : Spine.t)
    (first : Rendition.position) (rest : list Rendition.position) :
  let last := List.last (first :: rest) first in
  located locations pageList spine [] = Ok None
  /\ (pageList = None ->
      located locations pageList spine (first :: rest) = TypeError)
  /\ (find is_linear (Spine.spineItems spine) = None ->
      located locations pageList spine (first :: rest) = TypeError)
  /\ (forall pl s,
        pageList = Some pl ->
        find is_linear (Spine.spineItems spine) = Some s ->
        exists result,
          located locations pageList spine (first :: rest)
          = Ok (Some result)
          /\ Rendition.cfi (Rendition.located_start result)
             = Rendition.start (Rendition.range first)
          /\ Rendition.cfi (Rendition.located_end result)
             = Rendition.end_ (Rendition.range last)
          /\ (Locations._locations locations = [] ->
              Locations.total locations = 0 ->
              Rendition.location (Rendition.located_start result) = -1
              /\ Rendition.location (Rendition.located_end result) = -1
              /\ Rendition.percentage (Rendition.located_start result)
                 = 0%Q
              /\ Rendition.percentage (Rendition.located_end result)
                 = 0%Q)
          /\ (Locations._locations locations <> [] ->
              Locations.total locations
              = JS.length (Locations._locations locations) - 1 ->
              0 <= Rendition.location (Rendition.located_start result)
                <= Locations.total locations
              /\ 0 <= Rendition.location (Rendition.located_end result)
                   <= Locations.total locations
              /\ (0 <= Rendition.percentage
                         (Rendition.located_start result) <= 1)%Q
              /\ (0 <= Rendition.percentage
                         (Rendition.located_end result) <= 1)%Q)
          /\ (PageList.locations pl = [] ->
              Rendition.book_page (Rendition.located_start result) = None
              /\ Rendition.book_page (Rendition.located_end result)
                 = None)).
Proof.
  intros last.
  destruct (spine_ends spinePos isNaN encodeURI spine)
    as (_ & Hfirst & Hlast).
  split; [reflexivity|]. split; [|split].
  - intros ->. reflexivity.
  - intros Hnone. unfold Rendition.located.
    destruct pageList; [|reflexivity].
    rewrite Hlast. apply find_linear_rev in Hnone. now rewrite Hnone.
  - intros pl s -> Hs. unfold Rendition.located.
    rewrite Hlast, Hfirst, Hs.
    destruct (find is_linear (rev (Spine.spineItems spine))) as [l|] eqn:Hl.
    2:{ apply find_linear_rev in Hl. congruence. }
    eexists. split; [reflexivity|].
    cbn [Rendition.located_start Rendition.located_end Rendition.cfi
         Rendition.location Rendition.percentage Rendition.book_page].
    fold last.
    split; [reflexivity|]. split; [reflexivity|]. split; [|split].
    + intros Hempty Htotal.
      unfold Locations.locationFromCfi, Locations.percentageFromLocation.
      rewrite Hempty, Htotal. cbn. auto.
    + intros Hne Htotal.
      assert (H0 : 0 <= Locations.total locations).
      { pose proof (nonempty_length _ Hne). lia. }
      pose proof (locationFromCfi_bounds locations
                    (cfiString (Rendition.start (Rendition.range first)))
                    Hne H0) as Hs1.
      pose proof (locationFromCfi_bounds locations
                    (cfiString (Rendition.end_ (Rendition.range last)))
                    Hne H0) as Hs2.
      split; [exact Hs1|]. split; [exact Hs2|].
      split; apply percentageFromLocation_bounds; assumption.
    + intros Hnone. unfold PageList.pageFromCfi. rewrite Hnone.
      cbn. auto.
Qed.

End LocatedProperties.

Lemma located_reports_witness :
  exists spine result,
    Spine.append_all plain plain_decoded Spine.constructor sample_sections
    = Some spine
    /\ Rendition.located (E := StringEngine) no_position never_a_number
         plain two_locations (Some (PageList.constructor two_pages)) spine
         [sample_position]
       = Ok (Some result)
    /\ 0 <= Rendition.location (Rendition.located_start result) <= 1
    /\ (0 <= Rendition.percentage (Rendition.located_end result) <= 1)%Q.
Proof.
  eexists. 
  match goal with
  | |- exists result, ?run = Some ?spine /\ _ =>
      destruct (located_reports (E := StringEngine) no_position
                  never_a_number plain two_locations
                  (Some (PageList.constructor two_pages))
                  {| Spine.spineItems := reindexed sample_sections 0;
                     Spine.spineByHref :=
                       [ ("two.xhtml"%string, 2); ("two.xhtml"%string, 2);
                         ("two.xhtml"%string, 2); ("one.xhtml"%string, 1);
                         ("one.xhtml"%string, 1); ("one.xhtml"%string, 1);
                         ("cover.xhtml"%string, 0);
                         ("cover.xhtml"%string, 0);
                         ("cover.xhtml"%string, 0) ];
                     Spine.spineById :=
                       [ ("two"%string, 2); ("one"%string, 1);
                         ("cover"%string, 0) ] |}
                  sample_position [])
        as (_ & _ & _ & Hfound)
  end.
  destruct (Hfound (PageList.constructor two_pages)
              (Spine.with_index
                 {| Spine.section_id := 2; Spine.index := 0;
                    Spine.href := "one.xhtml"; Spine.idref := "one";
                    Spine.item :=
                      {| linear := true; cfiBase := "/6/4";
                         body := sample_body |} |} 1)
              eq_refl eq_refl)
    as (result & Hrun & _ & _ & _ & Hrange & _).
  exists result. split; [reflexivity|]. split; [exact Hrun|].
  destruct Hrange as (Hs & _ & _ & He); [discriminate | reflexivity |].
  split; [exact Hs | exact He].
Defined.

(** ** The table of contents *)

Lemma item_induction (P : Navigation.item -> Prop) :
  (forall id href label subitems parent,
      Forall P subitems ->
      P (Navigation.Item id href label subitems parent)) ->
  forall it, P it.
Proof.
  intros H. fix IH 1. intros [id href label subitems parent].
  apply H. induction subitems as [|x rest IHrest]; constructor;
    [apply IH | exact IHrest].
Qed.

Lemma entries_all (items : list Navigation.item) :
  (fix all (items : list Navigation.item) :=
     match items with
     | [] => []
     | x :: rest => entries_of x ++ all rest
     end) items
  = entries items.
Proof.
  induction items as [|x rest IH]; [reflexivity|].
  cbn [entries]. now rewrite IH.
Qed.

Lemma entries_of_item (id href : option string) (label : string)
    (subitems : list Navigation.item) (parent : option string) :
  entries_of (Navigation.Item id href label subitems parent)
  = Navigation.Item id href label subitems parent :: entries subitems.
Proof. cbn [entries_of]. now rewrite entries_all. Qed.

Lemma each_from_length (items : list Navigation.item) :
  Forall
    (fun it =>
       forall self i,
         Navigation.length (Navigation.unpack_item self i it)
         = Navigation.length self + JS.length (entries_of it))
    items ->
  forall self i,
    Navigation.length
      (Navigation.each_from Navigation.unpack_item self items i)
    = Navigation.length self + JS.length (entries items).
Proof.
  induction 1 as [|x rest Hx _ IH]; intros self i.
  - cbn. unfold JS.length. cbn. lia.
  - cbn [Navigation.each_from entries].
    rewrite IH, Hx, length_app. lia.
Qed.

Lemma unpack_item_length (it : Navigation.item) :
  forall self i,
    Navigation.length (Navigation.unpack_item self i it)
    = Navigation.length self + JS.length (entries_of it).
Proof.
  induction it as [id href label subitems parent IH] using item_induction.
  intros self i. cbn [Navigation.unpack_item].
  rewrite (each_from_length subitems IH), entries_of_item.
  cbn [Navigation.length]. unfold JS.length. cbn [List.length]. lia.
Qed.

Lemma navigation_items (items : list Navigation.item) :
  Navigation.toc (Navigation.constructor items) = items.
Proof.
  unfold Navigation.constructor, Navigation.unpack.
  assert (Hsub : forall l self i,
             Forall
               (fun it =>
                  forall self i,
                    Navigation.toc (Navigation.unpack_item self i it)
                    = Navigation.toc self) l ->
             Navigation.toc
               (Navigation.each_from Navigation.unpack_item self l i)
             = Navigation.toc self).
  { intros l self i Hall. revert self i.
    induction Hall as [|y l Hy _ IHl]; intros self i; [reflexivity|].
    cbn [Navigation.each_from]. now rewrite IHl, Hy. }
  rewrite Hsub; [reflexivity|].
  apply Forall_forall. intros it _.
  induction it as [id href label subitems parent IH] using item_induction.
  intros self i. cbn [Navigation.unpack_item].
  now rewrite (Hsub subitems _ 0 IH).
Qed.

(** X21.  [length] counts every entry of the table of contents, the
    nested ones included: after the constructor it is the number of
    entries of the table and of all the tables below it. *)
Theorem navigation_length (items : list Navigation.item) :
  Navigation.length (Navigation.constructor items)
  = JS.length (entries items)
  /\ Navigation.toc (Navigation.constructor items) = items.
Proof.
  split; [|apply navigation_items].
  unfold Navigation.constructor, Navigation.unpack.
  rewrite each_from_length; [reflexivity|].
  apply Forall_forall. intros it _. apply unpack_item_length.
Qed.

Lemma In_entries (items : list Navigation.item) (x : Navigation.item) :
  In x items -> In x (entries items).
Proof.
  induction items as [|y rest IH]; [contradiction|].
  intros [-> | Hin]; cbn [entries]; apply in_or_app.
  - left. destruct x. rewrite entries_of_item. now left.
  - right. now apply IH.
Qed.

Lemma In_entries_below (items : list Navigation.item)
    (x r : Navigation.item) :
  In x items -> In r (entries (Navigation.subitems x)) ->
  In r (entries items).
Proof.
  induction items as [|y rest IH]; [contradiction|].
  intros [-> | Hin] Hr; cbn [entries]; apply in_or_app.
  - left. destruct x. rewrite entries_of_item. now right.
  - right. now apply IH.
Qed.

Lemma first_result_some (search : Navigation.item -> option Navigation.item)
    (items : list Navigation.item) (r : Navigation.item) :
  Navigation.first_result search items = Some r ->
  exists x, In x items /\ search x = Some r.
Proof.
  induction items as [|y rest IH]; [discriminate|].
  cbn [Navigation.first_result].
  destruct (search y) as [result|] eqn:Hy.
  - intros H. injection H as <-. exists y. split; [now left | exact Hy].
  - intros H. destruct (IH H) as (x & Hin & Hx). exists x.
    split; [now right | exact Hx].
Qed.

Lemma first_result_found (search : Navigation.item -> option Navigation.item)
    (items : list Navigation.item) (x r : Navigation.item) :
  In x items -> search x = Some r ->
  exists r', Navigation.first_result search items = Some r'.
Proof.
  induction items as [|y rest IH]; [contradiction|].
  intros Hin Hx. cbn [Navigation.first_result].
  destruct (search y) as [result|] eqn:Hy; [now exists result|].
  destruct Hin as [-> | Hin]; [congruence|]. now apply IH.
Qed.

Lemma getByIndex_body_sound
    (search : Navigation.item -> option Navigation.item)
    (target : string) (index : option Z) (items : list Navigation.item)
    (it : Navigation.item) :
  (forall x r,
      In x items -> search x = Some r ->
      Navigation.is_target target r = true
      /\ In r (entries (Navigation.subitems x))) ->
  Navigation.getByIndex_body search target index items = Some it ->
  Navigation.is_target target it = true /\ In it (entries items).
Proof.
  intros Hsearch. unfold Navigation.getByIndex_body.
  destruct (JS.length items =? 0); [discriminate|].
  assert (Hloop : Navigation.first_result search items = Some it ->
                  Navigation.is_target target it = true
                  /\ In it (entries items)).
  { intros H. apply first_result_some in H as (x & Hin & Hx).
    destruct (Hsearch x it Hin Hx) as [Ht Hr].
    split; [exact Ht | now apply (In_entries_below items x)]. }
  destruct (match index with
            | Some i => JS.index items i
            | None => None
            end) as [x|] eqn:Hx; [|exact Hloop].
  destruct (Navigation.is_target target x) eqn:Ht; [|exact Hloop].
  intros H. injection H as <-. split; [exact Ht|].
  apply In_entries. destruct index as [i|]; [|discriminate].
  now apply index_In in Hx.
Qed.

Lemma in_subitems_sound (target : string) (index : option Z)
    (x : Navigation.item) :
  forall r,
    Navigation.in_subitems target index x = Some r ->
    Navigation.is_target target r = true
    /\ In r (entries (Navigation.subitems x)).
Proof.
  induction x as [id href label subitems parent IH] using item_induction.
  intros r. cbn [Navigation.in_subitems Navigation.subitems].
  apply getByIndex_body_sound. intros y s Hin.
  rewrite Forall_forall in IH. now apply IH.
Qed.

Lemma getByIndex_sound (target : string) (index : option Z)
    (items : list Navigation.item) (it : Navigation.item) :
  Navigation.getByIndex target index items = Some it ->
  Navigation.is_target target it = true /\ In it (entries items).
Proof.
  apply getByIndex_body_sound. intros x r _. apply in_subitems_sound.
Qed.

(** X22.  What [get] finds is an entry of the table whose [id] or [href]
    is the target as it was given: the ["#"] that sends a target to the
    identifiers is not taken off for the comparison.  So a target that no
    entry has as its [id] or [href], such as ["#"] followed by the
    identifier of an entry, finds nothing, whatever the dictionaries
    hold; an empty target gives the whole table. *)
Theorem navigation_get_sound (self : Navigation.t) (target : string) :
  (target = EmptyString ->
   Navigation.get self target = Navigation.Toc (Navigation.toc self))
  /\ (forall it,
        Navigation.get self target = Navigation.Found (Some it) ->
        Navigation.is_target target it = true
        /\ In it (entries (Navigation.toc self)))
  /\ (target <> EmptyString ->
      (forall it,
          In it (entries (Navigation.toc self)) ->
          Navigation.is_target target it = false) ->
      Navigation.get self target = Navigation.Found None).
Proof.
  split; [|split].
  - intros ->. reflexivity.
  - intros it. unfold Navigation.get.
    destruct (negb (JS.truthy_string target)); [discriminate|].
    intros H. injection H as H. now apply getByIndex_sound in H.
  - intros Hne Hnone. unfold Navigation.get.
    destruct target as [|c rest]; [congruence|]. cbn [JS.truthy_string negb].
    match goal with
    | |- Navigation.Found ?r = _ => destruct r as [it|] eqn:Hr
    end; [|reflexivity].
    apply getByIndex_sound in Hr as [Ht Hin].
    rewrite (Hnone it Hin) in Ht. discriminate.
Qed.

Lemma navigation_get_sound_witness :
  Navigation.get (Navigation.constructor sample_toc) EmptyString
  = Navigation.Toc sample_toc
  /\ Navigation.get (Navigation.constructor sample_toc) "#c1s2"
     = Navigation.Found None.
Proof.
  split.
  - apply (navigation_get_sound (Navigation.constructor sample_toc)
             EmptyString). reflexivity.
  - apply (navigation_get_sound (Navigation.constructor sample_toc) "#c1s2");
      [discriminate|].
    intros it Hin. cbn in Hin.
    repeat (destruct Hin as [<- | Hin]; [reflexivity|]). contradiction.
Defined.

(** *** Where the positions of the dictionaries come from *)

Lemma assign_if_lookup (d : Spine.dict) (key : option string) (i j : Z)
    (k : string) :
  Spine.lookup (Navigation.assign_if d key i) k = Some j ->
  Spine.lookup d k = Some j \/ (j = i /\ key = Some k).
Proof.
  unfold Navigation.assign_if. destruct key as [s|]; [|now left].
  destruct (JS.truthy_string s); [|now left].
  unfold Spine.assign. destruct (String.eqb s "__proto__"); [now left|].
  cbn [Spine.lookup]. destruct (String.eqb s k) eqn:Hs; [|now left].
  apply String.eqb_eq in Hs. subst s. intros H. injection H as <-.
  now right.
Qed.

Lemma assign_if_keeps (d : Spine.dict) (key : option string) (i : Z)
    (k : string) :
  Spine.lookup d k <> None ->
  Spine.lookup (Navigation.assign_if d key i) k <> None.
Proof.
  unfold Navigation.assign_if. destruct key as [s|]; [|auto].
  destruct (JS.truthy_string s); [|auto].
  unfold Spine.assign. destruct (String.eqb s "__proto__"); [auto|].
  cbn [Spine.lookup]. destruct (String.eqb s k); [discriminate | auto].
Qed.

Lemma assign_if_filed (d : Spine.dict) (key : option string) (i : Z)
    (k : string) :
  filed key k -> Spine.lookup (Navigation.assign_if d key i) k = Some i.
Proof.
  intros (-> & Hne & Hproto). unfold Navigation.assign_if.
  destruct k as [|c k]; [congruence|]. cbn [JS.truthy_string].
  now apply lookup_assign_same.
Qed.

Section NavigationKeys.
Variable k : string.

Lemma each_from_keeps (items : list Navigation.item) :
  Forall (keeps k) items ->
  forall self i,
    Spine.lookup (Navigation.tocByHref self) k <> None ->
    Spine.lookup
      (Navigation.tocByHref
         (Navigation.each_from Navigation.unpack_item self items i)) k
    <> None.
Proof.
  induction 1 as [|x rest Hx _ IH]; intros self i Hself; [exact Hself|].
  cbn [Navigation.each_from]. apply IH. now apply Hx.
Qed.

Lemma unpack_item_keeps (it : Navigation.item) : keeps k it.
Proof.
  induction it as [id href label subitems parent IH] using item_induction.
  intros self i Hself. cbn [Navigation.unpack_item].
  apply each_from_keeps; [exact IH|]. cbn [Navigation.tocByHref].
  now apply assign_if_keeps.
Qed.

Lemma each_from_files (items : list Navigation.item) :
  Forall (files k) items ->
  forall x,
    In x (entries items) -> filed (Navigation.href x) k ->
    forall self i,
      Spine.lookup
        (Navigation.tocByHref
           (Navigation.each_from Navigation.unpack_item self items i)) k
      <> None.
Proof.
  induction 1 as [|y rest Hy _ IH]; intros x Hin Hx self i;
    [contradiction|].
  cbn [entries] in Hin. cbn [Navigation.each_from].
  apply in_app_or in Hin as [Hin | Hin].
  - apply each_from_keeps.
    + apply Forall_forall. intros z _. apply unpack_item_keeps.
    + now apply (Hy x).
  - now apply (IH x).
Qed.

Lemma unpack_item_files (it : Navigation.item) : files k it.
Proof.
  induction it as [id href label subitems parent IH] using item_induction.
  intros x Hin Hx self i. rewrite entries_of_item in Hin.
  cbn [Navigation.unpack_item]. destruct Hin as [<- | Hin].
  - apply each_from_keeps.
    + apply Forall_forall. intros z _. apply unpack_item_keeps.
    + cbn [Navigation.tocByHref Navigation.href] in *.
      now rewrite assign_if_filed.
  - now apply (each_from_files subitems IH x).
Qed.

Lemma each_from_origin (items : list Navigation.item) :
  Forall (origin k) items ->
  forall (before : list Navigation.item) self j,
    Spine.lookup
      (Navigation.tocByHref
         (Navigation.each_from Navigation.unpack_item self items
            (JS.length before))) k
    = Some j ->
    Spine.lookup (Navigation.tocByHref self) k = Some j
    \/ exists x,
         placed j x (before ++ items) /\ Navigation.href x = Some k.
Proof.
  induction 1 as [|y rest Hy _ IH]; intros before self j Hj.
  - now left.
  - cbn [Navigation.each_from] in Hj.
    replace (JS.length before + 1) with (JS.length (before ++ [y])) in Hj
      by (rewrite length_app; reflexivity).
    apply IH in Hj. rewrite <- app_assoc in Hj. cbn [app] in Hj.
    destruct Hj as [Hj | Hj]; [|now right].
    apply Hy in Hj as [Hj | [[-> Hhref] | (x & Hx & Hhref)]].
    + now left.
    + right. exists y. split; [|exact Hhref]. apply placed_here.
      rewrite index_app_right by lia. now rewrite Z.sub_diag.
    + right. exists x. split; [|exact Hhref].
      apply (placed_below j x _ y); [|exact Hx].
      apply in_or_app. right. now left.
Qed.

Lemma unpack_item_origin (it : Navigation.item) : origin k it.
Proof.
  induction it as [id href label subitems parent IH] using item_induction.
  intros self i j Hj. cbn [Navigation.unpack_item] in Hj.
  apply (each_from_origin subitems IH []) in Hj.
  cbn [app Navigation.tocByHref] in Hj.
  destruct Hj as [Hj | Hj].
  - apply assign_if_lookup in Hj as [Hj | [-> Hhref]]; [now left|].
    right. left. now split.
  - right. right. exact Hj.
Qed.

End NavigationKeys.

Lemma getByIndex_complete (target : string) (i : Z)
    (items : list Navigation.item) (x : Navigation.item) :
  placed i x items ->
  Navigation.is_target target x = true ->
  exists r, Navigation.getByIndex target (Some i) items = Some r.
Proof.
  induction 1 as [items Hat | items above Hin Hbelow IH]; intros Ht.
  - unfold Navigation.getByIndex, Navigation.getByIndex_body.
    destruct (JS.length items =? 0) eqn:Hz.
    { apply length_zero_nil in Hz. subst items. unfold JS.index in Hat.
      destruct (i <? 0); [discriminate|]. now destruct (Z.to_nat i). }
    rewrite Hat, Ht. now exists x.
  - destruct (IH Ht) as [r Hr].
    unfold Navigation.getByIndex, Navigation.getByIndex_body.
    destruct (JS.length items =? 0) eqn:Hz.
    { apply length_zero_nil in Hz. subst items. contradiction. }
    assert (Hloop : exists r',
               Navigation.first_result
                 (Navigation.in_subitems target (Some i)) items
               = Some r').
    { apply (first_result_found _ items above r Hin).
      destruct above. exact Hr. }
    destruct Hloop as [r' Hr'].
    destruct (JS.index items i) as [y|]; [|now exists r'].
    destruct (Navigation.is_target target y); [now exists y|].
    now exists r'.
Qed.

(** X23.  An entry is found by its address: after the constructor, for an
    entry anywhere in the table whose [href] is a key that [unpack] files
    (not empty, not [__proto__]), does not start with ["#"], and is the
    [id] or [href] of no other entry, [get] with the address answers with
    that entry. *)
Theorem navigation_get_by_href (items : list Navigation.item)
    (x : Navigation.item) (h : string) :
  In x (entries items) ->
  filed (Navigation.href x) h ->
  JSString.indexOf h "#" <> 0 ->
  (forall y,
      In y (entries items) -> Navigation.is_target h y = true -> y = x) ->
  Navigation.get (Navigation.constructor items) h
  = Navigation.Found (Some x).
Proof.
  intros Hin Hfiled Hhash Hunique.
  set (self := Navigation.constructor items).
  assert (Htoc : Navigation.toc self = items)
    by (apply navigation_items).
  assert (Hsome : Spine.lookup (Navigation.tocByHref self) h <> None).
  { unfold self, Navigation.constructor, Navigation.unpack.
    apply (each_from_files h items) with (x := x); try assumption.
    apply Forall_forall. intros z _. apply unpack_item_files. }
  destruct (Spine.lookup (Navigation.tocByHref self) h) as [i|] eqn:Hi;
    [|congruence].
  assert (Hplaced : exists y,
             placed i y items /\ Navigation.href y = Some h).
  { unfold self, Navigation.constructor, Navigation.unpack in Hi.
    apply (each_from_origin h items) with (before := []) in Hi.
    - destruct Hi as [Hi | Hi]; [discriminate | exact Hi].
    - apply Forall_forall. intros z _. apply unpack_item_origin. }
  destruct Hplaced as (y & Hy & Hhref).
  assert (Hty : Navigation.is_target h y = true).
  { unfold Navigation.is_target. rewrite Hhref, String.eqb_refl.
    apply orb_true_r. }
  destruct (getByIndex_complete h i items y Hy Hty) as [r Hr].
  pose proof (getByIndex_sound h (Some i) items r Hr) as [Htr Hinr].
  rewrite (Hunique r Hinr Htr) in Hr.
  unfold Navigation.get. destruct Hfiled as (_ & Hne & _).
  destruct h as [|c rest]; [congruence|]. cbn [JS.truthy_string negb].
  apply Z.eqb_neq in Hhash. rewrite Hhash. fold self.
  now rewrite Hi, Htoc, Hr.
Qed.

Lemma navigation_get_by_href_witness :
  Navigation.get (Navigation.constructor sample_toc) "one.xhtml#s2"
  = Navigation.Found
      (Some (Navigation.Item (Some "c1s2") (Some "one.xhtml#s2") "One, two"
               [] (Some "c1")))%string.
Proof.
  apply (navigation_get_by_href sample_toc).
  - cbn. auto.
  - repeat split; discriminate.
  - vm_compute. discriminate.
  - intros y Hy. cbn in Hy.
    repeat (destruct Hy as [<- | Hy]; [try discriminate; reflexivity|]).
    contradiction.
Defined.
